(** * A Wordle advisor: feedback encoding, hint pruning, scoring and ranking

    Shallow embedding of [wordle_exact.py] (the exact, partition-based
    scorer) and of [wordle.py] (the frequency-based heuristic scorer),
    followed by the properties of the two sessions.

    Python values are modelled as follows.
    - [str]           : [list ascii] (a word or a label, one element per
                        character); [str_of] turns a literal into one;
    - [int]           : [Z];
    - [dict], [Counter]: [gmap]; a missing key read with [d[k]] raises
                        [KeyError], [d.get(k, 0)] reads with a default;
    - [set]           : [gset]; a [for] loop over a set runs over
                        [elements], an order the program cannot rely on;
    - [list], [np.array]: [list]; [l[i]] out of range raises [IndexError];
    - exceptions      : the [result] monad for expressions, and the
                        monad [py], which threads the state of [self] and
                        keeps the state reached when an exception is
                        raised, for the methods that mutate [self];
    - global names    : [wordle_exact.py] is taken as run as a script,
                        whose [__main__] block binds [logger]; a bare
                        name that the module does not bind raises
                        [NameError];
    - [float64]       : the scores of [wordle.py] are computed over the
                        reals [R] (exact arithmetic, [np.log] as [ln]). *)

From Stdlib Require Import Reals Lra.
From stdpp Require Import gmap strings list fin_maps sorting.
From Stdlib Require Import ZArith Lia Ascii.

Set Default Proof Using "Type".
Set Warnings "-clear-no-such-hyp".
Open Scope Z_scope.

(** ** Python runtime *)

Inductive exn : Type :=
  | IndexError
  | KeyError
  | NameError
  | AssertionError (msg : string).

Inductive result (A : Type) : Type :=
  | Ok (a : A)
  | Raise (e : exn).
Arguments Ok {A} a.
Arguments Raise {A} e.

Global Instance exn_eq_dec : EqDecision exn.
Proof. solve_decision. Defined.
Global Instance result_eq_dec `{EqDecision A} : EqDecision (result A).
Proof. solve_decision. Defined.

Global Instance result_ret : MRet result := λ A a, Ok a.
Global Instance result_bind : MBind result := λ A B f m,
  match m with
  | Ok a => f a
  | Raise e => Raise e
  end.

Abbreviation str := (list ascii) (only parsing).
Definition str_of (s : string) : str := String.list_ascii_of_string s.

(** [l[i]] on a list or string. *)
Definition index {A} (l : list A) (i : nat) : result A :=
  match l !! i with
  | Some x => Ok x
  | None => Raise IndexError
  end.

(** [d[k]] and [d.get(k, 0)] on a dict with integer values. *)
Definition getitem `{Countable K} {V} (d : gmap K V) (k : K) : result V :=
  match d !! k with
  | Some v => Ok v
  | None => Raise KeyError
  end.

Definition get0 `{Countable K} (d : gmap K Z) (k : K) : Z :=
  default 0 (d !! k).

(** [d[k] += n]: reads [d[k]] first, so a missing key raises. *)
Definition iadd `{Countable K} (d : gmap K Z) (k : K) (n : Z)
  : result (gmap K Z) :=
  v ← getitem d k; Ok (<[k := v + n]> d).

(** [collections.Counter(l)]: [self[x] = self.get(x, 0) + 1] per element. *)
Definition Counter `{Countable K} (l : list K) : gmap K Z :=
  foldl (λ d x, <[x := get0 d x + 1]> d) ∅ l.

(** [d.values()]. *)
Definition values `{Countable K} {V} (d : gmap K V) : list V :=
  (map_to_list d).*2.

(** Methods that mutate [self]: a computation takes the object's state
    and gives back the state it leaves, with the value returned or the
    exception raised.  A raise keeps the mutations made before it. *)
Definition py (S A : Type) : Type := S → S * result A.

Global Instance py_ret {S} : MRet (py S) := λ A a s, (s, Ok a).
Global Instance py_bind {S} : MBind (py S) := λ A B f m s,
  match m s with
  | (s', Ok a) => f a s'
  | (s', Raise e) => (s', Raise e)
  end.

Definition gets {S A} (f : S → A) : py S A := λ s, (s, Ok (f s)).
Definition modify {S} (f : S → S) : py S unit := λ s, (f s, Ok ()).
Definition lift {S A} (r : result A) : py S A := λ s, (s, r).

(** [assert b, msg]. *)
Definition py_assert {S} (b : bool) (msg : string) : py S unit :=
  lift (if b then Ok () else Raise (AssertionError msg)).

(** A [for] loop carrying the local variables [b]. *)
Fixpoint foldM `{MBind M, MRet M} {A B} (f : B → A → M B) (b : B)
    (l : list A) : M B :=
  match l with
  | [] => mret b
  | x :: l' => b' ← f b x; foldM f b' l'
  end.

Definition for_ {S A} (l : list A) (body : A → py S unit) : py S unit :=
  foldM (M := py S) (λ _ x, body x) () l.

(** [enumerate(l)]. *)
Definition enumerate {A} (l : list A) : list (nat * A) :=
  zip (seq 0 (length l)) l.

(** [l[:K]] and [l[::-1]]; a negative [K] counts from the end. *)
Definition slice_to {A} (K : Z) (l : list A) : list A :=
  if decide (0 ≤ K) then take (Z.to_nat K) l
  else take (length l - Z.to_nat (- K)) l.

Definition reversed {A} (l : list A) : list A := reverse l.

(** The loop [for idx in order: print(f'WORD: {words[idx]}\tSCORE:
    {scores[idx]}')]: the lines printed, as (word, score) pairs. *)
Definition print_results {A} (words : list (list ascii)) (scores : list A)
    (order : list nat) : result (list (list ascii * A)) :=
  mapM (λ idx, w ← index words idx; sc ← index scores idx; Ok (w, sc)) order.

(** *** NumPy *)

(** An array built from Python ints holds [int64] (NumPy's default
    integer on 64-bit Linux and macOS), whose arithmetic wraps around. *)
Definition int64 (z : Z) : Z := (z + 2 ^ 63) `mod` 2 ^ 64 - 2 ^ 63.

(** [a ** 2] and [a.sum()] on an integer array. *)
Definition np_square (a : list Z) : list Z := (λ v, int64 (v * v)) <$> a.
Definition np_sum (a : list Z) : Z := foldl (λ acc v, int64 (acc + v)) 0 a.

(** [np.argsort(scores)] with the default [kind]: NumPy promises the
    indices that sort [scores] in ascending order and nothing about the
    order of equal scores.  The rankers take the function as an argument;
    [sorts_by] is all that is known of it. *)
Definition sorts_by {A} (le : relation A) (argsort : list A → list nat)
  : Prop :=
  ∀ scores,
    argsort scores ≡ₚ seq 0 (length scores) ∧
    ∀ i j a b x y, (i < j)%nat →
      argsort scores !! i = Some a → argsort scores !! j = Some b →
      scores !! a = Some x → scores !! b = Some y → le x y.

(** A stable argsort, by insertion from the right: the order
    [kind='stable'] gives. *)
Section stable_argsort.
Context {A : Type} (le : relation A) `{!RelDecision le}.

Fixpoint insert_by (x : nat * A) (l : list (nat * A)) : list (nat * A) :=
  match l with
  | [] => [x]
  | y :: l' => if decide (le x.2 y.2) then x :: y :: l'
               else y :: insert_by x l'
  end.

Definition argsort_stable (scores : list A) : list nat :=
  (foldr insert_by [] (enumerate scores)).*1.
End stable_argsort.

(** ** [wordle_exact.py] *)

Module Exact.

(** *** [Wordle.get_label] *)

(** First loop: [for pos, char in enumerate(word)], started at [pos]
    with [rest] still to visit. *)
Fixpoint get_label_exact (target : str) (pos : nat) (rest : str)
    (ans : list ascii) (char_counts : gmap ascii Z)
  : result (list ascii * gmap ascii Z) :=
  match rest with
  | [] => Ok (ans, char_counts)
  | char :: rest' =>
      t ← index target pos;
      if decide (t = char) then
        char_counts' ← iadd char_counts char (-1);
        get_label_exact target (S pos) rest' (<[pos := "2"%char]> ans)
                        char_counts'
      else get_label_exact target (S pos) rest' ans char_counts
  end.

(** Second loop. *)
Fixpoint get_label_present (pos : nat) (rest : str)
    (ans : list ascii) (char_counts : gmap ascii Z)
  : result (list ascii * gmap ascii Z) :=
  match rest with
  | [] => Ok (ans, char_counts)
  | char :: rest' =>
      a ← index ans pos;
      if bool_decide (a ≠ "2"%char) && bool_decide (0 < get0 char_counts char)
      then
        char_counts' ← iadd char_counts char (-1);
        get_label_present (S pos) rest' (<[pos := "1"%char]> ans)
                          char_counts'
      else get_label_present (S pos) rest' ans char_counts
  end.

Definition get_label (word target : str) : result str :=
  let ans := replicate (length word) "0"%char in
  let char_counts := Counter target in
  '(ans, char_counts) ← get_label_exact target 0 word ans char_counts;
  '(ans, _) ← get_label_present 0 word ans char_counts;
  Ok ans.

(** *** The session *)

(** [self.words] maps a word type to [[original list, pruned list]];
    the association list keeps the dict's insertion order, in which
    [items()] runs. *)
Record state : Type := mkState {
  _len : nat;
  hints : list (str * str);
  words : list (string * (list str * list str))
}.

Definition set_hints (f : list (str * str) → list (str * str))
    (s : state) : state :=
  mkState (_len s) (f (hints s)) (words s).
Definition set_words
    (f : list (string * (list str * list str)) →
         list (string * (list str * list str)))
    (s : state) : state :=
  mkState (_len s) (hints s) (f (words s)).

(** [self.words[key]]. *)
Definition words_getitem (s : state) (key : string)
  : result (list str * list str) :=
  match list_find (λ kv, kv.1 = key) (words s) with
  | Some (_, (_, v)) => Ok v
  | None => Raise KeyError
  end.

(** The names bound at module level when the [__main__] block calls
    [Wordle(...)]: the imports, [read_file], [Wordle], and the block's
    own [words_data_files] and [logger].  [read_words] is not one of
    them: it is defined in the body of [class Wordle], which is no
    enclosing scope of the methods. *)
Definition module_globals : list string :=
  ["logging"; "np"; "urllib"; "tqdm"; "Counter"; "read_file"; "Wordle";
   "words_data_files"; "logger"].

(** A bare name read in a method, [v] being the value of the definition
    written under that name. *)
Definition lookup_global {A} (name : string) (v : A) : result A :=
  if decide (name ∈ module_globals) then Ok v else Raise NameError.

(** [self.words[key] = v]: a new key goes last, a known one keeps its
    place. *)
Definition words_setitem (key : string) (v : list str * list str)
    (d : list (string * (list str * list str)))
  : list (string * (list str * list str)) :=
  if decide (key ∈ d.*1)
  then (λ kv : string * (list str * list str),
          if decide (kv.1 = key) then (key, v) else kv) <$> d
  else d ++ [(key, v)].

(** [read_initial_words]: [read_words] is the loader defined in the
    class body, already applied to [onlyalpha] and [_len];
    [words_data_files] lists the items of the dict of files.  The method
    calls the loader by its bare name. *)
Definition read_initial_words (read_words : string → list str)
    (words_data_files : list (string * string)) : py state unit :=
  modify (set_words (λ _, []));;
  for_ words_data_files (λ item : string * string,
    let '(word_type, fname) := item in
    loader ← lift (lookup_global "read_words" read_words);
    let words := loader fname in
    modify (set_words (words_setitem word_type (words, words)))).

(** [__init__]: the state it leaves, with what it returns or raises. *)
Definition init (read_words : string → list str) (len : nat)
    (words_data_files : list (string * string)) : state * result unit :=
  read_initial_words read_words words_data_files (mkState len [] []).

(** [all(self.get_label(hword, word) == hlabel for ...)]: stops at the
    first hint that fails. *)
Fixpoint all_hints (hints : list (str * str)) (word : str) : result bool :=
  match hints with
  | [] => Ok true
  | (hword, hlabel) :: hints' =>
      l ← get_label hword word;
      if decide (l = hlabel) then all_hints hints' word else Ok false
  end.

Fixpoint prune_list (hints : list (str * str)) (words : list str)
  : result (list str) :=
  match words with
  | [] => Ok []
  | word :: words' =>
      b ← all_hints hints word;
      pruned ← prune_list hints words';
      Ok (if (b : bool) then word :: pruned else pruned)
  end.

Definition prune_words (words : list str) : py state (list str) :=
  hs ← gets hints; lift (prune_list hs words).

(** [words[1] = ...] writes into the list object held by the dict, found
    here by its place in [items()]. *)
Definition prune_item (it : nat * (string * (list str * list str)))
  : py state unit :=
  let '(i, (word_type, ws)) := it in
  pruned ← prune_words ws.2;
  modify (set_words (λ d, <[i := (word_type, (ws.1, pruned))]> d)).

Definition add_word_hint (word label : str) : py state unit :=
  modify (set_hints (λ hs, hs ++ [(word, label)]));;
  items ← gets words;
  for_ (enumerate items) prune_item.

(** On an empty pruned list NumPy sums an empty float array to [0.0],
    here the integer 0. *)
Definition get_score (s : state) (word : str) (anstype : string)
  : result Z :=
  ws ← words_getitem s anstype;
  labels ← mapM (λ w, get_label word w) ws.2;
  Ok (np_sum (np_square (values (Counter labels)))).

(** [predict] prints one line per result; the lines are returned as
    (word, score) pairs. *)
Definition predict (argsort : list Z → list nat) (s : state) (K : Z)
    (searchtype anstype : string) (pruned : bool)
  : result (list (str * Z)) :=
  ws ← words_getitem s searchtype;
  let words := if pruned then ws.2 else ws.1 in
  scores ← mapM (λ word, get_score s word anstype) words;
  print_results words scores (slice_to K (argsort scores)).

End Exact.

(** ** [wordle.py] *)

Global Instance Rlt_decision : RelDecision Rlt := Rlt_dec.
Global Instance Rle_decision : RelDecision Rle := Rle_dec.
Global Instance Rle_transitive : Transitive Rle.
Proof. intros x y z. apply Rle_trans. Qed.
Global Instance Rle_total : Total Rle.
Proof. intros x y. destruct (Rle_or_lt x y); [by left|right; lra]. Qed.

Definition sumR (l : list R) : R := foldr Rplus 0%R l.

Module Heur.

(** *** [read_words] *)

(** [lines] is what [read_file] returns for the file; [strip] and
    [isalpha] are the methods of [str]. *)
Definition read_words (strip : str → str) (isalpha : str → bool)
    (lines : list str) (onlyalpha : bool) (len : nat) : gset str :=
  foldl (λ (words : gset str) line,
           let word := strip line in
           if decide (length word ≠ len) then words
           else if onlyalpha && negb (isalpha word) then words
           else {[word]} ∪ words) ∅ lines.

(** *** [get_information] *)
Definition get_information (event_counts : list Z) : R :=
  let event_counts := IZR <$> event_counts in
  let event_counts := filter (λ x, (0 < x)%R) event_counts in
  if decide (length event_counts = 0%nat) then 0%R
  else
    let total := sumR event_counts in
    let event_counts := (λ x, (x / total)%R) <$> event_counts in
    let info := (λ x, (x * ln x)%R) <$> event_counts in
    (- sumR info)%R.

(** *** The session *)
Record state : Type := mkState {
  _len : nat;
  allowed_words : gset str;
  answer_words : gset str;
  num_allowed_words : Z;
  num_answer_words : Z;
  chars : gset ascii;
  char_pos_counts : gmap ascii (gmap nat Z);
  char_in_counts : gmap ascii Z;
  char_notin_counts : gmap ascii Z
}.

Definition set_answer_words (v : gset str) (s : state) : state :=
  mkState (_len s) (allowed_words s) v (num_allowed_words s)
    (num_answer_words s) (chars s) (char_pos_counts s) (char_in_counts s)
    (char_notin_counts s).
Definition set_num_answer_words (v : Z) (s : state) : state :=
  mkState (_len s) (allowed_words s) (answer_words s) (num_allowed_words s)
    v (chars s) (char_pos_counts s) (char_in_counts s)
    (char_notin_counts s).
Definition set_chars (v : gset ascii) (s : state) : state :=
  mkState (_len s) (allowed_words s) (answer_words s) (num_allowed_words s)
    (num_answer_words s) v (char_pos_counts s) (char_in_counts s)
    (char_notin_counts s).
Definition set_char_pos_counts (v : gmap ascii (gmap nat Z)) (s : state)
  : state :=
  mkState (_len s) (allowed_words s) (answer_words s) (num_allowed_words s)
    (num_answer_words s) (chars s) v (char_in_counts s)
    (char_notin_counts s).
Definition set_char_in_counts (v : gmap ascii Z) (s : state) : state :=
  mkState (_len s) (allowed_words s) (answer_words s) (num_allowed_words s)
    (num_answer_words s) (chars s) (char_pos_counts s) v
    (char_notin_counts s).
Definition set_char_notin_counts (v : gmap ascii Z) (s : state) : state :=
  mkState (_len s) (allowed_words s) (answer_words s) (num_allowed_words s)
    (num_answer_words s) (chars s) (char_pos_counts s) (char_in_counts s) v.

Definition update_chars : py state unit :=
  modify (set_chars ∅);;
  ws ← gets answer_words;
  for_ (elements ws) (λ word,
    cs ← gets chars; modify (set_chars (cs ∪ list_to_set word))).

(** The body of the first loop of [update_counts]. *)
Definition reset_char (char : ascii) : py state unit :=
  d ← gets char_pos_counts; modify (set_char_pos_counts (<[char := ∅]> d));;
  d ← gets char_in_counts; modify (set_char_in_counts (<[char := 0]> d));;
  d ← gets char_notin_counts;
  modify (set_char_notin_counts (<[char := 0]> d));;
  len ← gets _len;
  for_ (seq 0 len) (λ pos,
    d ← gets char_pos_counts;
    inner ← lift (getitem d char);
    modify (set_char_pos_counts (<[char := <[pos := 0]> inner]> d))).

(** The three loops of the body of its second loop. *)
Definition count_in (charset : gset ascii) : py state unit :=
  for_ (elements charset) (λ char,
    d ← gets char_in_counts;
    d' ← lift (iadd d char 1);
    modify (set_char_in_counts d')).

Definition count_notin (charset : gset ascii) : py state unit :=
  cs ← gets chars;
  for_ (elements (cs ∖ charset)) (λ char,
    d ← gets char_notin_counts;
    d' ← lift (iadd d char 1);
    modify (set_char_notin_counts d')).

Definition count_pos (word : str) : py state unit :=
  for_ (enumerate word) (λ it : nat * ascii,
    let '(pos, char) := it in
    d ← gets char_pos_counts;
    inner ← lift (getitem d char);
    inner' ← lift (iadd inner pos 1);
    modify (set_char_pos_counts (<[char := inner']> d))).

Definition count_word (word : str) : py state unit :=
  let charset : gset ascii := list_to_set word in
  count_in charset;;
  count_notin charset;;
  count_pos word.

Definition update_counts : py state unit :=
  modify (set_char_pos_counts ∅);;
  modify (set_char_in_counts ∅);;
  modify (set_char_notin_counts ∅);;
  cs ← gets chars;
  for_ (elements cs) reset_char;;
  ws ← gets answer_words;
  for_ (elements ws) count_word.

(** The body of the loop of [add_char_hint]: [Ok false] where the code
    reaches a [continue], [Ok true] where it reaches [words.add(word)]. *)
Definition char_hint_keeps (char label : ascii) (pos : nat) (word : str)
  : result bool :=
  let charinword := bool_decide (char ∈ word) in
  if bool_decide (label = "0"%char) && charinword then Ok false
  else
    skip ← (if bool_decide (label = "1"%char) then
              if negb charinword then Ok true
              else c ← index word pos; Ok (bool_decide (c = char))
            else Ok false);
    if (skip : bool) then Ok false
    else
      skip ← (if bool_decide (label = "2"%char) then
                if negb charinword then Ok true
                else c ← index word pos; Ok (bool_decide (c ≠ char))
              else Ok false);
      Ok (negb skip).

Definition add_char_hint (char label : ascii) (pos : nat) : py state unit :=
  ws ← gets answer_words;
  words ← foldM (M := py state) (λ (words : gset str) word,
             keep ← lift (char_hint_keeps char label pos word);
             mret (if (keep : bool) then {[word]} ∪ words else words))
           ∅ (elements ws);
  modify (set_answer_words words);;
  modify (set_num_answer_words (Z.of_nat (size words)));;
  update_chars;;
  update_counts.

Definition add_word_hint (word label : str) : py state unit :=
  for_ label (λ char,
    py_assert (bool_decide (char ∈ ["0"; "1"; "2"]%char))
              "label should consist of 0, 1 and 2 only");;
  py_assert (bool_decide (length word = length label))
            "label and word should have equal length";;
  for_ (enumerate (zip word label)) (λ it : nat * (ascii * ascii),
    let '(pos, (char, label)) := it in add_char_hint char label pos).

(** [__init__], with the two word sets the loader read. *)
Definition init (len : nat) (allowed answers : gset str)
  : state * result unit :=
  (update_chars;; update_counts)
    (mkState len allowed answers (Z.of_nat (size allowed))
             (Z.of_nat (size answers)) ∅ ∅ ∅ ∅).

(** *** The heuristic score *)
Definition get_char_info (s : state) (char : ascii) : result R :=
  if decide (char ∉ chars s) then Ok 0%R
  else
    a ← getitem (char_in_counts s) char;
    b ← getitem (char_notin_counts s) char;
    Ok (get_information [a; b]).

Definition get_char_pos_info_approx (s : state) (char : ascii) (pos : nat)
  : result R :=
  if decide (char ∉ chars s) then Ok 0%R
  else
    d ← getitem (char_pos_counts s) char;
    p ← getitem d pos;
    i ← getitem (char_in_counts s) char;
    n ← getitem (char_notin_counts s) char;
    Ok (get_information [p; i - p; n]).

(** The body of the loop of [get_word_info_approx], on its local
    variables [info] and [wordchars]. *)
Definition word_info_step (s : state) (acc : R * gset ascii)
    (it : nat * ascii) : result (R * gset ascii) :=
  let '(info, wordchars) := acc in
  let '(pos, char) := it in
  x ← get_char_pos_info_approx s char pos;
  let info := (info + x)%R in
  if decide (char ∈ wordchars) then
    y ← get_char_info s char; Ok ((info - y)%R, wordchars)
  else Ok (info, {[char]} ∪ wordchars).

Definition get_word_info_approx (s : state) (word : str) : result R :=
  r ← foldM (M := result) (word_info_step s) (0%R, ∅) (enumerate word);
  Ok r.1.

Definition predict (argsort : list R → list nat) (s : state) (K : Z)
    (can_ignore_hints : bool) : result (list (str * R)) :=
  let words :=
    elements (if can_ignore_hints then allowed_words s else answer_words s)
  in
  scores ← mapM (get_word_info_approx s) words;
  print_results words scores (slice_to K (reversed (argsort scores))).

End Heur.

(** ** Specification-level functions

    What the two loops of [get_label] compute, by structural recursion on
    the guess, and the quantities the properties count. *)

Definition mark_exact (t c : ascii) : ascii :=
  if decide (t = c) then "2"%char else "0"%char.

(** The labels and the counts left by the first loop. *)
Definition exact_marks (w a : str) : list ascii := zip_with mark_exact a w.

Fixpoint exact_counts (w a : str) (cc : gmap ascii Z) : gmap ascii Z :=
  match w, a with
  | c :: w', t :: a' =>
      exact_counts w' a'
        (if decide (t = c) then <[c := get0 cc c - 1]> cc else cc)
  | _, _ => cc
  end.

(** The labels left by the second loop, started on the labels [xs]. *)
Fixpoint present_marks (w : str) (xs : list ascii) (cc : gmap ascii Z)
  : list ascii :=
  match w, xs with
  | c :: w', x :: xs' =>
      if bool_decide (x ≠ "2"%char) && bool_decide (0 < get0 cc c)
      then "1"%char :: present_marks w' xs' (<[c := get0 cc c - 1]> cc)
      else x :: present_marks w' xs' cc
  | _, _ => []
  end.

(** Number of occurrences of [c] in the list [w]. *)
Definition occurrences `{EqDecision A} (c : A) (w : list A) : Z :=
  Z.of_nat (length (filter (λ x, x = c) w)).

(** The sum of a list of integers, without wrap-around. *)
Definition sumZ (l : list Z) : Z := foldr Z.add 0 l.

(** Number of positions of the guess [w] that hold the letter [c] and
    are labelled PRESENT or CORRECT in [label]. *)
Definition marked (c : ascii) (w label : str) : Z :=
  Z.of_nat (length (filter
    (λ p : ascii * ascii, p.1 = c ∧ (p.2 = "1"%char ∨ p.2 = "2"%char))
    (zip w label))).

(** Number of positions of [w] that hold [c] and are labelled CORRECT. *)
Definition marked_exact (c : ascii) (w label : str) : Z :=
  Z.of_nat (length (filter
    (λ p : ascii * ascii, p.1 = c ∧ p.2 = "2"%char) (zip w label))).

(** A word is consistent with the recorded hints when the encoder gives,
    for each hinted guess against it, the hinted label. *)
Definition consistent (hints : list (str * str)) (w : str) : Prop :=
  Forall (λ h : str * str, Exact.get_label h.1 w = Ok h.2) hints.

Global Instance consistent_dec hints w : Decision (consistent hints w).
Proof. unfold consistent. apply _. Defined.

(** A session: the calls [add_word_hint(word, label)] for the hints of
    [hs] in turn; an exception ends it. *)
Definition exact_session (hs : list (str * str)) : py Exact.state unit :=
  for_ hs (λ h, Exact.add_word_hint h.1 h.2).

Definition heur_session (hs : list (str * str)) : py Heur.state unit :=
  for_ hs (λ h, Heur.add_word_hint h.1 h.2).

(** What one pass of the pruning loop leaves of a pool entry [it]. *)
Definition pruned_entry (hs : list (str * str))
    (it it' : string * (list str * list str)) : Prop :=
  it'.1 = it.1 ∧ it'.2.1 = it.2.1 ∧ Exact.prune_list hs it.2.2 = Ok it'.2.2.

Definition kept_entry (hs : list (str * str))
    (it it' : string * (list str * list str)) : Prop :=
  it' = it ∨ pruned_entry hs it it'.

(** The original copy of every pool, and the invariant of a session: the
    pruned copy of every pool is its original copy filtered by all the
    recorded hints. *)
Definition originals (s : Exact.state) : list (string * list str) :=
  (λ it : string * (list str * list str), (it.1, it.2.1)) <$> Exact.words s.

Definition exact_inv (s : Exact.state) : Prop :=
  Forall (λ it : string * (list str * list str),
            it.2.2 = filter (consistent (Exact.hints s)) it.2.1)
         (Exact.words s).

(** A session before any hint, as [read_initial_words] means to leave
    it: no hint is recorded and the pruned copy of every pool is its
    original copy. *)
Definition exact_fresh (s : Exact.state) : Prop :=
  Exact.hints s = [] ∧
  Forall (λ it : string * (list str * list str), it.2.2 = it.2.1)
         (Exact.words s).

Global Instance exact_fresh_dec s : Decision (exact_fresh s).
Proof. unfold exact_fresh. apply _. Defined.

(** Every hinted guess is at most [n] long and every pruned word is
    exactly [n] long: the encoder is then never asked for [target[pos]]
    out of range. *)
Definition exact_sized (n : nat) (s : Exact.state) : Prop :=
  Forall (λ h : str * str, (length h.1 ≤ n)%nat) (Exact.hints s) ∧
  Forall (λ it : string * (list str * list str),
            Forall (λ w, length w = n) it.2.2) (Exact.words s).

(** A computation leaves the part [f] of the state as it found it,
    whether it returns or raises. *)
Definition preserves {S A B} (f : S → B) (m : py S A) : Prop :=
  ∀ s, f (m s).1 = f s.

(** The rule a single character of a hint imposes on a candidate word in
    [wordle.py]: '0' the letter occurs nowhere, '1' it occurs but not at
    this position, '2' it is at this position. *)
Definition char_rule (char label : ascii) (pos : nat) (w : str) : Prop :=
  (label = "0"%char → char ∉ w) ∧
  (label = "1"%char →
     char ∈ w ∧ (pos < length w)%nat ∧ w !! pos ≠ Some char) ∧
  (label = "2"%char → w !! pos = Some char).

Global Instance char_rule_dec char label pos w :
  Decision (char_rule char label pos w).
Proof. unfold char_rule. apply _. Defined.

(** The rules of the characters [its] of a hint, and of a list of hints. *)
Definition chars_rule (its : list (nat * (ascii * ascii))) (w : str) : Prop :=
  Forall (λ it : nat * (ascii * ascii), char_rule it.2.1 it.2.2 it.1 w) its.

Definition heur_consistent (hints : list (str * str)) (w : str) : Prop :=
  Forall (λ h : str * str, chars_rule (enumerate (zip h.1 h.2)) w) hints.

Global Instance chars_rule_dec its w : Decision (chars_rule its w).
Proof. unfold chars_rule. apply _. Defined.
Global Instance heur_consistent_dec hints w :
  Decision (heur_consistent hints w).
Proof. unfold heur_consistent. apply _. Defined.

(** A label passes the two assertions of [wordle.py]. *)
Definition valid_hint (word label : str) : Prop :=
  Forall (λ c, c ∈ ["0"; "1"; "2"]%char) label ∧ length word = length label.

Global Instance valid_hint_dec word label : Decision (valid_hint word label).
Proof. unfold valid_hint. apply _. Defined.

(** The loop of [add_char_hint] as a computation on its local variable
    [words] alone. *)
Definition keep_loop (char label : ascii) (pos : nat)
    (acc : gset str) (todo : list str) : result (gset str) :=
  foldM (M := result) (λ (words : gset str) word,
    keep ← Heur.char_hint_keeps char label pos word;
    Ok (if (keep : bool) then {[word]} ∪ words else words)) acc todo.

(** The loop of [wordle.py]'s [add_word_hint] over the characters. *)
Definition char_hints (its : list (nat * (ascii * ascii)))
  : py Heur.state unit :=
  for_ its (λ it : nat * (ascii * ascii),
    let '(pos, (char, label)) := it in Heur.add_char_hint char label pos).

(** The letters of a set of words: what [update_chars] collects. *)
Definition letters (ws : gset str) : gset ascii :=
  foldl (λ cs (w : str), cs ∪ list_to_set w) ∅ (elements ws).

(** The statistics read with a default, for the keys that are missing. *)
Definition in_of (s : Heur.state) (c : ascii) : Z :=
  get0 (Heur.char_in_counts s) c.
Definition notin_of (s : Heur.state) (c : ascii) : Z :=
  get0 (Heur.char_notin_counts s) c.
Definition look2 (d : gmap ascii (gmap nat Z)) (c : ascii) (p : nat)
  : option Z :=
  d !! c ≫= λ inner, inner !! p.
Definition pos_of (s : Heur.state) (c : ascii) (p : nat) : Z :=
  default 0 (look2 (Heur.char_pos_counts s) c p).

(** The bodies of the loops of [update_counts] on the dict they update. *)
Definition zero_pos (char : ascii) (d : gmap ascii (gmap nat Z)) (pos : nat)
  : result (gmap ascii (gmap nat Z)) :=
  inner ← getitem d char; Ok (<[char := <[pos := 0]> inner]> d).

Definition incr_pos (d : gmap ascii (gmap nat Z)) (it : nat * ascii)
  : result (gmap ascii (gmap nat Z)) :=
  inner ← getitem d it.2;
  inner' ← iadd inner it.1 1;
  Ok (<[it.2 := inner']> d).

Definition zeros (l : list nat) (inner : gmap nat Z) : gmap nat Z :=
  foldl (λ d p, <[p := 0]> d) inner l.


(** What the body of the first loop of [update_counts] leaves. *)
Definition reset_state (c : ascii) (s : Heur.state) : Heur.state :=
  Heur.set_char_pos_counts
    (<[c := zeros (seq 0 (Heur._len s)) ∅]> (Heur.char_pos_counts s))
    (Heur.set_char_notin_counts (<[c := 0]> (Heur.char_notin_counts s))
       (Heur.set_char_in_counts (<[c := 0]> (Heur.char_in_counts s)) s)).

(** The statistics hold an entry for the letter [c] at every position
    below [_len]; [counts_keys]: they do for every letter of [chars]. *)
Definition keyed (c : ascii) (s : Heur.state) : Prop :=
  is_Some (Heur.char_in_counts s !! c) ∧
  is_Some (Heur.char_notin_counts s !! c) ∧
  ∀ p, (p < Heur._len s)%nat → is_Some (look2 (Heur.char_pos_counts s) c p).

Definition counts_keys (s : Heur.state) : Prop :=
  ∀ c, c ∈ Heur.chars s → keyed c s.

Definition all_zero (s : Heur.state) : Prop :=
  ∀ c, in_of s c = 0 ∧ notin_of s c = 0 ∧ ∀ p, pos_of s c p = 0.

(** A letter is counted at a position no more often than it is counted
    in the words, all counts being natural numbers. *)
Definition counts_vals (s : Heur.state) : Prop :=
  ∀ c, 0 ≤ notin_of s c ∧ ∀ p, 0 ≤ pos_of s c p ≤ in_of s c.

(** The words of the session fit its length, and [chars] holds their
    letters. *)
Definition heur_sized (s : Heur.state) : Prop :=
  ∀ w, w ∈ Heur.answer_words s → length w = Heur._len s.

Definition heur_stats (s : Heur.state) : Prop :=
  Heur.chars s = letters (Heur.answer_words s) ∧
  counts_keys s ∧ counts_vals s.

(** ** Fixtures *)

Definition pool_allowed : list str :=
  [str_of "rally"; str_of "allay"; str_of "hello"].
Definition pool_answers : list str := [str_of "rally"; str_of "hello"].

(** A session of length 5 before any hint, with the two pools of the
    script. *)
Definition exact_fixture : Exact.state :=
  Exact.mkState 5 []
    [("allowed", (pool_allowed, pool_allowed));
     ("answers", (pool_answers, pool_answers))].

Definition heur_fixture : Heur.state :=
  (Heur.init 5 (list_to_set pool_allowed) (list_to_set pool_answers)).1.

(** The indices [order] visit the scores in an order related by [R]. *)
Definition sorted_idx {A} (R : relation A) (scores : list A)
    (order : list nat) : Prop :=
  ∀ i j a b x y, (i < j)%nat →
    order !! i = Some a → order !! j = Some b →
    scores !! a = Some x → scores !! b = Some y → R x y.

(** A ranking of the pool [words] with [scores], best first for [R]:
    [out] lists the words and scores at the first [k] indices of an
    ordering of the whole pool by [R]. *)
Definition ranking {A} (R : relation A) (words : list str) (scores : list A)
    (k : nat) (out : list (str * A)) : Prop :=
  length out = (k `min` length words)%nat ∧
  (∀ i j x y, (i < j)%nat → out !! i = Some x → out !! j = Some y →
              R x.2 y.2) ∧
  ∃ order,
    order ≡ₚ seq 0 (length words) ∧
    Forall2 (λ i (o : str * A), words !! i = Some o.1 ∧ scores !! i = Some o.2)
            (take k order) out ∧
    ∀ i sc o, i ∈ drop k order → scores !! i = Some sc → o ∈ out → R o.2 sc.

(** The sum [Σ p·ln p] of [get_information], for the counts [ec] and their
    total. *)
Definition info_terms (total : R) (ec : list R) : R :=
  sumR ((λ x, x * ln x)%R <$> ((λ x, x / total)%R <$> ec)).

(** Equal scores come out in the order of the pool. *)
Definition ties_in_pool_order {A} (words : list str) (out : list (str * A))
  : Prop :=
  ∀ i j x y a b, (i < j)%nat →
    out !! i = Some x → out !! j = Some y → x.2 = y.2 →
    words !! a = Some x.1 → words !! b = Some y.1 → (a < b)%nat.

(** A heuristic session in which two allowed words tie: neither shares a
    letter with the only candidate. *)
Definition tie_fixture : Heur.state :=
  (Heur.init 2 {[str_of "cd"; str_of "ef"]} {[str_of "ab"]}).1.

(** Indexed scores compared by score alone. *)
Definition by_score {A} (le : relation A) : relation (nat * A) :=
  λ x y, le x.2 y.2.

(** Number of positions of [w] that hold [c] and are labelled ABSENT. *)
Definition unmarked (c : ascii) (w label : str) : Z :=
  Z.of_nat (length (filter
    (λ p : ascii * ascii, p.1 = c ∧ p.2 = "0"%char) (zip w label))).

(** The label of the guess [w] against the target [a], where the
    encoder returns. *)
Definition encoded (w a : str) : str :=
  present_marks w (exact_marks w a) (exact_counts w a (Counter a)).

(** Number of words of the set [ws] with the property [P]. *)
Definition tally (P : str → Prop) `{!∀ w, Decision (P w)} (ws : gset str)
  : Z :=
  Z.of_nat (size (filter P ws)).

(** The statistics are those of the candidate set: [chars] holds the
    letters of the candidates, the three dicts have an entry for each of
    them and for no other letter, and the entries count the candidates
    that hold the letter, that do not, and that hold it at a position. *)
Definition stats_exact (s : Heur.state) : Prop :=
  Heur.num_answer_words s = Z.of_nat (size (Heur.answer_words s)) ∧
  (∀ c, c ∈ Heur.chars s ↔ ∃ w, w ∈ Heur.answer_words s ∧ c ∈ w) ∧
  ∀ c,
    Heur.char_in_counts s !! c
    = (if decide (c ∈ Heur.chars s)
       then Some (tally (λ w, c ∈ w) (Heur.answer_words s)) else None) ∧
    Heur.char_notin_counts s !! c
    = (if decide (c ∈ Heur.chars s)
       then Some (tally (λ w, c ∉ w) (Heur.answer_words s)) else None) ∧
    ∀ p, look2 (Heur.char_pos_counts s) c p
         = if decide (c ∈ Heur.chars s ∧ (p < Heur._len s)%nat)
           then Some (tally (λ w, w !! p = Some c) (Heur.answer_words s))
           else None.

(** The state with its three dicts of counts replaced. *)
Definition with_counts (d1 d2 : gmap ascii Z) (d3 : gmap ascii (gmap nat Z))
    (s : Heur.state) : Heur.state :=
  Heur.set_char_pos_counts d3
    (Heur.set_char_notin_counts d2 (Heur.set_char_in_counts d1 s)).

(** * Properties *)

(** ** Runtime lemmas *)

Lemma get0_insert_eq `{Countable K} (d : gmap K Z) k v :
  get0 (<[k := v]> d) k = v.
Proof. unfold get0. by rewrite lookup_insert_eq. Qed.

Lemma get0_insert_ne `{Countable K} (d : gmap K Z) k k' v :
  k ≠ k' → get0 (<[k := v]> d) k' = get0 d k'.
Proof. intros. unfold get0. by rewrite lookup_insert_ne. Qed.

Lemma get0_pos_lookup `{Countable K} (d : gmap K Z) k :
  0 < get0 d k → d !! k = Some (get0 d k).
Proof. unfold get0. destruct (d !! k); simpl; [done | lia]. Qed.

Lemma iadd_Some `{Countable K} (d : gmap K Z) k v n :
  d !! k = Some v → iadd d k n = Ok (<[k := v + n]> d).
Proof. intros Hk. unfold iadd, getitem. by rewrite Hk. Qed.

Lemma index_app_middle {A} (l1 l2 : list A) x :
  index (l1 ++ x :: l2) (length l1) = Ok x.
Proof. unfold index. by rewrite list_lookup_middle. Qed.

Lemma filter_Forall_id {A} (P : A → Prop) `{!∀ x, Decision (P x)} l :
  Forall P l → filter P l = l.
Proof.
  induction 1 as [|x l Hx _ IH]; [done|]. by rewrite filter_cons_True, IH.
Qed.

Lemma Forall_filter_keep {A} (P Q : A → Prop) `{!∀ x, Decision (P x)} l :
  Forall Q l → Forall Q (filter P l).
Proof.
  rewrite !Forall_forall. intros HQ x [_ Hx]%list_elem_of_filter.
  by apply HQ.
Qed.

Lemma Counter_foldl_get0 `{Countable K} (l : list K) (d : gmap K Z) c :
  get0 (foldl (λ d x, <[x := get0 d x + 1]> d) d l) c
  = get0 d c + occurrences c l.
Proof.
  unfold occurrences. revert d.
  induction l as [|x l IH]; intros d; [simpl; lia|].
  cbn [foldl]. rewrite IH, filter_cons.
  destruct (decide (x = c)) as [->|Hne].
  - rewrite get0_insert_eq. cbn [length]. lia.
  - rewrite get0_insert_ne by done. lia.
Qed.

Lemma Counter_get0 `{Countable K} (l : list K) c :
  get0 (Counter l) c = occurrences c l.
Proof. unfold Counter. rewrite Counter_foldl_get0. unfold get0. by rewrite lookup_empty. Qed.

Lemma Counter_foldl_keys (l : list ascii) (d : gmap ascii Z) c :
  c ∈ l ∨ is_Some (d !! c) →
  is_Some (foldl (λ d x, <[x := get0 d x + 1]> d) d l !! c).
Proof.
  revert d. induction l as [|x l IH]; intros d [Hin|Hd]; simpl.
  - by apply elem_of_nil in Hin.
  - done.
  - apply IH. apply elem_of_cons in Hin as [->|Hin]; [right|by left].
    rewrite lookup_insert_eq. eauto.
  - apply IH. right. rewrite lookup_insert. case_decide; eauto.
Qed.

Lemma Counter_keys (l : list ascii) c : c ∈ l → is_Some (Counter l !! c).
Proof. intros. apply Counter_foldl_keys. by left. Qed.

(** ** The feedback encoder *)

Lemma get_label_exact_run (rest a tp ap : str) (cc : gmap ascii Z) :
  length tp = length ap →
  (length rest ≤ length a)%nat →
  (∀ c, c ∈ a → is_Some (cc !! c)) →
  Exact.get_label_exact (tp ++ a) (length tp) rest
    (ap ++ replicate (length rest) "0"%char) cc
  = Ok (ap ++ exact_marks rest a, exact_counts rest a cc).
Proof.
  revert a tp ap cc.
  induction rest as [|c rest IH]; intros a tp ap cc Hlen Hle Hkeys.
  { simpl. unfold exact_marks. destruct a; simpl; by rewrite ?app_nil_r. }
  destruct a as [|t a]; [simpl in Hle; lia|].
  cbn [Exact.get_label_exact]. rewrite index_app_middle.
  cbn [mbind result_bind length replicate exact_counts].
  unfold exact_marks. cbn [zip_with]. fold (exact_marks rest a).
  unfold mark_exact.
  assert (Hmid : ∀ x : ascii, (tp ++ [x]) ++ a = tp ++ x :: a)
    by (intros; by rewrite <- app_assoc).
  assert (Hap : ∀ x y : ascii, ∀ l,
    <[length tp := x]> (ap ++ y :: l) = (ap ++ [x]) ++ l).
  { intros. rewrite Hlen, <- app_assoc.
    rewrite insert_app_r_alt by lia. by rewrite Nat.sub_diag. }
  assert (HS : S (length tp) = length (tp ++ [t]))
    by (rewrite length_app; simpl; lia).
  simpl in Hle.
  destruct (decide (t = c)) as [->|Hne].
  - destruct (Hkeys c) as [v Hv]; [by left|].
    rewrite (iadd_Some _ _ _ _ Hv). cbn [mbind result_bind].
    rewrite Hap, <- (Hmid c), HS.
    rewrite IH.
    + rewrite <- app_assoc. simpl. unfold get0. rewrite Hv. simpl.
      by replace (v + -1) with (v - 1) by lia.
    + rewrite !length_app. simpl. lia.
    + lia.
    + intros c' Hc'. rewrite lookup_insert. case_decide; [eauto|].
      apply Hkeys. by right.
  - replace (ap ++ "0"%char :: replicate (length rest) "0"%char)
      with ((ap ++ ["0"%char]) ++ replicate (length rest) "0"%char)
      by (by rewrite <- app_assoc).
    rewrite <- (Hmid t), HS.
    rewrite IH.
    + by rewrite <- app_assoc.
    + rewrite !length_app. simpl. lia.
    + lia.
    + intros c' Hc'. apply Hkeys. by right.
Qed.

Lemma get_label_present_run (rest xs ap : str) (cc : gmap ascii Z) :
  length xs = length rest →
  ∃ cc', Exact.get_label_present (length ap) rest (ap ++ xs) cc
         = Ok (ap ++ present_marks rest xs cc, cc').
Proof.
  revert xs ap cc.
  induction rest as [|c rest IH]; intros xs ap cc Hlen.
  { destruct xs; [|done]. simpl. eauto. }
  destruct xs as [|x xs]; [done|]. simpl in Hlen.
  cbn [Exact.get_label_present present_marks].
  rewrite index_app_middle. cbn [mbind result_bind].
  assert (HS : S (length ap) = length (ap ++ [x]))
    by (rewrite length_app; simpl; lia).
  destruct (bool_decide (x ≠ "2"%char) && bool_decide (0 < get0 cc c)) eqn:Hc.
  - apply andb_true_iff in Hc as [_ Hpos%bool_decide_eq_true].
    rewrite (iadd_Some _ _ _ _ (get0_pos_lookup _ _ Hpos)).
    cbn [mbind result_bind].
    replace (<[length ap := "1"%char]> (ap ++ x :: xs))
      with ((ap ++ ["1"%char]) ++ xs).
    2:{ rewrite insert_app_r_alt by lia. rewrite Nat.sub_diag.
        by rewrite <- app_assoc. }
    replace (S (length ap)) with (length (ap ++ ["1"%char]))
      by (rewrite length_app; simpl; lia).
    destruct (IH xs (ap ++ ["1"%char]) (<[c := get0 cc c + -1]> cc))
      as [cc' Hcc']; [lia|].
    exists cc'. rewrite Hcc'. rewrite <- app_assoc. simpl.
    by replace (get0 cc c + -1) with (get0 cc c - 1) by lia.
  - replace (ap ++ x :: xs) with ((ap ++ [x]) ++ xs)
      by (by rewrite <- app_assoc).
    rewrite HS.
    destruct (IH xs (ap ++ [x]) cc) as [cc' Hcc']; [lia|].
    exists cc'. rewrite Hcc'. by rewrite <- app_assoc.
Qed.

Lemma exact_marks_length (w a : str) :
  (length w ≤ length a)%nat → length (exact_marks w a) = length w.
Proof. intros. unfold exact_marks. rewrite length_zip_with. lia. Qed.

(** [get_label] returns whenever the guess is no longer than the target,
    and then it returns what the two specification functions compute. *)
Lemma get_label_run (w a : str) :
  (length w ≤ length a)%nat →
  Exact.get_label w a
  = Ok (present_marks w (exact_marks w a) (exact_counts w a (Counter a))).
Proof.
  intros Hle. unfold Exact.get_label.
  pose proof (get_label_exact_run w a [] [] (Counter a) eq_refl Hle
                (Counter_keys a)) as H1.
  simpl in H1. rewrite H1. cbn [mbind result_bind].
  destruct (get_label_present_run w (exact_marks w a) []
              (exact_counts w a (Counter a))) as [cc' H2].
  { by apply exact_marks_length. }
  simpl in H2. rewrite H2. done.
Qed.

Lemma present_marks_length (w xs : str) cc :
  length xs = length w → length (present_marks w xs cc) = length w.
Proof.
  revert xs cc. induction w as [|c w IH]; intros [|x xs] cc Hlen; try done.
  simpl in *. case_match; simpl; rewrite IH; lia.
Qed.

(** The second loop neither adds nor removes a CORRECT label. *)
Lemma present_marks_correct (w xs : str) cc i :
  length xs = length w →
  present_marks w xs cc !! i = Some "2"%char ↔ xs !! i = Some "2"%char.
Proof.
  revert xs cc i.
  induction w as [|c w IH]; intros [|x xs] cc i Hlen; try done.
  simpl in Hlen. cbn [present_marks].
  destruct (bool_decide (x ≠ "2"%char) && bool_decide (0 < get0 cc c)) eqn:Hc.
  - apply andb_true_iff in Hc as [Hx%bool_decide_eq_true _].
    destruct i as [|i]; simpl.
    + split; intros [=]; congruence.
    + apply IH. lia.
  - destruct i as [|i]; simpl; [done|]. apply IH. lia.
Qed.

Lemma exact_marks_correct (w a : str) i :
  exact_marks w a !! i = Some "2"%char ↔
  ∃ c, w !! i = Some c ∧ a !! i = Some c.
Proof.
  unfold exact_marks. rewrite lookup_zip_with_Some. unfold mark_exact. split.
  - intros (t & c & Hm & Ht & Hc). case_decide; [|done]. subst. eauto.
  - intros (c & Hw & Ha). exists c, c. by rewrite decide_True.
Qed.

Lemma exact_marks_values (w a : str) :
  Forall (λ x, x = "0"%char ∨ x = "2"%char) (exact_marks w a).
Proof.
  unfold exact_marks. revert a. induction w as [|c w IH]; intros [|t a];
    simpl; try by constructor.
  constructor; [|apply IH]. unfold mark_exact. case_decide; eauto.
Qed.

Lemma marked_exact_cons c d x (w xs : str) :
  marked_exact c (d :: w) (x :: xs)
  = (if decide (d = c ∧ x = "2"%char) then 1 else 0) + marked_exact c w xs.
Proof.
  unfold marked_exact. cbn [zip zip_with]. rewrite filter_cons. simpl.
  case_decide; cbn [length]; lia.
Qed.

Lemma marked_cons c d x (w xs : str) :
  marked c (d :: w) (x :: xs)
  = (if decide (d = c ∧ (x = "1"%char ∨ x = "2"%char)) then 1 else 0)
    + marked c w xs.
Proof.
  unfold marked. cbn [zip zip_with]. rewrite filter_cons. simpl.
  case_decide; cbn [length]; lia.
Qed.

Lemma occurrences_cons c d (w : str) :
  occurrences c (d :: w) = (if decide (d = c) then 1 else 0) + occurrences c w.
Proof.
  unfold occurrences. rewrite filter_cons. case_decide; cbn [length]; lia.
Qed.

Lemma marked_exact_nonneg c (w xs : str) : 0 ≤ marked_exact c w xs.
Proof. unfold marked_exact. lia. Qed.

Lemma occurrences_nonneg c (w : str) : 0 ≤ occurrences c w.
Proof. unfold occurrences. lia. Qed.

(** The first loop takes one unit off the count of a letter for each of
    its CORRECT positions ... *)
Lemma exact_counts_get0 (w a : str) cc c :
  get0 (exact_counts w a cc) c
  = get0 cc c - marked_exact c w (exact_marks w a).
Proof.
  revert a cc. induction w as [|d w IH]; intros [|t a] cc;
    try (simpl; unfold marked_exact; simpl; lia).
  cbn [exact_counts]. unfold exact_marks. cbn [zip_with].
  fold (exact_marks w a). rewrite marked_exact_cons, IH. unfold mark_exact.
  destruct (decide (t = d)) as [->|Hne].
  - destruct (decide (d = c)) as [->|Hne'].
    + rewrite get0_insert_eq, decide_True by done. lia.
    + rewrite get0_insert_ne by done.
      rewrite decide_False by (intros [? _]; done). lia.
  - rewrite decide_False by (intros [_ ?]; done). lia.
Qed.

(** ... and these are no more than the letter's occurrences in the
    target, so no count goes below zero. *)
Lemma marked_exact_le_occurrences (w a : str) c :
  marked_exact c w (exact_marks w a) ≤ occurrences c a.
Proof.
  revert a. induction w as [|d w IH]; intros [|t a];
    try (unfold marked_exact, occurrences; simpl; lia).
  unfold exact_marks. cbn [zip_with]. fold (exact_marks w a).
  rewrite marked_exact_cons, occurrences_cons. specialize (IH a).
  unfold mark_exact. destruct (decide (t = d)) as [->|Hne].
  - destruct (decide (d = c)) as [->|Hne'].
    + rewrite decide_True by done. lia.
    + rewrite decide_False by (intros [? _]; done). lia.
  - rewrite decide_False by (intros [_ ?]; done).
    destruct (decide (t = c)); lia.
Qed.

(** The second loop labels a letter PRESENT at most as many times as its
    count allows. *)
Lemma present_marks_bound (w xs : str) cc c :
  length xs = length w →
  Forall (λ x, x = "0"%char ∨ x = "2"%char) xs →
  marked c w (present_marks w xs cc)
  ≤ marked_exact c w xs + Z.max 0 (get0 cc c).
Proof.
  revert xs cc.
  induction w as [|d w IH]; intros [|x xs] cc Hlen Hxs;
    try (simpl in Hlen; lia).
  { unfold marked, marked_exact. simpl. lia. }
  simpl in Hlen. apply Forall_cons in Hxs as [Hx Hxs].
  cbn [present_marks]. rewrite marked_exact_cons.
  destruct (bool_decide (x ≠ "2"%char) && bool_decide (0 < get0 cc d)) eqn:Hc.
  - apply andb_true_iff in Hc
      as [Hx2%bool_decide_eq_true Hpos%bool_decide_eq_true].
    rewrite marked_cons.
    specialize (IH xs (<[d := get0 cc d - 1]> cc) ltac:(lia) Hxs).
    rewrite (decide_False (P := d = c ∧ x = "2"%char)) by (intros [_ ?]; done).
    destruct (decide (d = c)) as [->|Hne].
    + rewrite get0_insert_eq in IH. rewrite decide_True by eauto. lia.
    + rewrite get0_insert_ne in IH by done.
      rewrite decide_False by (intros [? _]; done). lia.
  - rewrite marked_cons. specialize (IH xs cc ltac:(lia) Hxs).
    destruct Hx as [->| ->].
    + rewrite decide_False by (intros [_ [?|?]]; done).
      rewrite decide_False by (intros [_ ?]; done). lia.
    + destruct (decide (d = c)) as [->|Hne].
      * rewrite !decide_True by eauto. lia.
      * rewrite !decide_False by (intros [? _]; done). lia.
Qed.

(** C2. For a guess [w] and a target [a] of equal length, [get_label]
    returns a label of that length which is CORRECT ('2') at position [i]
    exactly when [w[i] = a[i]], and in which, for every letter [c], the
    positions of [w] holding [c] that are labelled CORRECT or PRESENT are
    no more than the occurrences of [c] in [a]. *)
Theorem get_label_correct_and_bounded (w a : str) :
  length w = length a →
  ∃ label,
    Exact.get_label w a = Ok label ∧
    length label = length w ∧
    (∀ i, (i < length w)%nat →
          label !! i = Some "2"%char ↔ w !! i = a !! i) ∧
    (∀ c, marked c w label ≤ occurrences c a).
Proof.
  intros Hlen. eexists. split; [apply get_label_run; lia|].
  assert (Hm : length (exact_marks w a) = length w)
    by (apply exact_marks_length; lia).
  split; [by apply present_marks_length|]. split.
  - intros i Hi. rewrite present_marks_correct by done.
    rewrite exact_marks_correct.
    destruct (lookup_lt_is_Some_2 w i Hi) as [c Hc].
    destruct (lookup_lt_is_Some_2 a i ltac:(lia)) as [t Ht].
    rewrite Hc, Ht. split.
    + intros (c' & [= <-] & [= <-]). done.
    + intros [= <-]. eauto.
  - intros c.
    pose proof (present_marks_bound w (exact_marks w a)
                  (exact_counts w a (Counter a)) c Hm
                  (exact_marks_values w a)) as Hb.
    rewrite exact_counts_get0, Counter_get0 in Hb.
    pose proof (marked_exact_le_occurrences w a c). lia.
Qed.

Lemma get_label_correct_and_bounded_witness :
  ∃ label,
    Exact.get_label (str_of "allay") (str_of "rally") = Ok label ∧
    length label = length (str_of "allay") ∧
    (∀ i, (i < length (str_of "allay"))%nat →
          label !! i = Some "2"%char ↔
          str_of "allay" !! i = str_of "rally" !! i) ∧
    (∀ c, marked c (str_of "allay") label ≤ occurrences c (str_of "rally")).
Proof.
  apply (get_label_correct_and_bounded (str_of "allay") (str_of "rally")).
  reflexivity.
Defined.

Lemma present_marks_all_correct (w : str) cc :
  present_marks w (replicate (length w) "2"%char) cc
  = replicate (length w) "2"%char.
Proof.
  revert cc. induction w as [|c w IH]; intros cc; [done|].
  simpl. by rewrite IH.
Qed.

Lemma exact_marks_diag (w : str) :
  exact_marks w w = replicate (length w) "2"%char.
Proof.
  unfold exact_marks. induction w as [|c w IH]; [done|].
  simpl. unfold mark_exact at 1. by rewrite decide_True, IH.
Qed.

(** C3. A word guessed against itself is labelled CORRECT everywhere. *)
Theorem get_label_self (a : str) :
  Exact.get_label a a = Ok (replicate (length a) "2"%char).
Proof.
  rewrite get_label_run by done.
  by rewrite exact_marks_diag, present_marks_all_correct.
Qed.

(** A guess longer than the target makes [target[pos]] raise. *)
Lemma get_label_exact_too_long (rest a tp : str) ans cc :
  (length a < length rest)%nat →
  (∀ c, c ∈ a → is_Some (cc !! c)) →
  Exact.get_label_exact (tp ++ a) (length tp) rest ans cc = Raise IndexError.
Proof.
  revert a tp ans cc.
  induction rest as [|c rest IH]; intros a tp ans cc Hlt Hkeys;
    [simpl in Hlt; lia|].
  cbn [Exact.get_label_exact]. destruct a as [|t a].
  - unfold index. rewrite app_nil_r, lookup_ge_None_2 by lia. done.
  - rewrite index_app_middle. cbn [mbind result_bind]. simpl in Hlt.
    replace (tp ++ t :: a) with ((tp ++ [t]) ++ a) by (by rewrite <- app_assoc).
    replace (S (length tp)) with (length (tp ++ [t]))
      by (rewrite length_app; simpl; lia).
    destruct (decide (t = c)) as [->|Hne].
    + destruct (Hkeys c) as [v Hv]; [by left|].
      rewrite (iadd_Some _ _ _ _ Hv). cbn [mbind result_bind].
      apply IH; [lia|]. intros c' Hc'. rewrite lookup_insert.
      case_decide; [eauto|]. apply Hkeys. by right.
    + apply IH; [lia|]. intros c' Hc'. apply Hkeys. by right.
Qed.

Lemma get_label_too_long (w a : str) :
  (length a < length w)%nat → Exact.get_label w a = Raise IndexError.
Proof.
  intros Hlt. unfold Exact.get_label.
  by rewrite (get_label_exact_too_long w a [] _ _ Hlt (Counter_keys a)).
Qed.

(** ** Loops *)

Lemma for_nil {S A} (body : A → py S unit) s : for_ [] body s = (s, Ok ()).
Proof. done. Qed.

Lemma for_cons {S A} (x : A) l (body : A → py S unit) s :
  for_ (x :: l) body s
  = match body x s with
    | (s', Ok _) => for_ l body s'
    | (s', Raise e) => (s', Raise e)
    end.
Proof.
  unfold for_. cbn [foldM]. unfold mbind, py_bind.
  by destruct (body x s) as [s' [[]|e]].
Qed.

Lemma for_app {S A} (l1 l2 : list A) (body : A → py S unit) s :
  for_ (l1 ++ l2) body s
  = match for_ l1 body s with
    | (s', Ok _) => for_ l2 body s'
    | (s', Raise e) => (s', Raise e)
    end.
Proof.
  revert s. induction l1 as [|x l1 IH]; intros s; [done|].
  rewrite <- app_comm_cons, !for_cons.
  destruct (body x s) as [s' [[]|e]]; [apply IH|done].
Qed.

(** ** The exact session: pruning *)

Lemma all_hints_Ok hints w b :
  Exact.all_hints hints w = Ok b → b = true ↔ consistent hints w.
Proof.
  unfold consistent. revert b.
  induction hints as [|[hw hl] hints IH]; intros b; cbn [Exact.all_hints].
  - intros [= <-]. split; [constructor|done].
  - destruct (Exact.get_label hw w) as [l|e] eqn:Hl; cbn [mbind result_bind];
      [|done].
    rewrite Forall_cons. simpl. rewrite Hl. case_decide as Heq.
    + subst. intros H. rewrite (IH _ H). split; [by split|by intros [_ ?]].
    + intros [= <-]. split; [done|]. intros [[= ?] _]. done.
Qed.

Lemma all_hints_consistent hints w :
  consistent hints w → Exact.all_hints hints w = Ok true.
Proof.
  unfold consistent.
  induction hints as [|[hw hl] hints IH]; cbn [Exact.all_hints]; [done|].
  rewrite Forall_cons. simpl. intros [-> H]. cbn [mbind result_bind].
  rewrite decide_True by done. by apply IH.
Qed.

(** With no hinted guess longer than the word, every hint is evaluated
    or skipped without an exception. *)
Lemma all_hints_total hints w :
  Forall (λ h : str * str, (length h.1 ≤ length w)%nat) hints →
  Exact.all_hints hints w = Ok (bool_decide (consistent hints w)).
Proof.
  intros Hlen. destruct (Exact.all_hints hints w) as [b|e] eqn:Hb.
  - apply all_hints_Ok in Hb. f_equal. destruct b.
    + symmetry. apply bool_decide_eq_true. by apply Hb.
    + symmetry. apply bool_decide_eq_false. intros Hc. by apply Hb in Hc.
  - exfalso. induction Hlen as [|[hw hl] hints Hh Hlen IH];
      cbn [Exact.all_hints] in Hb; [done|].
    simpl in Hh. rewrite get_label_run in Hb by done.
    cbn [mbind result_bind] in Hb. case_decide; [by apply IH|done].
Qed.

Lemma prune_list_Ok hints ws ps :
  Exact.prune_list hints ws = Ok ps → ps = filter (consistent hints) ws.
Proof.
  revert ps. induction ws as [|w ws IH]; intros ps; cbn [Exact.prune_list].
  - by intros [= <-].
  - destruct (Exact.all_hints hints w) as [b|e] eqn:Hb;
      cbn [mbind result_bind]; [|done].
    destruct (Exact.prune_list hints ws) as [ps'|e]; cbn [mbind result_bind];
      [|done].
    intros [= <-]. rewrite filter_cons, (IH ps' eq_refl).
    apply all_hints_Ok in Hb. destruct b.
    + rewrite decide_True; [done|by apply Hb].
    + rewrite decide_False; [done|]. intros Hc. by apply Hb in Hc.
Qed.

Lemma prune_list_total hints ws :
  Forall (λ w, Forall (λ h : str * str, (length h.1 ≤ length w)%nat) hints)
         ws →
  Exact.prune_list hints ws = Ok (filter (consistent hints) ws).
Proof.
  induction 1 as [|w ws Hw Hws IH]; cbn [Exact.prune_list]; [done|].
  rewrite all_hints_total, IH by done. cbn [mbind result_bind].
  rewrite filter_cons. destruct (decide (consistent hints w)).
  - by rewrite bool_decide_eq_true_2.
  - by rewrite bool_decide_eq_false_2.
Qed.

Lemma prune_list_fixed hints ws :
  Forall (consistent hints) ws → Exact.prune_list hints ws = Ok ws.
Proof.
  induction 1 as [|w ws Hw Hws IH]; cbn [Exact.prune_list]; [done|].
  by rewrite all_hints_consistent, IH.
Qed.

(** ** The exact session: [add_word_hint] *)

Lemma prune_item_run i it s :
  Exact.prune_item (i, it) s
  = match Exact.prune_list (Exact.hints s) it.2.2 with
    | Ok p =>
        (Exact.set_words (λ d, <[i := (it.1, (it.2.1, p))]> d) s, Ok ())
    | Raise e => (s, Raise e)
    end.
Proof.
  destruct it as [k [o p]]. unfold Exact.prune_item, Exact.prune_words.
  unfold mbind, py_bind, gets, lift, modify. simpl.
  by destruct (Exact.prune_list (Exact.hints s) p).
Qed.

Lemma prune_items_spec items pre s :
  Exact.words s = pre ++ items →
  ∃ items',
    (for_ (zip (seq (length pre) (length items)) items) Exact.prune_item s).1
    = Exact.mkState (Exact._len s) (Exact.hints s) (pre ++ items') ∧
    Forall2 (kept_entry (Exact.hints s)) items items' ∧
    match
      (for_ (zip (seq (length pre) (length items)) items) Exact.prune_item s).2
    with
    | Ok _ => Forall2 (pruned_entry (Exact.hints s)) items items'
    | Raise e =>
        Exists (λ it, Exact.prune_list (Exact.hints s) it.2.2 = Raise e) items
    end.
Proof.
  revert pre s. induction items as [|it items IH]; intros pre s Hs.
  { exists []. simpl. rewrite <- Hs. by destruct s. }
  cbn [length seq zip zip_with]. rewrite for_cons, prune_item_run.
  destruct (Exact.prune_list (Exact.hints s) it.2.2) as [p|e] eqn:Hp.
  - set (it' := (it.1, (it.2.1, p))).
    set (s1 := Exact.set_words (λ d, <[length pre := it']> d) s).
    assert (Hs1 : Exact.words s1 = (pre ++ [it']) ++ items).
    { unfold s1. simpl. rewrite Hs, <- app_assoc.
      rewrite insert_app_r_alt by lia. by rewrite Nat.sub_diag. }
    destruct (IH (pre ++ [it']) s1 Hs1) as (items' & Hst & Hk & Hr).
    replace (length (pre ++ [it'])) with (S (length pre)) in *
      by (rewrite length_app; simpl; lia).
    exists (it' :: items'). rewrite Hst. split; [|split].
    + unfold s1. simpl. by rewrite <- app_assoc.
    + constructor; [right; by repeat split|done].
    + destruct (for_ _ _ s1).2.
      * constructor; [by repeat split|done].
      * by apply Exists_cons_tl.
  - exists (it :: items). split; [|split].
    + simpl. rewrite <- Hs. by destruct s.
    + apply Forall2_same_length_lookup_2; [done|].
      intros i x y Hx Hy. left. congruence.
    + by apply Exists_cons_hd.
Qed.

Lemma add_word_hint_spec word label s :
  ∃ items',
    (Exact.add_word_hint word label s).1
    = Exact.mkState (Exact._len s) (Exact.hints s ++ [(word, label)]) items' ∧
    Forall2 (kept_entry (Exact.hints s ++ [(word, label)]))
            (Exact.words s) items' ∧
    match (Exact.add_word_hint word label s).2 with
    | Ok _ =>
        Forall2 (pruned_entry (Exact.hints s ++ [(word, label)]))
                (Exact.words s) items'
    | Raise e =>
        Exists (λ it, Exact.prune_list (Exact.hints s ++ [(word, label)])
                        it.2.2 = Raise e) (Exact.words s)
    end.
Proof.
  unfold Exact.add_word_hint.
  set (s1 := Exact.set_hints (λ hs, hs ++ [(word, label)]) s).
  change ((modify (Exact.set_hints (λ hs, hs ++ [(word, label)]));;
           items ← gets Exact.words; for_ (enumerate items) Exact.prune_item) s)
    with (for_ (enumerate (Exact.words s1)) Exact.prune_item s1).
  apply (prune_items_spec (Exact.words s1) [] s1 eq_refl).
Qed.

Lemma consistent_app hs hs' w :
  consistent (hs ++ hs') w ↔ consistent hs w ∧ consistent hs' w.
Proof. unfold consistent. apply Forall_app. Qed.

Lemma add_word_hint_Ok word label s s' :
  Exact.add_word_hint word label s = (s', Ok ()) →
  Exact._len s' = Exact._len s ∧
  Exact.hints s' = Exact.hints s ++ [(word, label)] ∧
  Forall2 (λ it it' : string * (list str * list str),
             it'.1 = it.1 ∧ it'.2.1 = it.2.1 ∧
             it'.2.2 = filter (consistent (Exact.hints s')) it.2.2)
          (Exact.words s) (Exact.words s').
Proof.
  intros Hrun.
  destruct (add_word_hint_spec word label s) as (items' & Hst & _ & Hr).
  rewrite Hrun in Hst, Hr. simpl in Hst, Hr. subst s'. simpl.
  repeat split. eapply Forall2_impl; [exact Hr|].
  intros it it' (? & ? & Hp). by apply prune_list_Ok in Hp.
Qed.

Lemma add_word_hint_originals word label s :
  originals (Exact.add_word_hint word label s).1 = originals s.
Proof.
  destruct (add_word_hint_spec word label s) as (items' & -> & Hk & _).
  unfold originals. simpl. symmetry. apply list_eq_Forall2, Forall2_fmap.
  eapply Forall2_impl; [exact Hk|].
  intros it it' [->|(H1 & H2 & _)]; [done|]. simpl. by rewrite H1, H2.
Qed.

Lemma add_word_hint_inv word label s s' :
  Exact.add_word_hint word label s = (s', Ok ()) →
  exact_inv s → exact_inv s'.
Proof.
  intros Hrun Hinv. destruct (add_word_hint_Ok _ _ _ _ Hrun) as (_ & Hh & Hw).
  unfold exact_inv in *. revert Hinv Hw. generalize (Exact.words s').
  induction (Exact.words s) as [|it items IH]; intros items' Hinv Hw.
  - apply Forall2_nil_inv_l in Hw as ->. constructor.
  - apply Forall2_cons_inv_l in Hw as (it' & items'' & (_ & Ho & Hp) & Hw & ->).
    apply Forall_cons in Hinv as [Hit Hinv]. constructor; [|by apply IH].
    rewrite Hp, Ho, Hit. apply list_filter_filter_l.
    intros w. rewrite Hh, consistent_app. tauto.
Qed.

Lemma exact_session_Ok hs s s' :
  exact_session hs s = (s', Ok ()) →
  exact_inv s →
  Exact._len s' = Exact._len s ∧
  Exact.hints s' = Exact.hints s ++ hs ∧
  originals s' = originals s ∧
  exact_inv s'.
Proof.
  unfold exact_session. revert s.
  induction hs as [|[w l] hs IH]; intros s Hrun Hinv.
  - rewrite for_nil in Hrun. injection Hrun as <-. by rewrite app_nil_r.
  - rewrite for_cons in Hrun. simpl in Hrun.
    destruct (Exact.add_word_hint w l s) as [s1 [[]|e]] eqn:H1; [|done].
    destruct (add_word_hint_Ok _ _ _ _ H1) as (Hl & Hh & _).
    destruct (IH s1 Hrun (add_word_hint_inv _ _ _ _ H1 Hinv))
      as (Hl' & Hh' & Ho' & Hinv').
    pose proof (add_word_hint_originals w l s) as Ho. rewrite H1 in Ho.
    simpl in Ho. rewrite Hl', Hh', Ho', Hl, Hh, Ho, <- app_assoc. done.
Qed.

Lemma exact_inv_words s :
  exact_inv s →
  Exact.words s
  = (λ o : string * list str,
       (o.1, (o.2, filter (consistent (Exact.hints s)) o.2)))
    <$> originals s.
Proof.
  unfold exact_inv, originals.
  generalize (Exact.hints s) (Exact.words s). intros hs l Hl.
  induction Hl as [|[k [o p]] items Hit _ IH]; [done|].
  rewrite !fmap_cons, <- IH. simpl in *. by rewrite <- Hit.
Qed.

Lemma exact_fresh_inv s : exact_fresh s → exact_inv s.
Proof.
  intros [Hh Hw]. unfold exact_inv. rewrite Hh.
  eapply Forall_impl; [exact Hw|]. intros it ->. symmetry.
  apply filter_Forall_id, Forall_forall. intros w _. constructor.
Qed.

(** A session that started before any hint and has returned: the hints
    are recorded in order and every pool holds its original copy and
    that copy filtered by all of them. *)
Lemma exact_session_fresh hs s0 s :
  exact_fresh s0 → exact_session hs s0 = (s, Ok ()) →
  Exact._len s = Exact._len s0 ∧
  Exact.hints s = hs ∧
  Exact.words s
  = (λ it : string * (list str * list str),
       (it.1, (it.2.1, filter (consistent hs) it.2.1))) <$> Exact.words s0.
Proof.
  intros Hf Hrun.
  destruct (exact_session_Ok hs s0 s Hrun (exact_fresh_inv s0 Hf))
    as (Hl & Hh & Ho & Hinv).
  destruct Hf as [Hh0 _]. rewrite Hh0 in Hh. simpl in Hh.
  split; [done|]. split; [done|].
  rewrite (exact_inv_words s Hinv), Ho, Hh. unfold originals.
  rewrite <- list_fmap_compose. apply list_fmap_ext. by intros i [k [o p]] _.
Qed.

(** *** The session returns *)

Lemma add_word_hint_sized n word label s :
  (length word ≤ n)%nat → exact_sized n s →
  (Exact.add_word_hint word label s).2 = Ok () ∧
  exact_sized n (Exact.add_word_hint word label s).1.
Proof.
  intros Hw [Hh Hs].
  assert (Hh' : Forall (λ h : str * str, (length h.1 ≤ n)%nat)
                  (Exact.hints s ++ [(word, label)])).
  { apply Forall_app. split; [done|]. by repeat constructor. }
  assert (Htot : ∀ it, it ∈ Exact.words s →
    Exact.prune_list (Exact.hints s ++ [(word, label)]) it.2.2
    = Ok (filter (consistent (Exact.hints s ++ [(word, label)])) it.2.2)).
  { intros it Hit. apply prune_list_total.
    rewrite Forall_forall in Hs. specialize (Hs it Hit).
    eapply Forall_impl; [exact Hs|]. intros w <-. done. }
  destruct (add_word_hint_spec word label s) as (items' & Hst & Hk & Hr).
  split.
  - destruct (Exact.add_word_hint word label s).2 as [[]|e]; [done|].
    apply Exists_exists in Hr as (it & Hit & He).
    rewrite (Htot it Hit) in He. done.
  - rewrite Hst. split; [done|]. simpl.
    apply Forall_forall. intros it' Hit'.
    apply list_elem_of_lookup in Hit' as [i Hi].
    destruct (Forall2_lookup_r _ _ _ _ _ Hk Hi) as (it & Hi' & Hkept).
    assert (Hit : it ∈ Exact.words s) by (apply list_elem_of_lookup; eauto).
    rewrite Forall_forall in Hs. specialize (Hs it Hit).
    destruct Hkept as [->|(_ & _ & Hp)]; [done|].
    rewrite (Htot it Hit) in Hp. injection Hp as <-.
    by apply Forall_filter_keep.
Qed.

Lemma exact_session_returns n hs s :
  Forall (λ h : str * str, (length h.1 ≤ n)%nat) hs → exact_sized n s →
  (exact_session hs s).2 = Ok ().
Proof.
  unfold exact_session. intros Hhs. revert s.
  induction Hhs as [|[w l] hs Hw Hhs IH]; intros s Hs; [done|].
  rewrite for_cons. simpl in *.
  destruct (add_word_hint_sized n w l s Hw Hs) as [Hr Hs'].
  destruct (Exact.add_word_hint w l s) as [s1 r]. simpl in *. subst r.
  by apply IH.
Qed.

Lemma exact_fresh_sized n s :
  exact_fresh s →
  Forall (λ it : string * (list str * list str),
            Forall (λ w, length w = n) it.2.1) (Exact.words s) →
  exact_sized n s.
Proof.
  intros [Hh Hw] Hlen. split; [rewrite Hh; constructor|].
  rewrite Forall_forall in Hw, Hlen. apply Forall_forall. intros it Hit.
  rewrite (Hw it Hit). by apply Hlen.
Qed.

(** It returns when the words of the pools all have one length, which no
    guess exceeds. *)
Lemma exact_session_run n hs s0 :
  exact_fresh s0 →
  Forall (λ it : string * (list str * list str),
            Forall (λ w, length w = n) it.2.1) (Exact.words s0) →
  Forall (λ h : str * str, (length h.1 ≤ n)%nat) hs →
  ∃ s, exact_session hs s0 = (s, Ok ()) ∧
       Exact.hints s = hs ∧
       Exact.words s
       = (λ it : string * (list str * list str),
            (it.1, (it.2.1, filter (consistent hs) it.2.1)))
         <$> Exact.words s0.
Proof.
  intros Hf Hlen Hhs.
  pose proof (exact_session_returns n hs s0 Hhs
                (exact_fresh_sized n s0 Hf Hlen)) as Hr.
  destruct (exact_session hs s0) as [s r] eqn:Hrun. simpl in Hr. subst r.
  exists s. split; [done|].
  by destruct (exact_session_fresh hs s0 s Hf Hrun) as (_ & ? & ?).
Qed.

(** ** Frame rules *)

Lemma preserves_ret {S A B} (f : S → B) (a : A) :
  preserves f (mret (M := py S) a).
Proof. by intros s. Qed.

Lemma preserves_bind {S A A' B} (f : S → B) (m : py S A) (k : A → py S A') :
  preserves f m → (∀ a, preserves f (k a)) → preserves f (m ≫= k).
Proof.
  intros Hm Hk s. unfold mbind, py_bind. specialize (Hm s).
  destruct (m s) as [s' [a|e]]; simpl in *; [|done].
  by rewrite Hk.
Qed.

Lemma preserves_gets {S A B} (f : S → B) (g : S → A) : preserves f (gets g).
Proof. by intros s. Qed.

Lemma preserves_lift {S A B} (f : S → B) (r : result A) :
  preserves f (lift r).
Proof. by intros s. Qed.

Lemma preserves_assert {S B} (f : S → B) b msg :
  preserves f (py_assert b msg).
Proof. by intros s. Qed.

Lemma preserves_modify {S B} (f : S → B) (g : S → S) :
  (∀ s, f (g s) = f s) → preserves f (modify g).
Proof. intros Hg s. apply Hg. Qed.

Lemma preserves_foldM {S A B C} (f : S → C) (body : B → A → py S B) b l :
  (∀ b x, preserves f (body b x)) → preserves f (foldM body b l).
Proof.
  intros Hb. revert b. induction l as [|x l IH]; intros b; cbn [foldM].
  - apply preserves_ret.
  - apply preserves_bind; [apply Hb|apply IH].
Qed.

Lemma preserves_for {S A C} (f : S → C) (body : A → py S unit) l :
  (∀ x, preserves f (body x)) → preserves f (for_ l body).
Proof. intros Hb. apply preserves_foldM. intros _ x. apply Hb. Qed.

Ltac frame :=
  repeat first
    [ apply preserves_ret | apply preserves_gets | apply preserves_lift
    | apply preserves_assert
    | apply preserves_modify; by intros []
    | apply preserves_for; intros
    | apply preserves_foldM; intros
    | apply preserves_bind; [|intros]
    | match goal with |- preserves _ (let '(_, _) := ?it in _) =>
        destruct it end ].

(** ** The heuristic session: what the statistics leave alone *)

Lemma update_chars_answer_words :
  preserves Heur.answer_words Heur.update_chars.
Proof. unfold Heur.update_chars. frame. Qed.

Ltac frame_counts :=
  unfold Heur.update_counts, Heur.reset_char, Heur.count_word, Heur.count_in,
    Heur.count_notin, Heur.count_pos; frame.

Lemma update_counts_answer_words :
  preserves Heur.answer_words Heur.update_counts.
Proof. frame_counts. Qed.

Lemma update_chars_len : preserves Heur._len Heur.update_chars.
Proof. unfold Heur.update_chars. frame. Qed.

Lemma update_counts_len : preserves Heur._len Heur.update_counts.
Proof. frame_counts. Qed.

Lemma update_counts_chars : preserves Heur.chars Heur.update_counts.
Proof. frame_counts. Qed.

(** ** The heuristic session: [add_char_hint] *)

(** Where the loop body returns, it keeps the word exactly when the
    word obeys the rule of the character. *)
Lemma char_hint_keeps_Ok c l p w b :
  Heur.char_hint_keeps c l p w = Ok b → b = true ↔ char_rule c l p w.
Proof.
  unfold Heur.char_hint_keeps, char_rule, index.
  destruct (decide (c ∈ w)) as [Hin|Hin];
    [rewrite (bool_decide_eq_true_2 _ Hin)
    |rewrite (bool_decide_eq_false_2 _ Hin)];
  destruct (decide (l = "0"%char)) as [->|H0];
    [|rewrite (bool_decide_eq_false_2 _ H0)| |rewrite (bool_decide_eq_false_2 _ H0)];
  simpl; try (intros [= <-]; split; [done|intros (Hr & _); by destruct Hr]).
  - destruct (decide (l = "1"%char)) as [->|H1]; simpl.
    + destruct (w !! p) as [x|] eqn:Hx; simpl; [|done].
      apply lookup_lt_Some in Hx as Hlt.
      destruct (decide (x = c)) as [->|Hxc].
      * rewrite bool_decide_eq_true_2 by done. intros [= <-].
        split; [done|]. intros (_ & Hr & _). by destruct Hr as (_ & _ & []).
      * rewrite bool_decide_eq_false_2 by done. simpl. intros [= <-].
        split; [|done]. intros _. repeat split; try done. congruence.
    + rewrite (bool_decide_eq_false_2 _ H1). simpl.
      destruct (decide (l = "2"%char)) as [->|H2]; simpl.
      * destruct (w !! p) as [x|] eqn:Hx; simpl; [|done].
        destruct (decide (x = c)) as [->|Hxc].
        -- rewrite bool_decide_eq_false_2 by (intros ?; done).
           intros [= <-]. split; [|done]. intros _. by repeat split.
        -- rewrite bool_decide_eq_true_2 by done. intros [= <-].
           split; [done|]. intros (_ & _ & Hr). specialize (Hr eq_refl).
           congruence.
      * rewrite (bool_decide_eq_false_2 _ H2). simpl. intros [= <-].
        split; [|done]. intros _. by repeat split.
  - intros [= <-]. split; [|done]. intros _. by repeat split.
  - destruct (decide (l = "1"%char)) as [->|H1]; simpl.
    + intros [= <-]. split; [done|]. intros (_ & Hr & _).
      by destruct Hr as (? & _).
    + rewrite (bool_decide_eq_false_2 _ H1). simpl.
      destruct (decide (l = "2"%char)) as [->|H2]; simpl.
      * intros [= <-]. split; [done|]. intros (_ & _ & Hr).
        specialize (Hr eq_refl). apply list_elem_of_lookup_2 in Hr. done.
      * rewrite (bool_decide_eq_false_2 _ H2). simpl. intros [= <-].
        split; [|done]. intros _. by repeat split.
Qed.

Lemma char_hint_keeps_total c l p w :
  (p < length w)%nat →
  Heur.char_hint_keeps c l p w = Ok (bool_decide (char_rule c l p w)).
Proof.
  intros Hlt.
  destruct (Heur.char_hint_keeps c l p w) as [b|e] eqn:Hk.
  - apply char_hint_keeps_Ok in Hk. f_equal. destruct b; symmetry.
    + apply bool_decide_eq_true. by apply Hk.
    + apply bool_decide_eq_false. intros Hr. by apply Hk in Hr.
  - exfalso. revert Hk. unfold Heur.char_hint_keeps, index.
    destruct (lookup_lt_is_Some_2 w p Hlt) as [x ->].
    repeat (case_match; simpl; try done).
Qed.

Lemma keep_loop_run c l p todo acc s :
  foldM (M := py Heur.state) (λ (words : gset str) word,
    keep ← lift (Heur.char_hint_keeps c l p word);
    mret (if (keep : bool) then {[word]} ∪ words else words)) acc todo s
  = (s, keep_loop c l p acc todo).
Proof.
  unfold keep_loop. revert acc.
  induction todo as [|w todo IH]; intros acc; [done|].
  cbn [foldM]. unfold mbind at 1 2, py_bind, lift at 1.
  unfold mbind at 2 3, result_bind.
  destruct (Heur.char_hint_keeps c l p w) as [b|e]; [|done].
  unfold mret at 1, py_ret. apply IH.
Qed.

Lemma keep_loop_Ok c l p todo acc words :
  keep_loop c l p acc todo = Ok words →
  words = acc ∪ list_to_set (filter (char_rule c l p) todo).
Proof.
  unfold keep_loop. revert acc.
  induction todo as [|w todo IH]; intros acc; cbn [foldM].
  - intros [= <-]. set_solver.
  - unfold mbind at 1 2, result_bind.
    destruct (Heur.char_hint_keeps c l p w) as [b|e] eqn:Hk; [|done].
    intros Hrun%IH. apply char_hint_keeps_Ok in Hk. rewrite filter_cons.
    destruct b.
    + rewrite decide_True by (by apply Hk). set_solver.
    + rewrite decide_False; [done|]. intros Hr. by apply Hk in Hr.
Qed.

Lemma keep_loop_total c l p todo acc :
  Forall (λ w, (p < length w)%nat) todo →
  keep_loop c l p acc todo
  = Ok (acc ∪ list_to_set (filter (char_rule c l p) todo)).
Proof.
  intros Hlen.
  destruct (keep_loop c l p acc todo) as [words|e] eqn:Hk.
  - by rewrite (keep_loop_Ok _ _ _ _ _ _ Hk).
  - exfalso. revert acc Hk. unfold keep_loop.
    induction Hlen as [|w todo Hw _ IH]; intros acc; cbn [foldM]; [done|].
    rewrite char_hint_keeps_total by done. apply IH.
Qed.

Lemma filter_elements_set (P : str → Prop) `{!∀ w, Decision (P w)}
    (X : gset str) :
  ∅ ∪ list_to_set (filter P (elements X)) = filter P X.
Proof.
  apply set_eq. intros w.
  rewrite elem_of_union, elem_of_list_to_set, list_elem_of_filter,
    elem_of_elements, elem_of_filter.
  set_solver.
Qed.

(** [add_char_hint] either raises in its loop, before it has assigned
    anything, or goes on to the statistics with the filtered set. *)
Lemma add_char_hint_run c l p s :
  Heur.add_char_hint c l p s
  = match keep_loop c l p ∅ (elements (Heur.answer_words s)) with
    | Ok words =>
        (Heur.update_chars;; Heur.update_counts)
          (Heur.set_num_answer_words (Z.of_nat (size words))
             (Heur.set_answer_words words s))
    | Raise e => (s, Raise e)
    end.
Proof.
  unfold Heur.add_char_hint.
  unfold mbind at 1, py_bind, gets at 1.
  unfold mbind at 1, py_bind. rewrite keep_loop_run.
  by destruct (keep_loop c l p ∅ (elements (Heur.answer_words s))).
Qed.

Lemma update_stats_answer_words :
  preserves Heur.answer_words (Heur.update_chars;; Heur.update_counts).
Proof.
  apply preserves_bind; [apply update_chars_answer_words|].
  intros _. apply update_counts_answer_words.
Qed.

Lemma add_char_hint_answer_words c l p s :
  Heur.answer_words (Heur.add_char_hint c l p s).1 = Heur.answer_words s ∨
  Heur.answer_words (Heur.add_char_hint c l p s).1
  = filter (char_rule c l p) (Heur.answer_words s).
Proof.
  rewrite add_char_hint_run.
  destruct (keep_loop _ _ _ _ _) as [words|e] eqn:Hk; [|by left].
  right. rewrite update_stats_answer_words. simpl.
  apply keep_loop_Ok in Hk. by rewrite Hk, filter_elements_set.
Qed.

Lemma add_char_hint_Ok c l p s s' :
  Heur.add_char_hint c l p s = (s', Ok ()) →
  Heur.answer_words s' = filter (char_rule c l p) (Heur.answer_words s).
Proof.
  intros Hrun. pose proof (add_char_hint_run c l p s) as Hr.
  rewrite Hrun in Hr.
  destruct (keep_loop _ _ _ _ _) as [words|e] eqn:Hk; [|done].
  apply keep_loop_Ok in Hk. rewrite filter_elements_set in Hk.
  apply (f_equal (λ x, Heur.answer_words x.1)) in Hr. simpl in Hr.
  rewrite Hr, update_stats_answer_words. simpl. done.
Qed.

(** ** The heuristic session: [add_word_hint] *)

Lemma assert_loop_run (label : str) (s : Heur.state) msg :
  for_ label (λ char,
    py_assert (bool_decide (char ∈ ["0"; "1"; "2"]%char)) msg) s
  = (s, if decide (Forall (λ c, c ∈ ["0"; "1"; "2"]%char) label)
        then Ok () else Raise (AssertionError msg)).
Proof.
  induction label as [|c label IH]; [done|].
  rewrite for_cons. unfold py_assert at 1, lift.
  destruct (decide (c ∈ ["0"; "1"; "2"]%char)) as [Hc|Hc].
  - rewrite bool_decide_eq_true_2, IH by done.
    destruct (decide (Forall _ label)) as [Hl|Hl].
    + by rewrite decide_True by (by constructor).
    + rewrite decide_False; [done|]. by intros [_ ?]%Forall_cons.
  - rewrite bool_decide_eq_false_2 by done.
    rewrite decide_False; [done|]. by intros [? _]%Forall_cons.
Qed.

(** The two assertions come first: a hint that fails one of them raises
    with the session as it was. *)
Lemma heur_add_word_hint_run word label s :
  Heur.add_word_hint word label s
  = if decide (Forall (λ c, c ∈ ["0"; "1"; "2"]%char) label) then
      if decide (length word = length label) then
        char_hints (enumerate (zip word label)) s
      else
        (s, Raise (AssertionError "label and word should have equal length"))
    else
      (s, Raise (AssertionError "label should consist of 0, 1 and 2 only")).
Proof.
  unfold Heur.add_word_hint. unfold mbind at 1, py_bind.
  rewrite assert_loop_run. case_decide; [|done].
  unfold mbind, py_bind, py_assert, lift.
  destruct (decide (length word = length label)).
  - by rewrite bool_decide_eq_true_2.
  - by rewrite bool_decide_eq_false_2.
Qed.

Lemma heur_add_word_hint_invalid word label s :
  ¬ valid_hint word label →
  ∃ msg, Heur.add_word_hint word label s = (s, Raise (AssertionError msg)).
Proof.
  intros Hv. rewrite heur_add_word_hint_run. unfold valid_hint in Hv.
  repeat case_decide; eauto. tauto.
Qed.

Lemma heur_add_word_hint_valid word label s :
  valid_hint word label →
  Heur.add_word_hint word label s = char_hints (enumerate (zip word label)) s.
Proof.
  intros [Hs Hl]. rewrite heur_add_word_hint_run.
  by rewrite !decide_True.
Qed.

Lemma filter_filter_set (P Q : str → Prop)
    `{!∀ w, Decision (P w), !∀ w, Decision (Q w)} (X : gset str) :
  filter P (filter Q X) = filter (λ w, Q w ∧ P w) X.
Proof. apply set_eq. intros w. rewrite !elem_of_filter. tauto. Qed.

Lemma filter_iff_set (P Q : str → Prop)
    `{!∀ w, Decision (P w), !∀ w, Decision (Q w)} (X : gset str) :
  (∀ w, P w ↔ Q w) → filter P X = filter Q X.
Proof.
  intros HPQ. apply set_eq. intros w. rewrite !elem_of_filter, HPQ. tauto.
Qed.

Lemma filter_subseteq_set (P : str → Prop) `{!∀ w, Decision (P w)}
    (X : gset str) :
  filter P X ⊆ X.
Proof. intros w. rewrite elem_of_filter. tauto. Qed.

Lemma char_hints_cons pos char label its s :
  char_hints ((pos, (char, label)) :: its) s
  = match Heur.add_char_hint char label pos s with
    | (s', Ok _) => char_hints its s'
    | (s', Raise e) => (s', Raise e)
    end.
Proof. unfold char_hints. by rewrite for_cons. Qed.

Lemma char_hints_Ok its s s' :
  char_hints its s = (s', Ok ()) →
  Heur.answer_words s' = filter (chars_rule its) (Heur.answer_words s).
Proof.
  revert s. induction its as [|[pos [char label]] its IH]; intros s.
  - intros [= <-]. apply set_eq. intros w. rewrite elem_of_filter.
    unfold chars_rule. split; [|tauto]. intros ?. split; [constructor|done].
  - rewrite char_hints_cons.
    destruct (Heur.add_char_hint char label pos s) as [s1 [[]|e]] eqn:H1;
      [|done].
    intros Hrun%IH. rewrite Hrun, (add_char_hint_Ok _ _ _ _ _ H1).
    rewrite filter_filter_set. apply filter_iff_set. intros w.
    unfold chars_rule. by rewrite Forall_cons.
Qed.

Lemma char_hints_subseteq its s :
  Heur.answer_words (char_hints its s).1 ⊆ Heur.answer_words s.
Proof.
  revert s. induction its as [|[pos [char label]] its IH]; intros s; [done|].
  rewrite char_hints_cons.
  pose proof (add_char_hint_answer_words char label pos s) as Hs.
  destruct (Heur.add_char_hint char label pos s) as [s1 [[]|e]]; simpl in *.
  - etrans; [apply IH|]. destruct Hs as [->| ->]; [done|].
    apply filter_subseteq_set.
  - destruct Hs as [->| ->]; [done|]. apply filter_subseteq_set.
Qed.

Lemma heur_add_word_hint_subseteq word label s :
  Heur.answer_words (Heur.add_word_hint word label s).1 ⊆ Heur.answer_words s.
Proof.
  rewrite heur_add_word_hint_run. repeat case_decide; try done.
  apply char_hints_subseteq.
Qed.

Lemma heur_add_word_hint_Ok word label s s' :
  Heur.add_word_hint word label s = (s', Ok ()) →
  valid_hint word label ∧
  Heur.answer_words s'
  = filter (chars_rule (enumerate (zip word label))) (Heur.answer_words s).
Proof.
  rewrite heur_add_word_hint_run. unfold valid_hint.
  repeat case_decide; try done. intros Hrun%char_hints_Ok. done.
Qed.

Lemma heur_session_Ok hs s s' :
  heur_session hs s = (s', Ok ()) →
  Forall (λ h : str * str, valid_hint h.1 h.2) hs ∧
  Heur.answer_words s' = filter (heur_consistent hs) (Heur.answer_words s).
Proof.
  unfold heur_session. revert s.
  induction hs as [|[w l] hs IH]; intros s.
  - intros [= <-]. split; [constructor|]. apply set_eq. intros x.
    rewrite elem_of_filter. split; [|tauto]. intros ?. split; [constructor|done].
  - rewrite for_cons. simpl.
    destruct (Heur.add_word_hint w l s) as [s1 [[]|e]] eqn:H1; [|done].
    apply heur_add_word_hint_Ok in H1 as [Hv H1].
    intros [Hvs Hrun]%IH. split; [by constructor|].
    rewrite Hrun, H1, filter_filter_set. apply filter_iff_set. intros x.
    unfold heur_consistent. by rewrite Forall_cons.
Qed.

Lemma heur_session_subseteq hs s :
  Heur.answer_words (heur_session hs s).1 ⊆ Heur.answer_words s.
Proof.
  unfold heur_session. revert s.
  induction hs as [|[w l] hs IH]; intros s; [done|].
  rewrite for_cons. simpl.
  pose proof (heur_add_word_hint_subseteq w l s) as Hs.
  destruct (Heur.add_word_hint w l s) as [s1 [[]|e]]; simpl in *; [|done].
  etrans; [apply IH|done].
Qed.

(** ** Loops over one field of the state *)

(** A loop whose body reads a field, computes on it and writes it back
    runs the computation on the field. *)
Lemma field_loop {S D A} (get : S → D) (set : D → S → S)
    (g : D → A → result D) (body : A → py S unit) :
  (∀ v s, get (set v s) = v) →
  (∀ v v' s, set v (set v' s) = set v s) →
  (∀ s, set (get s) s = s) →
  (∀ x s, body x s = match g (get s) x with
                     | Ok d' => (set d' s, Ok ())
                     | Raise e => (s, Raise e)
                     end) →
  ∀ l s d', foldM (M := result) g (get s) l = Ok d' →
            for_ l body s = (set d' s, Ok ()).
Proof.
  intros Hgs Hss Hsg Hbody l.
  induction l as [|x l IH]; intros s d'; cbn [foldM].
  - intros [= <-]. by rewrite for_nil, Hsg.
  - rewrite for_cons, Hbody. unfold mbind, result_bind.
    destruct (g (get s) x) as [d1|e]; [|done].
    intros Hrun. rewrite (IH (set d1 s) d'); [by rewrite Hss|].
    by rewrite Hgs.
Qed.

Lemma foldM_Ok_foldl {A B} (f : B → A → B) b l :
  foldM (M := result) (λ b x, Ok (f b x)) b l = Ok (foldl f b l).
Proof. revert b. induction l as [|x l IH]; intros b; [done|]. apply IH. Qed.

Lemma foldl_insert_lookup `{Countable K} {V} (v : V) (l : list K)
    (d : gmap K V) k :
  foldl (λ d x, <[x := v]> d) d l !! k
  = if decide (k ∈ l) then Some v else d !! k.
Proof.
  revert d. induction l as [|x l IH]; intros d; cbn [foldl].
  - by rewrite decide_False by apply not_elem_of_nil.
  - rewrite IH. destruct (decide (k ∈ l)) as [Hl|Hl].
    + by rewrite decide_True by (by right).
    + rewrite lookup_insert. destruct (decide (x = k)) as [->|Hne].
      * by rewrite decide_True by (by left).
      * rewrite decide_False; [done|]. by intros [?|?]%elem_of_cons.
Qed.

(** [d[k] += 1] for the keys [l], each present and listed once. *)
Lemma incr_loop `{Countable K} (l : list K) (d : gmap K Z) :
  NoDup l → (∀ k, k ∈ l → is_Some (d !! k)) →
  ∃ d', foldM (M := result) (λ d k, iadd d k 1) d l = Ok d' ∧
        ∀ k, d' !! k = if decide (k ∈ l) then (λ v, v + 1) <$> d !! k
                       else d !! k.
Proof.
  intros Hnd. revert d.
  induction Hnd as [|x l Hx Hnd IH]; intros d Hkeys; cbn [foldM].
  - exists d. split; [done|]. intros k.
    by rewrite decide_False by apply not_elem_of_nil.
  - destruct (Hkeys x) as [v Hv]; [by left|].
    rewrite (iadd_Some _ _ _ _ Hv). cbn [mbind result_bind].
    destruct (IH (<[x := v + 1]> d)) as (d' & Hrun & Hd').
    { intros k Hk. rewrite lookup_insert. case_decide; [eauto|].
      apply Hkeys. by right. }
    exists d'. split; [done|]. intros k. rewrite Hd'.
    destruct (decide (k = x)) as [->|Hne].
    + rewrite decide_False, decide_True by (done || by left).
      by rewrite lookup_insert_eq, Hv.
    + rewrite lookup_insert_ne by done.
      destruct (decide (k ∈ l)) as [Hl|Hl].
      * by rewrite decide_True by (by right).
      * rewrite decide_False; [done|]. by intros [?|?]%elem_of_cons.
Qed.

Lemma zero_loop (c : ascii) (l : list nat) d inner :
  d !! c = Some inner →
  foldM (M := result) (zero_pos c) d l = Ok (<[c := zeros l inner]> d).
Proof.
  revert d inner. induction l as [|p l IH]; intros d inner Hd; cbn [foldM].
  - unfold zeros. simpl. by rewrite insert_id.
  - unfold zero_pos at 2, getitem. rewrite Hd. cbn [mbind result_bind].
    rewrite (IH _ (<[p := 0]> inner)) by apply lookup_insert_eq.
    by rewrite insert_insert_eq.
Qed.

Lemma look2_insert d c inner c' p :
  look2 (<[c := inner]> d) c' p
  = if decide (c = c') then inner !! p else look2 d c' p.
Proof.
  unfold look2. rewrite lookup_insert. by case_decide.
Qed.

(** [d[char][pos] += 1] along [enumerate(word)], from position [i] on. *)
Lemma incr_pos_loop (w : str) (i : nat) d :
  (∀ j c, w !! j = Some c → is_Some (look2 d c (i + j))) →
  ∃ d', foldM (M := result) incr_pos d (zip (seq i (length w)) w) = Ok d' ∧
        ∀ c p, look2 d' c p
               = if decide ((i ≤ p)%nat ∧ w !! (p - i)%nat = Some c)
                 then (λ v, v + 1) <$> look2 d c p
                 else look2 d c p.
Proof.
  revert i d. induction w as [|c0 w IH]; intros i d Hkeys.
  { exists d. split; [done|]. intros c p.
    rewrite decide_False; [done|]. by intros [_ ?]. }
  cbn [length seq zip zip_with foldM].
  destruct (Hkeys 0%nat c0 eq_refl) as [k Hk]. rewrite Nat.add_0_r in Hk.
  unfold look2 in Hk. destruct (d !! c0) as [inner|] eqn:Hd; [|done].
  simpl in Hk. unfold incr_pos at 2, getitem. simpl. rewrite Hd.
  cbn [mbind result_bind]. rewrite (iadd_Some _ _ _ _ Hk).
  cbn [mbind result_bind].
  destruct (IH (S i) (<[c0 := <[i := k + 1]> inner]> d)) as (d' & Hrun & Hd').
  { intros j c Hj. rewrite look2_insert.
    specialize (Hkeys (S j) c Hj). rewrite Nat.add_succ_r in Hkeys.
    destruct (decide (c0 = c)) as [<-|Hne]; [|done].
    rewrite lookup_insert_ne by lia. unfold look2 in Hkeys.
    by rewrite Hd in Hkeys. }
  exists d'. split; [done|]. intros c p. rewrite Hd', look2_insert.
  destruct (decide (p = i)) as [->|Hpi].
  - rewrite (decide_False (P := (S i ≤ i)%nat ∧ _)) by lia.
    rewrite Nat.sub_diag. simpl. destruct (decide (c0 = c)) as [<-|Hne].
    + rewrite decide_True by done. rewrite lookup_insert_eq.
      unfold look2. rewrite Hd. simpl. by rewrite Hk.
    + rewrite decide_False; [done|]. intros [_ [= ?]]. done.
  - destruct (decide (i ≤ p)%nat) as [Hle|Hgt].
    + replace (p - i)%nat with (S (p - S i)) by lia. simpl.
      assert (Hin : (if decide (c0 = c) then <[i := k + 1]> inner !! p
                     else look2 d c p) = look2 d c p).
      { case_decide as Hc; [|done]. subst c.
        rewrite lookup_insert_ne by done. unfold look2. by rewrite Hd. }
      rewrite Hin. apply decide_ext. intuition lia.
    + rewrite (decide_False (P := (S i ≤ p)%nat ∧ _)) by (intros [? _]; lia).
      rewrite (decide_False (P := (i ≤ p)%nat ∧ _)) by (intros [? _]; lia).
      case_decide as Hc; [|done]. subst c.
      rewrite lookup_insert_ne by done. unfold look2. by rewrite Hd.
Qed.

Lemma zeros_lookup l inner p :
  zeros l inner !! p = if decide (p ∈ l) then Some 0 else inner !! p.
Proof. apply foldl_insert_lookup. Qed.

(** ** The heuristic session: the statistics *)

Lemma for_inv {S A} (I : S → Prop) (l : list A) (body : A → py S unit) s :
  I s →
  (∀ x s, x ∈ l → I s → (body x s).2 = Ok () ∧ I (body x s).1) →
  (for_ l body s).2 = Ok () ∧ I (for_ l body s).1.
Proof.
  revert s. induction l as [|x l IH]; intros s Hs Hbody; [done|].
  rewrite for_cons. destruct (Hbody x s) as [Hr Hs']; [by left|done|].
  destruct (body x s) as [s' r]. simpl in *. subst r.
  apply IH; [done|]. intros y s'' Hy. apply Hbody. by right.
Qed.

Lemma elem_of_letters (c : ascii) (ws : gset str) :
  c ∈ letters ws ↔ ∃ w, w ∈ ws ∧ c ∈ w.
Proof.
  unfold letters.
  assert (Hfold : ∀ (l : list str) (cs : gset ascii),
    c ∈ foldl (λ cs (w : str), cs ∪ list_to_set w) cs l
    ↔ c ∈ cs ∨ ∃ w, w ∈ l ∧ c ∈ w).
  { induction l as [|w l IH]; intros cs; cbn [foldl].
    - split; [by left|]. intros [?|(w & Hw & _)]; [done|].
      by apply elem_of_nil in Hw.
    - rewrite IH, elem_of_union, elem_of_list_to_set. split.
      + intros [[?|?]|(w' & ? & ?)]; eauto.
        * right. exists w. split; [by left|done].
        * right. exists w'. split; [by right|done].
      + intros [?|(w' & [->|?]%elem_of_cons & ?)]; eauto. }
  rewrite Hfold. split.
  - intros [?|(w & Hw & ?)]; [set_solver|].
    exists w. by rewrite <- elem_of_elements.
  - intros (w & Hw & ?). right. exists w. by rewrite elem_of_elements.
Qed.

Lemma update_chars_run s :
  Heur.update_chars s
  = (Heur.set_chars (letters (Heur.answer_words s)) s, Ok ()).
Proof.
  unfold Heur.update_chars. unfold mbind at 1 2, py_bind, modify, gets.
  rewrite (field_loop Heur.chars Heur.set_chars
             (λ cs (w : str), Ok (cs ∪ list_to_set w)) _
             (λ _ _, eq_refl) (λ _ _ _, eq_refl) ltac:(by intros [])
             (λ _ _, eq_refl) _ _ (letters (Heur.answer_words s))).
  - done.
  - simpl. by rewrite foldM_Ok_foldl.
Qed.

Lemma count_in_run (charset : gset ascii) s :
  (∀ c, c ∈ charset → is_Some (Heur.char_in_counts s !! c)) →
  ∃ d', Heur.count_in charset s = (Heur.set_char_in_counts d' s, Ok ()) ∧
        ∀ k, d' !! k = if decide (k ∈ charset)
                       then (λ v, v + 1) <$> Heur.char_in_counts s !! k
                       else Heur.char_in_counts s !! k.
Proof.
  intros Hkeys.
  destruct (incr_loop (elements charset) (Heur.char_in_counts s))
    as (d' & Hrun & Hd').
  { apply NoDup_elements. }
  { intros k Hk. apply Hkeys. by apply elem_of_elements. }
  exists d'. split.
  - apply (field_loop Heur.char_in_counts Heur.set_char_in_counts
             (λ d k, iadd d k 1)); [done|done|by intros []| |done].
    intros x s0. unfold mbind, py_bind, gets, lift, modify.
    by destruct (iadd (Heur.char_in_counts s0) x 1).
  - intros k. rewrite Hd'. apply decide_ext, elem_of_elements.
Qed.

Lemma count_notin_run (charset : gset ascii) s :
  (∀ c, c ∈ Heur.chars s → is_Some (Heur.char_notin_counts s !! c)) →
  ∃ d', Heur.count_notin charset s
        = (Heur.set_char_notin_counts d' s, Ok ()) ∧
        ∀ k, d' !! k = if decide (k ∈ Heur.chars s ∖ charset)
                       then (λ v, v + 1) <$> Heur.char_notin_counts s !! k
                       else Heur.char_notin_counts s !! k.
Proof.
  intros Hkeys.
  destruct (incr_loop (elements (Heur.chars s ∖ charset))
              (Heur.char_notin_counts s)) as (d' & Hrun & Hd').
  { apply NoDup_elements. }
  { intros k Hk%elem_of_elements. apply Hkeys. set_solver. }
  exists d'. split.
  - unfold Heur.count_notin. unfold mbind at 1, py_bind, gets at 1.
    apply (field_loop Heur.char_notin_counts Heur.set_char_notin_counts
             (λ d k, iadd d k 1)); [done|done|by intros []| |done].
    intros x s0. unfold mbind, py_bind, gets, lift, modify.
    by destruct (iadd (Heur.char_notin_counts s0) x 1).
  - intros k. rewrite Hd'. apply decide_ext, elem_of_elements.
Qed.

Lemma count_pos_run (w : str) s :
  (∀ j c, w !! j = Some c → is_Some (look2 (Heur.char_pos_counts s) c j)) →
  ∃ d', Heur.count_pos w s = (Heur.set_char_pos_counts d' s, Ok ()) ∧
        ∀ c p, look2 d' c p
               = if decide (w !! p = Some c)
                 then (λ v, v + 1) <$> look2 (Heur.char_pos_counts s) c p
                 else look2 (Heur.char_pos_counts s) c p.
Proof.
  intros Hkeys.
  destruct (incr_pos_loop w 0 (Heur.char_pos_counts s)) as (d' & Hrun & Hd');
    [done|].
  exists d'. split.
  - apply (field_loop Heur.char_pos_counts Heur.set_char_pos_counts incr_pos);
      [done|done|by intros []| |done].
    intros [pos char] s0. unfold incr_pos.
    unfold mbind, py_bind, result_bind, gets, lift, modify. simpl.
    destruct (getitem (Heur.char_pos_counts s0) char) as [inner|]; [|done].
    by destruct (iadd inner pos 1).
  - intros c p. rewrite Hd', Nat.sub_0_r. apply decide_ext.
    split; [by intros [_ ?]|]. intros ?. split; [lia|done].
Qed.

Lemma for_pure {S A} (f : A → S → S) (body : A → py S unit) l s :
  (∀ x s, body x s = (f x s, Ok ())) →
  for_ l body s = (foldl (λ s x, f x s) s l, Ok ()).
Proof.
  intros Hbody. revert s. induction l as [|x l IH]; intros s; [done|].
  by rewrite for_cons, Hbody, IH.
Qed.

Lemma reset_char_run c s : Heur.reset_char c s = (reset_state c s, Ok ()).
Proof.
  unfold Heur.reset_char. unfold mbind, py_bind, gets, modify.
  cbn [fst snd Heur._len Heur.set_char_notin_counts Heur.set_char_in_counts
       Heur.set_char_pos_counts].
  erewrite (field_loop Heur.char_pos_counts Heur.set_char_pos_counts
              (zero_pos c));
    [|done|done|by intros []| |
     simpl; apply (zero_loop c _ _ ∅); apply lookup_insert_eq].
  - unfold reset_state. simpl. by rewrite insert_insert_eq.
  - intros x s0. unfold zero_pos.
    unfold mbind, py_bind, result_bind, gets, lift, modify.
    by destruct (getitem (Heur.char_pos_counts s0) c).
Qed.

Lemma reset_state_keyed c0 c s :
  c = c0 ∨ keyed c s → keyed c (reset_state c0 s).
Proof.
  unfold keyed, reset_state. simpl. intros Hc.
  destruct (decide (c0 = c)) as [->|Hne].
  - rewrite !lookup_insert_eq. repeat split; eauto.
    intros p Hp. rewrite look2_insert, decide_True, zeros_lookup by done.
    rewrite decide_True; [eauto|]. apply elem_of_seq. lia.
  - destruct Hc as [->|(? & ? & Hp)]; [done|].
    rewrite !lookup_insert_ne by done. repeat split; try done.
    intros p Hlt. rewrite look2_insert, decide_False by done. by apply Hp.
Qed.

Lemma reset_state_zero c0 s : all_zero s → all_zero (reset_state c0 s).
Proof.
  unfold all_zero, in_of, notin_of, pos_of, reset_state, get0. simpl.
  intros Hz c. destruct (Hz c) as (Hi & Hn & Hp).
  destruct (decide (c0 = c)) as [->|Hne].
  - repeat rewrite lookup_insert_eq. repeat split; try done.
    intros p. rewrite look2_insert, decide_True, zeros_lookup by done.
    by case_decide.
  - repeat rewrite lookup_insert_ne by done. repeat split; try done.
    intros p. by rewrite look2_insert, decide_False.
Qed.

Lemma reset_loop_keyed l c s :
  c ∈ l ∨ keyed c s → keyed c (foldl (λ s x, reset_state x s) s l).
Proof.
  revert s. induction l as [|x l IH]; intros s [Hc|Hk]; cbn [foldl].
  - by apply elem_of_nil in Hc.
  - done.
  - apply IH. apply elem_of_cons in Hc as [->|?]; [right|by left].
    apply reset_state_keyed. by left.
  - apply IH. right. apply reset_state_keyed. by right.
Qed.

Lemma reset_loop_zero l s :
  all_zero s → all_zero (foldl (λ s x, reset_state x s) s l).
Proof.
  revert s. induction l as [|x l IH]; intros s Hz; [done|].
  apply IH. by apply reset_state_zero.
Qed.

Lemma reset_loop_frame l s :
  Heur._len (foldl (λ s x, reset_state x s) s l) = Heur._len s ∧
  Heur.chars (foldl (λ s x, reset_state x s) s l) = Heur.chars s ∧
  Heur.answer_words (foldl (λ s x, reset_state x s) s l)
  = Heur.answer_words s.
Proof.
  revert s. induction l as [|x l IH]; intros s; [done|].
  cbn [foldl]. destruct (IH (reset_state x s)) as (-> & -> & ->). done.
Qed.

Lemma default_incr (o : option Z) :
  0 ≤ default 0 o →
  0 ≤ default 0 ((λ v, v + 1) <$> o) ≤ default 0 o + 1 ∧
  default 0 o ≤ default 0 ((λ v, v + 1) <$> o).
Proof. destruct o; simpl; lia. Qed.

Lemma count_word_frame w :
  preserves Heur._len (Heur.count_word w) ∧
  preserves Heur.chars (Heur.count_word w).
Proof. split; frame_counts. Qed.

(** Counting one word that fits the session keeps the statistics
    complete and ordered. *)
Lemma count_word_spec w s :
  (length w ≤ Heur._len s)%nat →
  (∀ c, c ∈ w → c ∈ Heur.chars s) →
  counts_keys s → counts_vals s →
  (Heur.count_word w s).2 = Ok () ∧
  counts_keys (Heur.count_word w s).1 ∧
  counts_vals (Heur.count_word w s).1.
Proof.
  intros Hlen Hw Hkeys Hvals.
  destruct (count_in_run (list_to_set w) s) as (d1 & H1 & Hd1).
  { intros c Hc%elem_of_list_to_set. by apply Hkeys, Hw. }
  set (s1 := Heur.set_char_in_counts d1 s) in *.
  destruct (count_notin_run (list_to_set w) s1) as (d2 & H2 & Hd2).
  { intros c Hc. by apply Hkeys. }
  set (s2 := Heur.set_char_notin_counts d2 s1) in *.
  destruct (count_pos_run w s2) as (d3 & H3 & Hd3).
  { intros j c Hj. apply Hkeys; [by eapply Hw, list_elem_of_lookup_2|].
    apply lookup_lt_Some in Hj. lia. }
  assert (Hrun : Heur.count_word w s = (Heur.set_char_pos_counts d3 s2, Ok ())).
  { unfold Heur.count_word. unfold mbind, py_bind. by rewrite H1, H2, H3. }
  rewrite Hrun. simpl in Hd2, Hd3. split; [done|]. split.
  - intros c Hc. destruct (Hkeys c Hc) as (Hi & Hn & Hp).
    unfold keyed. simpl. rewrite Hd1, Hd2. repeat split.
    + case_decide; [by apply fmap_is_Some|done].
    + case_decide; [by apply fmap_is_Some|done].
    + intros p Hlt. rewrite Hd3. case_decide; [apply fmap_is_Some|]; eauto.
  - intros c. destruct (Hvals c) as [Hn Hp]. split.
    + unfold notin_of, get0. simpl. rewrite Hd2.
      case_decide; [|done]. by apply default_incr.
    + intros p. specialize (Hp p). unfold pos_of, in_of, get0 in *. simpl.
      rewrite Hd1, Hd3.
      pose proof (default_incr (look2 (Heur.char_pos_counts s) c p)
                    ltac:(lia)) as Hpi.
      destruct (decide (w !! p = Some c)) as [Hwp|Hwp].
      * assert (Hc : c ∈ w) by (by eapply list_elem_of_lookup_2).
        rewrite decide_True by (by apply elem_of_list_to_set).
        destruct (Hkeys c (Hw c Hc)) as ([v Hv] & _). rewrite Hv in *.
        simpl in *. lia.
      * assert (Hi : 0 ≤ default 0 (Heur.char_in_counts s !! c)) by lia.
        apply default_incr in Hi. case_decide; lia.
Qed.

Lemma all_zero_vals s : all_zero s → counts_vals s.
Proof.
  intros Hz c. destruct (Hz c) as (Hi & Hn & Hp). split; [lia|].
  intros p. rewrite Hp. lia.
Qed.

(** With every word no longer than [_len] and every letter of the words
    in [chars], [update_counts] returns, and the statistics it leaves are
    complete and ordered. *)
Lemma update_counts_spec s :
  (∀ w, w ∈ Heur.answer_words s → (length w ≤ Heur._len s)%nat) →
  (∀ w c, w ∈ Heur.answer_words s → c ∈ w → c ∈ Heur.chars s) →
  (Heur.update_counts s).2 = Ok () ∧
  counts_keys (Heur.update_counts s).1 ∧
  counts_vals (Heur.update_counts s).1.
Proof.
  intros Hlen Hchars.
  set (s0 := Heur.set_char_notin_counts ∅ (Heur.set_char_in_counts ∅
               (Heur.set_char_pos_counts ∅ s))).
  set (s1 := foldl (λ s x, reset_state x s) s0 (elements (Heur.chars s))).
  destruct (reset_loop_frame (elements (Heur.chars s)) s0) as (Hl1 & Hc1 & Ha1).
  fold s1 in Hl1, Hc1, Ha1. simpl in Hl1, Hc1, Ha1.
  assert (Hrun : Heur.update_counts s
                 = for_ (elements (Heur.answer_words s)) Heur.count_word s1).
  { unfold Heur.update_counts. unfold mbind, py_bind, modify, gets.
    fold s0. change (Heur.chars s0) with (Heur.chars s).
    rewrite (for_pure reset_state _ _ _ reset_char_run). fold s1.
    by rewrite Ha1. }
  rewrite Hrun.
  pose (I := λ s' : Heur.state,
    Heur._len s' = Heur._len s ∧ Heur.chars s' = Heur.chars s ∧
    counts_keys s' ∧ counts_vals s').
  destruct (for_inv I (elements (Heur.answer_words s)) Heur.count_word s1)
    as (Hr & _ & _ & Hk & Hv).
  - split; [done|]. split; [done|]. split.
    + intros c Hc. apply reset_loop_keyed. left. apply elem_of_elements.
      by rewrite <- Hc1.
    + apply all_zero_vals, reset_loop_zero. intros c.
      unfold in_of, notin_of, pos_of, look2, get0. simpl.
      by rewrite !lookup_empty.
  - intros w s' Hw%elem_of_elements (Hl & Hc & Hk & Hv).
    destruct (count_word_frame w) as [Hfl Hfc].
    destruct (count_word_spec w s') as (? & ? & ?); try done.
    + rewrite Hl. by apply Hlen.
    + intros c Hcw. rewrite Hc. by eapply Hchars.
    + split; [done|]. unfold I. by rewrite Hfl, Hfc.
  - done.
Qed.

(** Rebuilding the statistics of a session whose words fit its length
    returns, touches nothing else, and leaves them in order. *)
Lemma update_stats_run s :
  (∀ w, w ∈ Heur.answer_words s → (length w ≤ Heur._len s)%nat) →
  ∃ s', (Heur.update_chars;; Heur.update_counts) s = (s', Ok ()) ∧
        Heur.answer_words s' = Heur.answer_words s ∧
        Heur._len s' = Heur._len s ∧
        heur_stats s'.
Proof.
  intros Hlen. unfold mbind, py_bind. rewrite update_chars_run.
  set (s1 := Heur.set_chars (letters (Heur.answer_words s)) s).
  destruct (update_counts_spec s1) as (Hr & Hk & Hv).
  - done.
  - intros w c Hw Hc. simpl. apply elem_of_letters. eauto.
  - pose proof (update_counts_answer_words s1) as Ha.
    pose proof (update_counts_len s1) as Hl.
    pose proof (update_counts_chars s1) as Hc.
    destruct (Heur.update_counts s1) as [s' r]. simpl in *. subst r.
    exists s'. split; [done|]. split; [done|]. split; [done|].
    split; [|done]. by rewrite Hc, Ha.
Qed.

Lemma heur_init_run (len : nat) (allowed answers : gset str) :
  (∀ w, w ∈ answers → length w = len) →
  ∃ s, Heur.init len allowed answers = (s, Ok ()) ∧
       Heur.answer_words s = answers ∧ Heur._len s = len ∧
       heur_sized s ∧ heur_stats s.
Proof.
  intros Hlen. unfold Heur.init.
  destruct (update_stats_run (Heur.mkState len allowed answers
              (Z.of_nat (size allowed)) (Z.of_nat (size answers)) ∅ ∅ ∅ ∅))
    as (s & Hrun & Ha & Hl & Hst).
  { intros w Hw. simpl in *. by rewrite (Hlen w Hw). }
  exists s. simpl in *. split; [done|]. split; [done|]. split; [done|].
  split; [|done].
  intros w Hw. rewrite Ha in Hw. rewrite Hl. by apply Hlen.
Qed.

(** A character hint at a position of the session's words returns and
    keeps the session well-formed. *)
Lemma add_char_hint_sized c l p s :
  (p < Heur._len s)%nat → heur_sized s →
  ∃ s', Heur.add_char_hint c l p s = (s', Ok ()) ∧
        Heur.answer_words s' = filter (char_rule c l p) (Heur.answer_words s) ∧
        Heur._len s' = Heur._len s ∧
        heur_sized s' ∧ heur_stats s'.
Proof.
  intros Hp Hs. rewrite add_char_hint_run.
  rewrite keep_loop_total, filter_elements_set.
  2:{ apply Forall_forall. intros w Hw%elem_of_elements.
      by rewrite (Hs w Hw). }
  set (ws := filter (char_rule c l p) (Heur.answer_words s)).
  destruct (update_stats_run
              (Heur.set_num_answer_words (Z.of_nat (size ws))
                 (Heur.set_answer_words ws s)))
    as (s' & Hrun & Ha & Hl & Hst).
  { intros w [_ Hw]%elem_of_filter. simpl. by rewrite (Hs w Hw). }
  exists s'. simpl in *. split; [done|]. split; [done|]. split; [done|].
  split; [|done].
  intros w Hw. rewrite Ha in Hw. apply elem_of_filter in Hw as [_ Hw].
  rewrite Hl. by apply Hs.
Qed.

Lemma char_hints_sized its s :
  Forall (λ it : nat * (ascii * ascii), (it.1 < Heur._len s)%nat) its →
  heur_sized s →
  ∃ s', char_hints its s = (s', Ok ()) ∧
        Heur.answer_words s' = filter (chars_rule its) (Heur.answer_words s) ∧
        Heur._len s' = Heur._len s ∧
        heur_sized s' ∧ (its ≠ [] → heur_stats s').
Proof.
  revert s. induction its as [|[pos [char label]] its IH]; intros s Hits Hs.
  - exists s. split; [done|]. split; [apply (char_hints_Ok [] s s eq_refl)|].
    done.
  - apply Forall_cons in Hits as [Hp Hits]. simpl in Hp.
    destruct (add_char_hint_sized char label pos s Hp Hs)
      as (s1 & H1 & Ha1 & Hl1 & Hs1 & Hst1).
    rewrite char_hints_cons, H1.
    destruct (IH s1) as (s' & Hrun & Ha & Hl & Hs' & Hst'); [|done|].
    { by rewrite Hl1. }
    exists s'. split; [done|]. split; [|split; [congruence|split; [done|]]].
    + apply (char_hints_Ok ((pos, (char, label)) :: its) s s').
      by rewrite char_hints_cons, H1.
    + intros _. destruct its as [|it its]; [|by apply Hst'].
      by injection Hrun as <-.
Qed.

Lemma enumerate_lt {A} (l : list A) :
  Forall (λ it : nat * A, (it.1 < length l)%nat) (enumerate l).
Proof.
  unfold enumerate. apply Forall_forall. intros [i x] Hix.
  apply elem_of_zip_l, elem_of_seq in Hix. simpl. lia.
Qed.

Lemma heur_add_word_hint_sized word label s :
  valid_hint word label → (length word ≤ Heur._len s)%nat →
  heur_sized s → heur_stats s →
  ∃ s', Heur.add_word_hint word label s = (s', Ok ()) ∧
        Heur.answer_words s'
        = filter (chars_rule (enumerate (zip word label)))
                 (Heur.answer_words s) ∧
        Heur._len s' = Heur._len s ∧
        heur_sized s' ∧ heur_stats s'.
Proof.
  intros Hv Hlen Hs Hst. rewrite heur_add_word_hint_valid by done.
  destruct (char_hints_sized (enumerate (zip word label)) s)
    as (s' & Hrun & Ha & Hl & Hs' & Hst'); [|done|].
  { eapply Forall_impl; [apply enumerate_lt|]. intros it Hit. simpl in *.
    rewrite length_zip in Hit. lia. }
  exists s'. split; [done|]. split; [done|]. split; [done|]. split; [done|].
  destruct (enumerate (zip word label)) as [|it its] eqn:Hits;
    [|by apply Hst'].
  by injection Hrun as <-.
Qed.

Lemma heur_session_sized hs s :
  Forall (λ h : str * str,
            valid_hint h.1 h.2 ∧ (length h.1 ≤ Heur._len s)%nat) hs →
  heur_sized s → heur_stats s →
  ∃ s', heur_session hs s = (s', Ok ()) ∧
        Heur.answer_words s'
        = filter (heur_consistent hs) (Heur.answer_words s) ∧
        Heur._len s' = Heur._len s ∧
        heur_sized s' ∧ heur_stats s'.
Proof.
  revert s. induction hs as [|[w l] hs IH]; intros s Hhs Hs Hst.
  - exists s. split; [done|].
    split; [apply (heur_session_Ok [] s s eq_refl)|done].
  - apply Forall_cons in Hhs as [[Hv Hlen] Hhs]. simpl in Hv, Hlen.
    destruct (heur_add_word_hint_sized w l s Hv Hlen Hs Hst)
      as (s1 & H1 & Ha1 & Hl1 & Hs1 & Hst1).
    destruct (IH s1) as (s' & Hrun & Ha & Hl & Hs' & Hst'); [|done|done|].
    { eapply Forall_impl; [exact Hhs|]. intros h. by rewrite Hl1. }
    assert (Hall : heur_session ((w, l) :: hs) s = (s', Ok ())).
    { unfold heur_session in *. rewrite for_cons. simpl. by rewrite H1. }
    exists s'. split; [done|].
    split; [apply (heur_session_Ok _ _ _ Hall)|].
    split; [congruence|done].
Qed.

(** ** The exact session: any outcome *)

Lemma exact_add_word_hint_shrinks word label s :
  Forall2 (λ it it' : string * (list str * list str),
             it'.1 = it.1 ∧ it'.2.1 = it.2.1 ∧ it'.2.2 `sublist_of` it.2.2)
          (Exact.words s) (Exact.words (Exact.add_word_hint word label s).1).
Proof.
  destruct (add_word_hint_spec word label s) as (items' & -> & Hk & _).
  simpl. eapply Forall2_impl; [exact Hk|].
  intros it it' [->|(-> & -> & Hp)]; [done|]. split; [done|]. split; [done|].
  apply prune_list_Ok in Hp as ->. apply sublist_filter.
Qed.

Lemma exact_session_shrinks hs s :
  Forall2 (λ it it' : string * (list str * list str),
             it'.1 = it.1 ∧ it'.2.1 = it.2.1 ∧ it'.2.2 `sublist_of` it.2.2)
          (Exact.words s) (Exact.words (exact_session hs s).1).
Proof.
  unfold exact_session. revert s.
  induction hs as [|[w l] hs IH]; intros s.
  { rewrite for_nil. simpl. apply Forall2_same_length_lookup_2; [done|].
    intros i x y Hx Hy. by simplify_eq. }
  rewrite for_cons. simpl.
  pose proof (exact_add_word_hint_shrinks w l s) as H1.
  destruct (Exact.add_word_hint w l s) as [s1 [[]|e]]; simpl in *; [|done].
  eapply Forall2_trans; [|exact H1|apply IH].
  intros x y z (-> & -> & ?) (-> & -> & ?). split; [done|]. split; [done|].
  by etrans.
Qed.

(** ** The candidate set after a sequence of hints *)

(** C1. A defect of [wordle.py].  The hint ("allay", "11202") is the
    label the encoder gives for the guess "allay" against the answer
    "rally".  On the candidates "rally" and "hello" the heuristic
    session takes the hint and returns with no candidate left: the
    fourth character, 'a' labelled '0', removes every word that holds an
    'a', "rally" with them.  The candidates for which the encoder gives
    the hinted label are "rally" alone, and that is what the exact
    session keeps of the same pool. *)
Theorem heur_candidates_not_encoder_filter :
  Exact.get_label (str_of "allay") (str_of "rally") = Ok (str_of "11202") ∧
  Heur.answer_words heur_fixture = {[str_of "rally"; str_of "hello"]} ∧
  (heur_session [(str_of "allay", str_of "11202")] heur_fixture).2 = Ok () ∧
  Heur.answer_words
    (heur_session [(str_of "allay", str_of "11202")] heur_fixture).1 = ∅ ∧
  filter (consistent [(str_of "allay", str_of "11202")])
         (Heur.answer_words heur_fixture) = {[str_of "rally"]} ∧
  ∃ s, exact_session [(str_of "allay", str_of "11202")] exact_fixture
       = (s, Ok ()) ∧
       Exact.words_getitem s "answers"
       = Ok (pool_answers, [str_of "rally"]).
Proof.
  split; [by vm_compute|].
  split; [apply (bool_decide_unpack _); by vm_compute|].
  split; [by vm_compute|].
  split; [apply (bool_decide_unpack _); by vm_compute|].
  split; [apply (bool_decide_unpack _); by vm_compute|].
  eexists. split; by vm_compute.
Qed.

(** ** Monotonicity *)

(** C6. Whatever the hints and whether the calls return or raise, a
    session only shrinks the candidates: in the exact session the pruned
    copy of every pool is a sublist of what it was (so no longer), in the
    heuristic session the candidate set is a subset of what it was (so no
    larger), from any point of a session to any later one. *)
Theorem candidates_only_shrink :
  (∀ hs s,
     Forall2 (λ it it' : string * (list str * list str),
                it'.1 = it.1 ∧ it'.2.2 `sublist_of` it.2.2 ∧
                (length it'.2.2 ≤ length it.2.2)%nat)
             (Exact.words s) (Exact.words (exact_session hs s).1)) ∧
  (∀ hs s,
     Heur.answer_words (heur_session hs s).1 ⊆ Heur.answer_words s ∧
     (size (Heur.answer_words (heur_session hs s).1)
      ≤ size (Heur.answer_words s))%nat).
Proof.
  split.
  - intros hs s. eapply Forall2_impl; [apply exact_session_shrinks|].
    intros it it' (? & _ & Hsub). split; [done|]. split; [done|].
    by apply sublist_length.
  - intros hs s. pose proof (heur_session_subseteq hs s) as Hsub.
    split; [done|]. by apply subseteq_size.
Qed.

(** ** Idempotence *)

Lemma exact_add_word_hint_twice word label s s1 :
  Exact.add_word_hint word label s = (s1, Ok ()) →
  ∃ s2, Exact.add_word_hint word label s1 = (s2, Ok ()) ∧
        Exact.words s2 = Exact.words s1.
Proof.
  intros H1. destruct (add_word_hint_Ok _ _ _ _ H1) as (_ & Hh & Hw).
  assert (Hfix : ∀ it, it ∈ Exact.words s1 →
    Exact.prune_list (Exact.hints s1 ++ [(word, label)]) it.2.2 = Ok it.2.2).
  { intros it' Hit'. apply prune_list_fixed.
    apply list_elem_of_lookup in Hit' as [i Hi].
    destruct (Forall2_lookup_r _ _ _ _ _ Hw Hi) as (it & _ & _ & _ & ->).
    apply Forall_forall. intros w [Hc _]%list_elem_of_filter.
    rewrite consistent_app. split; [done|].
    rewrite Hh, consistent_app in Hc. tauto. }
  destruct (add_word_hint_spec word label s1) as (items' & Hst & _ & Hr).
  destruct (Exact.add_word_hint word label s1) as [s2 [[]|e]]; simpl in *.
  - exists s2. split; [done|]. subst s2. simpl. symmetry.
    apply list_eq_Forall2. apply Forall2_same_length_lookup_2.
    { by eapply Forall2_length. }
    intros i it it' Hi Hi'.
    destruct (Forall2_lookup_lr _ _ _ _ _ _ Hr Hi Hi') as (Hk & Ho & Hp).
    rewrite Hfix in Hp by (by eapply list_elem_of_lookup_2).
    destruct it as [k [o p']], it' as [k' [o' p'']]. simpl in *.
    by simplify_eq.
  - apply Exists_exists in Hr as (it & Hit & He).
    by rewrite Hfix in He.
Qed.

Lemma chars_rule_filter_twice (its : list (nat * (ascii * ascii)))
    (X : gset str) :
  filter (chars_rule its) (filter (chars_rule its) X)
  = filter (chars_rule its) X.
Proof. rewrite filter_filter_set. apply filter_iff_set. tauto. Qed.

(** C9. Adding the same hint twice in succession leaves the candidates
    as adding it once did. Exact session: from any state, if the first
    call returns then so does the second, and the pools are unchanged by
    it. Heuristic session: from any well-formed state and for any valid
    hint no longer than the session's words, both calls return and the
    second leaves the candidate set unchanged. *)
Theorem add_hint_twice :
  (∀ word label s s1,
     Exact.add_word_hint word label s = (s1, Ok ()) →
     ∃ s2, Exact.add_word_hint word label s1 = (s2, Ok ()) ∧
           Exact.words s2 = Exact.words s1) ∧
  (∀ word label s,
     valid_hint word label → (length word ≤ Heur._len s)%nat →
     heur_sized s → heur_stats s →
     ∃ s1 s2, Heur.add_word_hint word label s = (s1, Ok ()) ∧
              Heur.add_word_hint word label s1 = (s2, Ok ()) ∧
              Heur.answer_words s2 = Heur.answer_words s1).
Proof.
  split; [apply exact_add_word_hint_twice|].
  intros word label s Hv Hlen Hs Hst.
  destruct (heur_add_word_hint_sized word label s Hv Hlen Hs Hst)
    as (s1 & H1 & Ha1 & Hl1 & Hs1 & Hst1).
  destruct (heur_add_word_hint_sized word label s1 Hv) as (s2 & H2 & Ha2 & _);
    [by rewrite Hl1|done|done|].
  exists s1, s2. split; [done|]. split; [done|].
  by rewrite Ha2, Ha1, chars_rule_filter_twice.
Qed.

Lemma heur_fixture_wf :
  Heur._len heur_fixture = 5%nat ∧ heur_sized heur_fixture ∧
  heur_stats heur_fixture.
Proof.
  unfold heur_fixture.
  destruct (heur_init_run 5 (list_to_set pool_allowed)
              (list_to_set pool_answers)) as (s & -> & _ & Hl & Hs & Hst);
    [|done].
  intros w Hw%elem_of_list_to_set. revert w Hw.
  apply Forall_forall. by repeat constructor.
Qed.

Lemma add_hint_twice_witness :
  (∃ s2, Exact.add_word_hint (str_of "allay") (str_of "11202")
           (Exact.add_word_hint (str_of "allay") (str_of "11202")
              exact_fixture).1 = (s2, Ok ()) ∧
         Exact.words s2
         = Exact.words (Exact.add_word_hint (str_of "allay") (str_of "11202")
                          exact_fixture).1) ∧
  (∃ s1 s2,
     Heur.add_word_hint (str_of "hxllo") (str_of "20221") heur_fixture
     = (s1, Ok ()) ∧
     Heur.add_word_hint (str_of "hxllo") (str_of "20221") s1 = (s2, Ok ()) ∧
     Heur.answer_words s2 = Heur.answer_words s1).
Proof.
  split.
  - apply (proj1 add_hint_twice (str_of "allay") (str_of "11202")
             exact_fixture).
    by vm_compute.
  - destruct heur_fixture_wf as (Hl & Hs & Hst).
    apply (proj2 add_hint_twice); [|rewrite Hl; simpl; lia|done|done].
    by apply (bool_decide_unpack _).
Defined.

(** ** Validation *)

(** C7, the failing inputs. In the exact session [add_word_hint] checks
    nothing: a label shorter than the word, and a label with a symbol
    outside '0', '1', '2', are both recorded as hints, no exception is
    raised, and every pool is pruned to the empty list. *)
Theorem exact_add_word_hint_unvalidated :
  Exact.add_word_hint (str_of "roate") (str_of "0010") exact_fixture
  = (Exact.mkState 5 [(str_of "roate", str_of "0010")]
       [("allowed", (pool_allowed, [])); ("answers", (pool_answers, []))],
     Ok ()) ∧
  Exact.add_word_hint (str_of "allay") (str_of "11x02") exact_fixture
  = (Exact.mkState 5 [(str_of "allay", str_of "11x02")]
       [("allowed", (pool_allowed, [])); ("answers", (pool_answers, []))],
     Ok ()).
Proof. split; by vm_compute. Qed.

(** In the heuristic session the two assertions come before any
    mutation: an invalid hint raises and leaves the whole state as it
    was. *)
Lemma heur_add_word_hint_atomic word label s :
  ¬ valid_hint word label →
  (Heur.add_word_hint word label s).1 = s ∧
  ∃ msg, (Heur.add_word_hint word label s).2 = Raise (AssertionError msg).
Proof.
  intros Hv. destruct (heur_add_word_hint_invalid word label s Hv) as [msg ->].
  eauto.
Qed.

(** ** The exact score *)

Lemma mapM_cons {A B} (f : A → result B) x l :
  mapM f (x :: l)
  = match f x with
    | Ok y => match mapM f l with
              | Ok k => Ok (y :: k)
              | Raise e => Raise e
              end
    | Raise e => Raise e
    end.
Proof. done. Qed.

Lemma mapM_Ok {A B} (f : A → result B) l k :
  Forall2 (λ x y, f x = Ok y) l k → mapM f l = Ok k.
Proof.
  induction 1 as [|x y l k Hxy _ IH]; [done|].
  by rewrite mapM_cons, Hxy, IH.
Qed.

Lemma mapM_Ok_inv {A B} (f : A → result B) l k :
  mapM f l = Ok k → Forall2 (λ x y, f x = Ok y) l k.
Proof.
  revert k. induction l as [|x l IH]; intros k.
  - intros [= <-]. constructor.
  - rewrite mapM_cons. destruct (f x) as [y|e] eqn:Hx; [|done].
    destruct (mapM f l) as [k'|e]; [|done].
    intros [= <-]. constructor; [done|]. by apply IH.
Qed.

Lemma mapM_total {A B} (f : A → result B) (g : A → B) l :
  Forall (λ x, f x = Ok (g x)) l → mapM f l = Ok (g <$> l).
Proof.
  intros Hl. apply mapM_Ok, Forall2_fmap_r, Forall_Forall2_diag.
  eapply Forall_impl; [exact Hl|]. done.
Qed.

Lemma sumZ_cons v l : sumZ (v :: l) = v + sumZ l.
Proof. done. Qed.

Lemma sumZ_perm l1 l2 : l1 ≡ₚ l2 → sumZ l1 = sumZ l2.
Proof. induction 1; simpl; lia. Qed.

Lemma values_insert `{Countable K} {V} (d : gmap K V) k v :
  values (<[k := v]> d) ≡ₚ v :: values (delete k d).
Proof.
  rewrite <- insert_delete_eq. unfold values.
  by rewrite map_to_list_insert by apply lookup_delete_eq.
Qed.

Lemma values_lookup `{Countable K} {V} (d : gmap K V) k v :
  d !! k = Some v → values d ≡ₚ v :: values (delete k d).
Proof.
  intros Hk. unfold values. by rewrite <- (map_to_list_delete d k v Hk).
Qed.

(** The counts of a [Counter] are positive and add up to the number of
    elements counted. *)
Lemma Counter_foldl_values `{Countable K} (l : list K) (d : gmap K Z) :
  Forall (λ v, 1 ≤ v) (values d) →
  Forall (λ v, 1 ≤ v)
         (values (foldl (λ d x, <[x := get0 d x + 1]> d) d l)) ∧
  sumZ (values (foldl (λ d x, <[x := get0 d x + 1]> d) d l))
  = sumZ (values d) + Z.of_nat (length l).
Proof.
  revert d. induction l as [|x l IH]; intros d Hd; cbn [foldl].
  { split; [done|]. simpl. lia. }
  assert (Hstep :
    Forall (λ v, 1 ≤ v) (values (<[x := get0 d x + 1]> d)) ∧
    sumZ (values (<[x := get0 d x + 1]> d)) = sumZ (values d) + 1).
  { pose proof (values_insert d x (get0 d x + 1)) as Hins.
    rewrite (sumZ_perm _ _ Hins).
    assert (Hrest : Forall (λ v, 1 ≤ v) (values (delete x d)) ∧
                    sumZ (values d)
                    = get0 d x + sumZ (values (delete x d)) ∧
                    0 ≤ get0 d x).
    { unfold get0. destruct (d !! x) as [v0|] eqn:Hx; simpl.
      - pose proof (values_lookup d x v0 Hx) as Hperm.
        rewrite (sumZ_perm _ _ Hperm). rewrite Hperm in Hd.
        apply Forall_cons in Hd as [Hv0 Hd]. simpl.
        split; [done|]. split; lia.
      - rewrite (delete_id d x Hx). split; [done|]. split; lia. }
    destruct Hrest as (Hd' & Hs' & Hx). split.
    - rewrite Hins. constructor; [lia|done].
    - simpl. lia. }
  destruct Hstep as [Hd' Hsum]. destruct (IH _ Hd') as [HF Hs].
  split; [done|]. rewrite Hs, Hsum. cbn [length]. lia.
Qed.

Lemma Counter_values `{Countable K} (l : list K) :
  Forall (λ v, 1 ≤ v) (values (Counter l)) ∧
  sumZ (values (Counter l)) = Z.of_nat (length l).
Proof.
  unfold Counter.
  destruct (Counter_foldl_values l ∅) as [HF Hs].
  { unfold values. rewrite map_to_list_empty. constructor. }
  split; [done|]. rewrite Hs. unfold values.
  by rewrite map_to_list_empty.
Qed.

(** Sums of squares of positive integers. *)
Lemma sum_squares_bounds (vs : list Z) :
  Forall (λ v, 1 ≤ v) vs →
  sumZ vs ≤ sumZ ((λ v, v * v) <$> vs) ≤ sumZ vs * sumZ vs ∧
  (sumZ ((λ v, v * v) <$> vs) = sumZ vs ↔ Forall (λ v, v = 1) vs).
Proof.
  induction 1 as [|v vs Hv Hvs (IHb & IHe)].
  { simpl. split; [lia|]. split; [constructor|done]. }
  rewrite fmap_cons, !sumZ_cons.
  assert (0 ≤ sumZ vs) by (clear -Hvs; induction Hvs; simpl; lia).
  assert (v ≤ v * v) by nia.
  assert (0 ≤ v * sumZ vs) by nia.
  split; [split; [lia|]|].
  { replace ((v + sumZ vs) * (v + sumZ vs))
      with (v * v + 2 * (v * sumZ vs) + sumZ vs * sumZ vs) by ring. lia. }
  rewrite Forall_cons. split.
  - intros Heq. assert (v * v = v) by lia. assert (v = 1) by nia. subst v.
    split; [done|]. apply IHe. lia.
  - intros [-> Hall]. apply IHe in Hall. lia.
Qed.

Lemma int64_small z : - 2 ^ 63 ≤ z < 2 ^ 63 → int64 z = z.
Proof. intros Hz. unfold int64. rewrite Z.mod_small; lia. Qed.

(** Within range, NumPy's squares and sum are the mathematical ones. *)
Lemma np_sum_square_small (vs : list Z) :
  Forall (λ v, 1 ≤ v) vs →
  sumZ ((λ v, v * v) <$> vs) < 2 ^ 63 →
  np_sum (np_square vs) = sumZ ((λ v, v * v) <$> vs).
Proof.
  intros Hvs Hb. unfold np_sum, np_square.
  assert (Hgen : ∀ acc, 0 ≤ acc →
    acc + sumZ ((λ v, v * v) <$> vs) < 2 ^ 63 →
    foldl (λ acc v, int64 (acc + v)) acc ((λ v, int64 (v * v)) <$> vs)
    = acc + sumZ ((λ v, v * v) <$> vs)).
  { clear Hb. induction Hvs as [|v vs Hv Hvs IH]; intros acc Hacc Hb;
      [simpl; lia|].
    rewrite !fmap_cons, sumZ_cons in *. cbn [foldl].
    assert (0 ≤ sumZ ((λ v, v * v) <$> vs)).
    { clear -Hvs. induction Hvs; [done|].
      rewrite fmap_cons, sumZ_cons. nia. }
    rewrite (int64_small (v * v)) by nia.
    rewrite (int64_small (acc + v * v)) by nia.
    rewrite IH by nia. lia. }
  rewrite Hgen; lia.
Qed.

(** C5. For a guess scored against the candidate answers [cands] (the
    pruned list of the pool [anstype]), with the guess no longer than the
    candidates and [|cands|²] within [int64]: [get_score] returns; the
    partition sizes, the counts of the labels [get_label word w] over
    [cands], add up to [|cands|]; the score is the sum of their squares;
    it is at least [|cands|], and equal to it exactly when every
    partition has size 1. *)
Theorem get_score_partitions (s : Exact.state) (word : str)
    (anstype : string) (orig cands : list str) :
  Exact.words_getitem s anstype = Ok (orig, cands) →
  Forall (λ w, (length word ≤ length w)%nat) cands →
  Z.of_nat (length cands) * Z.of_nat (length cands) < 2 ^ 63 →
  ∃ labels score,
    mapM (Exact.get_label word) cands = Ok labels ∧
    Exact.get_score s word anstype = Ok score ∧
    (∀ l, get0 (Counter labels) l = occurrences l labels) ∧
    sumZ (values (Counter labels)) = Z.of_nat (length cands) ∧
    score = sumZ ((λ v, v * v) <$> values (Counter labels)) ∧
    Z.of_nat (length cands) ≤ score ∧
    (score = Z.of_nat (length cands) ↔
     Forall (λ v, v = 1) (values (Counter labels))).
Proof.
  intros Hget Hlen Hbound.
  set (enc := λ w, present_marks word (exact_marks word w)
                     (exact_counts word w (Counter w))).
  assert (Hlabels : mapM (Exact.get_label word) cands = Ok (enc <$> cands)).
  { apply mapM_total. eapply Forall_impl; [exact Hlen|].
    intros w Hw. by apply get_label_run. }
  destruct (Counter_values (enc <$> cands)) as [Hpos Hsum].
  rewrite length_fmap in Hsum.
  destruct (sum_squares_bounds _ Hpos) as [[Hlo Hhi] Heq].
  rewrite Hsum in Hlo, Hhi, Heq.
  exists (enc <$> cands), (sumZ ((λ v, v * v) <$> values (Counter (enc <$> cands)))).
  split; [done|]. split.
  - unfold Exact.get_score. rewrite Hget. cbn [mbind result_bind snd].
    change (mapM (λ w, Exact.get_label word w) cands)
      with (mapM (Exact.get_label word) cands).
    rewrite Hlabels. cbn [mbind result_bind].
    rewrite np_sum_square_small; [done|exact Hpos|lia].
  - split; [intros l; apply Counter_get0|]. split; [done|].
    split; [done|]. split; [done|]. exact Heq.
Qed.

Lemma get_score_partitions_witness :
  ∃ labels score,
    mapM (Exact.get_label (str_of "allay")) pool_answers = Ok labels ∧
    Exact.get_score exact_fixture (str_of "allay") "answers" = Ok score ∧
    (∀ l, get0 (Counter labels) l = occurrences l labels) ∧
    sumZ (values (Counter labels)) = Z.of_nat (length pool_answers) ∧
    score = sumZ ((λ v, v * v) <$> values (Counter labels)) ∧
    Z.of_nat (length pool_answers) ≤ score ∧
    (score = Z.of_nat (length pool_answers) ↔
     Forall (λ v, v = 1) (values (Counter labels))).
Proof.
  apply (get_score_partitions exact_fixture (str_of "allay") "answers"
           pool_answers pool_answers).
  - reflexivity.
  - by repeat constructor.
  - by vm_compute.
Defined.

(** ** The information of a distribution *)

Lemma ln_le (x y : R) : (0 < x)%R → (x <= y)%R → (ln x <= ln y)%R.
Proof.
  intros Hx [Hlt| ->]; [|lra]. left. by apply ln_increasing.
Qed.

Lemma ln_nonpos (p : R) : (0 < p <= 1)%R → (ln p <= 0)%R.
Proof. intros [Hp H1]. rewrite <- ln_1. by apply ln_le. Qed.

Lemma filter_IZR (l : list Z) :
  filter (λ x, (0 < x)%R) (IZR <$> l) = IZR <$> filter (λ z, 0 < z) l.
Proof.
  induction l as [|z l IH]; [done|].
  rewrite fmap_cons, !filter_cons, IH.
  destruct (decide (0 < z)) as [Hz|Hz].
  - rewrite decide_True; [done|]. by apply IZR_lt.
  - rewrite decide_False; [done|]. intros Hr. by apply lt_IZR in Hr.
Qed.

Lemma get_information_unfold (l : list Z) :
  Heur.get_information l
  = match filter (λ z, 0 < z) l with
    | [] => 0%R
    | pos => (- info_terms (sumR (IZR <$> pos)) (IZR <$> pos))%R
    end.
Proof.
  unfold Heur.get_information. rewrite filter_IZR.
  by destruct (filter (λ z, 0 < z) l).
Qed.

Lemma sumR_bounds (ec : list R) :
  Forall (λ x, (0 < x)%R) ec →
  (0 <= sumR ec)%R ∧ Forall (λ x, (0 < x <= sumR ec)%R) ec.
Proof.
  induction 1 as [|x ec Hx _ [IH0 IH]]; simpl.
  { split; [lra|constructor]. }
  split; [lra|]. constructor; [lra|].
  eapply Forall_impl; [exact IH|]. simpl. intros y ?. lra.
Qed.

Lemma info_terms_nonpos (total : R) (ec : list R) :
  (0 < total)%R → Forall (λ x, (0 < x <= total)%R) ec →
  (info_terms total ec <= 0)%R.
Proof.
  intros HT. unfold info_terms. induction 1 as [|x ec [Hx Hle] _ IH].
  { simpl. lra. }
  rewrite !fmap_cons. cbn [sumR foldr]. fold (sumR
    ((λ x, x * ln x)%R <$> ((λ x, x / total)%R <$> ec))).
  assert (Hp : (0 < x / total <= 1)%R).
  { split; [by apply Rdiv_lt_0_compat|].
    assert (Hxp : x = (x / total * total)%R) by (field; lra).
    pose proof (Rdiv_lt_0_compat x total Hx HT). nra. }
  pose proof (ln_nonpos _ Hp). destruct Hp. nra.
Qed.

Lemma get_information_nonneg (l : list Z) : (0 <= Heur.get_information l)%R.
Proof.
  rewrite get_information_unfold.
  destruct (filter (λ z, 0 < z) l) as [|z pos] eqn:Hpos; [lra|].
  assert (HF : Forall (λ x, (0 < x)%R) (IZR <$> z :: pos)).
  { apply Forall_fmap, Forall_forall. intros y Hy.
    rewrite <- Hpos in Hy. apply list_elem_of_filter in Hy as [Hy _].
    simpl. by apply IZR_lt. }
  destruct (sumR_bounds _ HF) as [_ Hb].
  assert (HT : (0 < sumR (IZR <$> z :: pos))%R).
  { apply Forall_cons in Hb as [[? ?] _]. lra. }
  pose proof (info_terms_nonpos _ _ HT Hb). lra.
Qed.

(** Splitting one event of a distribution in two does not lose
    information: the three-way distribution of a letter at a position
    carries at least the information of the two-way one of the letter. *)
Lemma get_information_refines (a b c : Z) :
  0 ≤ a → 0 ≤ b →
  (Heur.get_information [(a + b)%Z; c] <= Heur.get_information [a; b; c])%R.
Proof.
  intros Ha Hb.
  destruct (decide (a = 0)) as [->|Ha0].
  { rewrite Z.add_0_l, !get_information_unfold.
    rewrite (filter_cons _ 0), decide_False by lia. apply Rle_refl. }
  destruct (decide (b = 0)) as [->|Hb0].
  { rewrite Z.add_0_r, !get_information_unfold.
    rewrite (filter_cons _ a (0 :: _)), (filter_cons _ 0).
    rewrite (decide_False (P := 0 < 0)) by lia.
    rewrite <- (filter_cons _ a). apply Rle_refl. }
  rewrite !get_information_unfold.
  rewrite (filter_cons _ (a + b)), (filter_cons _ a), (filter_cons _ b).
  rewrite (decide_True (P := 0 < a + b)) by lia.
  rewrite (decide_True (P := 0 < a)) by lia.
  rewrite (decide_True (P := 0 < b)) by lia.
  set (rest := filter (λ z, 0 < z) [c]).
  cbv zeta. rewrite !fmap_cons. unfold info_terms. rewrite !fmap_cons.
  cbn [sumR foldr]. fold (sumR (IZR <$> rest)). rewrite plus_IZR.
  set (A := IZR a). set (B := IZR b). set (C := sumR (IZR <$> rest)).
  assert (HA : (0 < A)%R) by (apply IZR_lt; lia).
  assert (HB : (0 < B)%R) by (apply IZR_lt; lia).
  assert (HC : (0 <= C)%R).
  { apply sumR_bounds, Forall_fmap, Forall_forall.
    intros z [Hz _]%list_elem_of_filter. by apply IZR_lt. }
  replace (A + (B + C))%R with (A + B + C)%R by ring.
  set (T := (A + B + C)%R). assert (HT : (0 < T)%R) by (unfold T; lra).
  fold (sumR ((λ x, x * ln x)%R <$> ((λ x, x / T)%R <$> (IZR <$> rest)))).
  set (S := sumR ((λ x, x * ln x)%R <$> ((λ x, x / T)%R <$> (IZR <$> rest)))).
  assert (HpA : (0 < A / T)%R) by (by apply Rdiv_lt_0_compat).
  assert (HpB : (0 < B / T)%R) by (by apply Rdiv_lt_0_compat).
  assert (Hsplit : ((A + B) / T = A / T + B / T)%R) by (field; lra).
  assert (HlA : (ln (A / T) <= ln ((A + B) / T))%R)
    by (apply ln_le; [done|lra]).
  assert (HlB : (ln (B / T) <= ln ((A + B) / T))%R)
    by (apply ln_le; [done|lra]).
  rewrite Hsplit in *. nra.
Qed.

(** ** The heuristic score *)

(** At a position of the session, both pieces of information about a
    letter are returned, and the positional one is the larger. *)
Lemma char_infos s c p :
  heur_stats s → (p < Heur._len s)%nat →
  ∃ x y, Heur.get_char_pos_info_approx s c p = Ok x ∧
         Heur.get_char_info s c = Ok y ∧ (0 <= y <= x)%R.
Proof.
  intros (_ & Hkeys & Hvals) Hp.
  unfold Heur.get_char_pos_info_approx, Heur.get_char_info.
  destruct (decide (c ∉ Heur.chars s)) as [Hc|Hc].
  { exists 0%R, 0%R. split; [done|]. split; [done|]. lra. }
  apply dec_stable in Hc.
  destruct (Hkeys c Hc) as ([i Hi] & [n Hn] & Hpos).
  destruct (Hpos p Hp) as [k Hk]. destruct (Hvals c) as [Hn0 Hk0].
  specialize (Hk0 p). unfold notin_of, pos_of, in_of, get0 in *.
  rewrite Hn in Hn0. rewrite Hk, Hi in Hk0. simpl in *.
  unfold look2 in Hk. destruct (Heur.char_pos_counts s !! c) as [d|] eqn:Hd;
    [|done].
  simpl in Hk. unfold getitem. rewrite Hi, Hn, Hd. cbn [mbind result_bind].
  rewrite Hk. cbn [mbind result_bind].
  eexists _, _. split; [done|]. split; [done|].
  split; [apply get_information_nonneg|].
  pose proof (get_information_refines k (i - k) n) as Href.
  replace (k + (i - k)) with i in Href by lia. apply Href; lia.
Qed.

(** A letter that is in no candidate word gives no information. *)
Lemma char_infos_absent s c p :
  c ∉ Heur.chars s →
  Heur.get_char_pos_info_approx s c p = Ok 0%R ∧
  Heur.get_char_info s c = Ok 0%R.
Proof.
  intros Hc. unfold Heur.get_char_pos_info_approx, Heur.get_char_info.
  by rewrite !decide_True.
Qed.

Lemma word_info_loop s (rest : str) (i : nat) (info : R) (wc : gset ascii) :
  heur_stats s → (i + length rest ≤ Heur._len s)%nat →
  ∃ info' wc',
    foldM (M := result) (Heur.word_info_step s) (info, wc)
          (zip (seq i (length rest)) rest) = Ok (info', wc') ∧
    (info <= info')%R.
Proof.
  intros Hst. revert i info wc.
  induction rest as [|c rest IH]; intros i info wc Hlen.
  { exists info, wc. split; [done|]. lra. }
  cbn [length seq zip zip_with foldM]. simpl in Hlen.
  destruct (char_infos s c i Hst ltac:(lia)) as (x & y & Hx & Hy & Hxy).
  unfold Heur.word_info_step at 2. rewrite Hx. cbn [mbind result_bind].
  destruct (decide (c ∈ wc)).
  - rewrite Hy. cbn [mbind result_bind].
    destruct (IH (S i) (info + x - y)%R wc ltac:(lia))
      as (info' & wc' & Hrun & Hle).
    exists info', wc'. split; [done|]. lra.
  - cbn [mbind result_bind].
    destruct (IH (S i) (info + x)%R ({[c]} ∪ wc) ltac:(lia))
      as (info' & wc' & Hrun & Hle).
    exists info', wc'. split; [done|]. lra.
Qed.

Lemma word_info_loop_absent s (rest : str) (i : nat) (info : R)
    (wc : gset ascii) :
  (∀ c, c ∈ rest → c ∉ Heur.chars s) →
  ∃ wc', foldM (M := result) (Heur.word_info_step s) (info, wc)
               (zip (seq i (length rest)) rest) = Ok (info, wc').
Proof.
  revert i info wc.
  induction rest as [|c rest IH]; intros i info wc Habs.
  { by exists wc. }
  cbn [length seq zip zip_with foldM].
  destruct (char_infos_absent s c i) as [Hx Hy]; [apply Habs; by left|].
  unfold Heur.word_info_step at 2. rewrite Hx. cbn [mbind result_bind].
  assert (Hrest : ∀ c', c' ∈ rest → c' ∉ Heur.chars s)
    by (intros c' Hc'; apply Habs; by right).
  destruct (decide (c ∈ wc)).
  - rewrite Hy. cbn [mbind result_bind].
    replace (info + 0 - 0)%R with info by lra. by apply IH.
  - cbn [mbind result_bind]. replace (info + 0)%R with info by lra.
    by apply IH.
Qed.

(** C4. In a session whose statistics are in order, the heuristic score
    of every word no longer than the session's length is returned and is
    non-negative, repeated letters included; and the score of a word none
    of whose letters occurs in a candidate word is exactly 0 (whatever
    its length).  The scores are computed over the reals. *)
Theorem word_info_nonneg_and_zero :
  (∀ s word,
     heur_stats s → (length word ≤ Heur._len s)%nat →
     ∃ info, Heur.get_word_info_approx s word = Ok info ∧ (0 <= info)%R) ∧
  (∀ s word,
     heur_stats s →
     (∀ c w, c ∈ word → w ∈ Heur.answer_words s → c ∉ w) →
     Heur.get_word_info_approx s word = Ok 0%R).
Proof.
  split.
  - intros s word Hst Hlen. unfold Heur.get_word_info_approx, enumerate.
    destruct (word_info_loop s word 0 0%R ∅ Hst ltac:(lia))
      as (info & wc & -> & Hle).
    by exists info.
  - intros s word (Hchars & _) Habs.
    unfold Heur.get_word_info_approx, enumerate.
    destruct (word_info_loop_absent s word 0 0%R ∅) as [wc ->]; [|done].
    intros c Hc. rewrite Hchars, elem_of_letters.
    intros (w & Hw & Hcw). by apply (Habs c w).
Qed.

Lemma word_info_nonneg_and_zero_witness :
  (∃ info, Heur.get_word_info_approx heur_fixture (str_of "allay") = Ok info ∧
           (0 <= info)%R) ∧
  Heur.get_word_info_approx heur_fixture (str_of "quiz") = Ok 0%R.
Proof.
  destruct heur_fixture_wf as (Hl & Hs & Hst). split.
  - apply (proj1 word_info_nonneg_and_zero); [done|].
    rewrite Hl. by vm_compute.
  - apply (proj2 word_info_nonneg_and_zero); [done|].
    intros c w Hc Hw.
    assert (Ha : Heur.answer_words heur_fixture = list_to_set pool_answers).
    { unfold heur_fixture, Heur.init.
      by rewrite update_stats_answer_words. }
    rewrite Ha in Hw. apply elem_of_list_to_set in Hw.
    revert c Hc. apply Forall_forall. revert w Hw. apply Forall_forall.
    by apply (bool_decide_unpack _).
Defined.

(** ** Ranking *)

Lemma slice_to_nonneg {A} (K : Z) (l : list A) :
  0 ≤ K → slice_to K l = take (Z.to_nat K) l.
Proof. intros. unfold slice_to. by rewrite decide_True. Qed.

Lemma print_results_run {A} (words : list str) (scores : list A) order :
  length words = length scores →
  Forall (λ i, (i < length words)%nat) order →
  ∃ out, print_results words scores order = Ok out ∧
         Forall2 (λ i (o : str * A),
                    words !! i = Some o.1 ∧ scores !! i = Some o.2)
                 order out.
Proof.
  intros Hlen Hord. unfold print_results.
  induction Hord as [|i order Hi _ (out & Hrun & Hout)].
  { exists []. split; [done|constructor]. }
  destruct (lookup_lt_is_Some_2 words i Hi) as [w Hw].
  destruct (lookup_lt_is_Some_2 scores i ltac:(lia)) as [sc Hsc].
  exists ((w, sc) :: out). split; [|by constructor].
  rewrite mapM_cons, Hrun. unfold index. by rewrite Hw, Hsc.
Qed.

(** The first [k] indices of an ordering of the pool give a ranking. *)
Lemma ranking_of_sorted {A} (R : relation A) (words : list str)
    (scores : list A) (order : list nat) (k : nat) :
  length words = length scores →
  order ≡ₚ seq 0 (length scores) →
  sorted_idx R scores order →
  ∃ out, print_results words scores (take k order) = Ok out ∧
         ranking R words scores k out.
Proof.
  intros Hlen Hperm Hsorted.
  assert (Hlt : Forall (λ i, (i < length words)%nat) order).
  { apply Forall_forall. intros i Hi. rewrite Hperm in Hi.
    apply elem_of_seq in Hi. lia. }
  destruct (print_results_run words scores (take k order) Hlen)
    as (out & Hrun & Hout); [by apply Forall_take|].
  exists out. split; [done|].
  assert (Hlo : length out = (k `min` length words)%nat).
  { rewrite <- (Forall2_length _ _ _ Hout), length_take.
    by rewrite (Permutation_length Hperm), length_seq, Hlen. }
  split; [done|]. split.
  - intros i j x y Hij Hx Hy.
    destruct (Forall2_lookup_r _ _ _ _ _ Hout Hx) as (a & Ha & _ & Hsa).
    destruct (Forall2_lookup_r _ _ _ _ _ Hout Hy) as (b & Hb & _ & Hsb).
    apply lookup_take_Some in Ha as [Ha _].
    apply lookup_take_Some in Hb as [Hb _].
    by eapply (Hsorted i j a b).
  - exists order. split; [by rewrite Hlen|]. split; [done|].
    intros i sc o Hi Hsc Ho.
    apply list_elem_of_lookup in Hi as [j Hj]. rewrite lookup_drop in Hj.
    apply list_elem_of_lookup in Ho as [i' Hi'].
    destruct (Forall2_lookup_r _ _ _ _ _ Hout Hi') as (a & Ha & _ & Hsa).
    apply lookup_take_Some in Ha as [Ha Hlt'].
    eapply (Hsorted i' (k + j)%nat a i); (done || lia).
Qed.

Lemma sorted_idx_reverse {A} (R : relation A) (scores : list A) order :
  sorted_idx R scores order → sorted_idx (flip R) scores (reverse order).
Proof.
  intros Hsorted i j a b x y Hij Ha Hb Hx Hy.
  apply reverse_lookup_Some in Ha as [Ha Hi].
  apply reverse_lookup_Some in Hb as [Hb Hj].
  eapply (Hsorted _ _ b a); [|done..]. lia.
Qed.

Lemma StronglySorted_lookup_lt {A} (R : relation A) (l : list A) i j x y :
  StronglySorted R l → (i < j)%nat →
  l !! i = Some x → l !! j = Some y → R x y.
Proof.
  intros Hl. revert i j.
  induction Hl as [|z l Hl IH Hz]; intros i j Hij Hx Hy; [done|].
  destruct j as [|j]; [lia|]. simpl in Hy. destruct i as [|i]; simpl in Hx.
  - injection Hx as ->. rewrite Forall_forall in Hz. apply Hz.
    by eapply list_elem_of_lookup_2.
  - apply (IH i j); (done || lia).
Qed.

(** *** The stable argsort *)

Section stable_argsort_spec.
Context {A : Type} (le : relation A) `{!RelDecision le}.
Context `{!Transitive le, !Total le}.

Local Abbreviation R := (by_score le).

Lemma insert_by_perm x l : insert_by le x l ≡ₚ x :: l.
Proof using Type.
  induction l as [|y l IH]; [done|]. simpl.
  case_decide; [done|]. rewrite IH. apply Permutation_swap.
Qed.

Lemma insert_by_sorted x l :
  StronglySorted R l → StronglySorted R (insert_by le x l).
Proof using Type*.
  induction 1 as [|y l Hl IH Hy]; simpl.
  { by repeat constructor. }
  case_decide as Hxy.
  - constructor; [by constructor|]. constructor; [done|].
    eapply Forall_impl; [exact Hy|]. intros z Hz. unfold R in *.
    by etrans.
  - constructor; [done|]. rewrite insert_by_perm.
    constructor; [|done]. unfold R. by destruct (total le x.2 y.2).
Qed.

Lemma insertion_sorted l :
  foldr (insert_by le) [] l ≡ₚ l ∧
  StronglySorted R (foldr (insert_by le) [] l).
Proof using Type*.
  induction l as [|x l [IHp IHs]]; simpl; [by split; [|constructor]|].
  split; [by rewrite insert_by_perm, IHp|by apply insert_by_sorted].
Qed.

Lemma enumerate_lookup (scores : list A) i x :
  (i, x) ∈ enumerate scores → scores !! i = Some x.
Proof using Type.
  unfold enumerate. intros Hin.
  apply list_elem_of_lookup in Hin as [j Hj].
  apply lookup_zip_with_Some in Hj as (a & b & [= <- <-] & Ha & Hb).
  apply lookup_seq in Ha as [-> _]. done.
Qed.

Lemma argsort_stable_sorts : sorts_by le (argsort_stable le).
Proof using Type*.
  intros scores. unfold argsort_stable.
  destruct (insertion_sorted (enumerate scores)) as [Hperm Hsorted].
  split.
  - rewrite Hperm. unfold enumerate. by rewrite fst_zip by (by rewrite length_seq).
  - intros i j a b x y Hij Ha Hb Hx Hy.
    apply list_lookup_fmap_Some in Ha as ([a' xa] & -> & Ha).
    apply list_lookup_fmap_Some in Hb as ([b' xb] & -> & Hb).
    simpl in *.
    assert (Hxa : scores !! a' = Some xa).
    { apply enumerate_lookup. rewrite <- Hperm.
      by eapply list_elem_of_lookup_2. }
    assert (Hxb : scores !! b' = Some xb).
    { apply enumerate_lookup. rewrite <- Hperm.
      by eapply list_elem_of_lookup_2. }
    simplify_eq.
    by apply (StronglySorted_lookup_lt R _ i j (a', x) (b', y) Hsorted).
Qed.
End stable_argsort_spec.

Lemma mapM_exists {A B} (f : A → result B) l :
  Forall (λ x, ∃ y, f x = Ok y) l →
  ∃ k, mapM f l = Ok k ∧ length k = length l.
Proof.
  induction 1 as [|x l [y Hy] _ (k & Hk & Hlen)]; [by exists []|].
  exists (y :: k). rewrite mapM_cons, Hy, Hk. simpl. by rewrite Hlen.
Qed.

Lemma print_results_elem {A} (words : list str) (scores : list A) order out :
  print_results words scores order = Ok out →
  ∀ o, o ∈ out → o.1 ∈ words ∧ o.2 ∈ scores.
Proof.
  intros Hrun%mapM_Ok_inv o Ho.
  apply list_elem_of_lookup in Ho as [i Hi].
  destruct (Forall2_lookup_r _ _ _ _ _ Hrun Hi) as (idx & _ & Hidx).
  unfold index in Hidx.
  destruct (words !! idx) as [w|] eqn:Hw; [|done].
  destruct (scores !! idx) as [sc|] eqn:Hsc; [|done].
  cbn [mbind result_bind] in Hidx. injection Hidx as <-.
  split; by eapply list_elem_of_lookup_2.
Qed.

(** [get_score] returns when the guess is no longer than the candidate
    answers. *)
Lemma get_score_returns s (word : str) anstype answers :
  Exact.words_getitem s anstype = Ok answers →
  Forall (λ a, (length word ≤ length a)%nat) answers.2 →
  ∃ score, Exact.get_score s word anstype = Ok score.
Proof.
  intros Hget Hlen. unfold Exact.get_score. rewrite Hget.
  cbn [mbind result_bind].
  destruct (mapM_exists (λ w, Exact.get_label word w) answers.2)
    as (labels & -> & _); [|by eexists].
  eapply Forall_impl; [exact Hlen|]. intros a Ha. eexists.
  by apply get_label_run.
Qed.

Lemma word_info_returns s (word : str) :
  heur_stats s → (length word ≤ Heur._len s)%nat →
  ∃ info, Heur.get_word_info_approx s word = Ok info.
Proof.
  intros Hst Hlen. unfold Heur.get_word_info_approx, enumerate.
  destruct (word_info_loop s word 0 0%R ∅ Hst ltac:(lia))
    as (info & wc & -> & _).
  by exists info.
Qed.

Lemma exact_predict_ranks argsort s K searchtype anstype pruned pool answers :
  sorts_by Z.le argsort →
  Exact.words_getitem s searchtype = Ok pool →
  Exact.words_getitem s anstype = Ok answers →
  Forall (λ w : str, Forall (λ a, (length w ≤ length a)%nat) answers.2)
         (if pruned : bool then pool.2 else pool.1) →
  0 ≤ K →
  ∃ scores out,
    mapM (λ w, Exact.get_score s w anstype)
         (if pruned then pool.2 else pool.1) = Ok scores ∧
    Exact.predict argsort s K searchtype anstype pruned = Ok out ∧
    ranking Z.le (if pruned then pool.2 else pool.1) scores (Z.to_nat K) out.
Proof.
  intros Hsort Hpool Hans Hlen HK.
  set (words := if pruned then pool.2 else pool.1) in *.
  destruct (mapM_exists (λ w, Exact.get_score s w anstype) words)
    as (scores & Hscores & Hls).
  { eapply Forall_impl; [exact Hlen|]. intros w Hw.
    by eapply get_score_returns. }
  destruct (Hsort scores) as [Hperm Hsorted].
  destruct (ranking_of_sorted Z.le words scores (argsort scores)
              (Z.to_nat K)) as (out & Hrun & Hrank); [done..|].
  exists scores, out. split; [done|]. split; [|done].
  unfold Exact.predict. rewrite Hpool. cbn [mbind result_bind].
  fold words. rewrite Hscores. cbn [mbind result_bind].
  by rewrite slice_to_nonneg.
Qed.

Lemma heur_predict_ranks argsort s K can_ignore_hints :
  sorts_by Rle argsort →
  heur_stats s →
  Forall (λ w : str, (length w ≤ Heur._len s)%nat)
         (elements (if can_ignore_hints : bool then Heur.allowed_words s
                    else Heur.answer_words s)) →
  0 ≤ K →
  ∃ scores out,
    mapM (Heur.get_word_info_approx s)
         (elements (if can_ignore_hints then Heur.allowed_words s
                    else Heur.answer_words s)) = Ok scores ∧
    Heur.predict argsort s K can_ignore_hints = Ok out ∧
    ranking (flip Rle)
            (elements (if can_ignore_hints then Heur.allowed_words s
                       else Heur.answer_words s))
            scores (Z.to_nat K) out.
Proof.
  intros Hsort Hst Hlen HK.
  set (words := elements (if can_ignore_hints then Heur.allowed_words s
                          else Heur.answer_words s)) in *.
  destruct (mapM_exists (Heur.get_word_info_approx s) words)
    as (scores & Hscores & Hls).
  { eapply Forall_impl; [exact Hlen|]. intros w Hw.
    by apply word_info_returns. }
  destruct (Hsort scores) as [Hperm Hsorted].
  destruct (ranking_of_sorted (flip Rle) words scores
              (reverse (argsort scores)) (Z.to_nat K))
    as (out & Hrun & Hrank);
    [done|by rewrite reverse_Permutation|by apply sorted_idx_reverse|].
  exists scores, out. split; [done|]. split; [|done].
  unfold Heur.predict. fold words. rewrite Hscores.
  cbn [mbind result_bind]. by rewrite slice_to_nonneg.
Qed.

Lemma word_info_absent s (word : str) :
  (∀ c, c ∈ word → c ∉ Heur.chars s) →
  Heur.get_word_info_approx s word = Ok 0%R.
Proof.
  intros Habs. unfold Heur.get_word_info_approx, enumerate.
  by destruct (word_info_loop_absent s word 0 0%R ∅ Habs) as [wc ->].
Qed.

(** With a stable argsort, the heuristic ranker lists two tied words in
    the reverse of their order in the pool: it reads the ascending order
    backwards. *)
Lemma heur_predict_ties_reversed :
  sorts_by Rle (argsort_stable Rle) ∧
  elements (Heur.allowed_words tie_fixture) = [str_of "ef"; str_of "cd"] ∧
  Heur.predict (argsort_stable Rle) tie_fixture 2 true
  = Ok [(str_of "cd", 0%R); (str_of "ef", 0%R)] ∧
  ¬ ties_in_pool_order (elements (Heur.allowed_words tie_fixture))
      [(str_of "cd", 0%R); (str_of "ef", 0%R)].
Proof.
  assert (Hpool : elements (Heur.allowed_words tie_fixture)
                  = [str_of "ef"; str_of "cd"]) by (by vm_compute).
  split; [apply argsort_stable_sorts; apply _|]. split; [done|]. split.
  - unfold Heur.predict. rewrite Hpool, !mapM_cons.
    rewrite !word_info_absent.
    2,3: apply Forall_forall, (bool_decide_unpack _); by vm_compute.
    cbn [mapM mret result_ret mbind result_bind].
    unfold argsort_stable, enumerate. cbn [length seq zip zip_with foldr].
    cbn [insert_by snd]. rewrite decide_True by lra.
    by vm_compute.
  - rewrite Hpool. intros Hties.
    specialize (Hties 0 1 (str_of "cd", 0%R) (str_of "ef", 0%R) 1 0)%nat.
    simpl in Hties. specialize (Hties ltac:(lia) eq_refl eq_refl eq_refl
                                  eq_refl eq_refl). lia.
Qed.

(** C8, amended. For any argsort that sorts ascending, and with the
    scoring in range (guesses no longer than the answers; statistics in
    order): the exact ranker lists the [min K n] words of the pool with
    the least scores in ascending order of score, the heuristic ranker
    those with the greatest scores in descending order, each with its
    score and every word left out scoring no better than any listed; a
    [K] beyond the pool size lists the whole pool.  Nothing is promised
    on the order of equal scores. *)
Theorem predict_ranks_top_K :
  (∀ argsort s K searchtype anstype (pruned : bool) pool answers,
     sorts_by Z.le argsort →
     Exact.words_getitem s searchtype = Ok pool →
     Exact.words_getitem s anstype = Ok answers →
     Forall (λ w : str, Forall (λ a, (length w ≤ length a)%nat) answers.2)
            (if pruned then pool.2 else pool.1) →
     0 ≤ K →
     ∃ scores out,
       mapM (λ w, Exact.get_score s w anstype)
            (if pruned then pool.2 else pool.1) = Ok scores ∧
       Exact.predict argsort s K searchtype anstype pruned = Ok out ∧
       ranking Z.le (if pruned then pool.2 else pool.1) scores
               (Z.to_nat K) out) ∧
  (∀ argsort s K (can_ignore_hints : bool),
     sorts_by Rle argsort →
     heur_stats s →
     Forall (λ w : str, (length w ≤ Heur._len s)%nat)
            (elements (if can_ignore_hints then Heur.allowed_words s
                       else Heur.answer_words s)) →
     0 ≤ K →
     ∃ scores out,
       mapM (Heur.get_word_info_approx s)
            (elements (if can_ignore_hints then Heur.allowed_words s
                       else Heur.answer_words s)) = Ok scores ∧
       Heur.predict argsort s K can_ignore_hints = Ok out ∧
       ranking (flip Rle)
               (elements (if can_ignore_hints then Heur.allowed_words s
                          else Heur.answer_words s))
               scores (Z.to_nat K) out).
Proof.
  split.
  - intros. by eapply exact_predict_ranks.
  - intros. by apply heur_predict_ranks.
Qed.

Lemma predict_ranks_top_K_witness :
  (∃ scores out,
     mapM (λ w, Exact.get_score exact_fixture w "answers") pool_allowed
     = Ok scores ∧
     Exact.predict (argsort_stable Z.le) exact_fixture 5 "allowed" "answers"
                   true = Ok out ∧
     ranking Z.le pool_allowed scores (Z.to_nat 5) out) ∧
  (∃ scores out,
     mapM (Heur.get_word_info_approx heur_fixture)
          (elements (Heur.answer_words heur_fixture)) = Ok scores ∧
     Heur.predict (argsort_stable Rle) heur_fixture 10 false = Ok out ∧
     ranking (flip Rle) (elements (Heur.answer_words heur_fixture)) scores
             (Z.to_nat 10) out).
Proof.
  split.
  - apply (proj1 predict_ranks_top_K (argsort_stable Z.le) exact_fixture 5
             "allowed" "answers" true (pool_allowed, pool_allowed)
             (pool_answers, pool_answers)).
    + apply argsort_stable_sorts; apply _.
    + reflexivity.
    + reflexivity.
    + by apply (bool_decide_unpack _).
    + lia.
  - destruct heur_fixture_wf as (Hl & Hs & Hst).
    apply (proj2 predict_ranks_top_K (argsort_stable Rle) heur_fixture 10
             false).
    + apply argsort_stable_sorts; apply _.
    + done.
    + apply Forall_forall. intros w Hw%elem_of_elements.
      by rewrite (Hs w Hw).
    + lia.
Defined.

(** ** The pools of the exact session *)

Lemma words_getitem_elem s key v :
  Exact.words_getitem s key = Ok v → (key, v) ∈ Exact.words s.
Proof.
  unfold Exact.words_getitem.
  destruct (list_find _ _) as [[i [k v']]|] eqn:Hfind; [|done].
  intros [= <-]. apply list_find_Some in Hfind as (Hi & Hk & _).
  simpl in Hk. subst k. by eapply list_elem_of_lookup_2.
Qed.

Lemma exact_predict_elem argsort s K searchtype anstype pruned out :
  Exact.predict argsort s K searchtype anstype pruned = Ok out →
  ∃ pool, Exact.words_getitem s searchtype = Ok pool ∧
          ∀ o, o ∈ out → o.1 ∈ (if pruned : bool then pool.2 else pool.1).
Proof.
  unfold Exact.predict.
  destruct (Exact.words_getitem s searchtype) as [pool|e]; [|done].
  cbn [mbind result_bind].
  destruct (mapM _ _) as [scores|e]; [|done]. cbn [mbind result_bind].
  intros Hrun. exists pool. split; [done|]. intros o Ho.
  by destruct (print_results_elem _ _ _ _ Hrun o Ho).
Qed.

(** C10. In the exact session every pool is a pair (original, pruned).
    A call of [add_word_hint] that returns has kept the key and the
    original copy of every pool and has replaced the pruned copy of every
    pool, the allowed guesses like the answers, by its words consistent
    with the hints recorded so far, the new one included.  So, after a
    session that started with no hint recorded and every pruned copy
    equal to its original, the hints are recorded in order, every pool
    holds its original copy and that copy filtered by all the hints, and
    [predict] with [pruned=True] over any pool lists only words of that
    pool's original copy that are consistent with all the recorded
    hints. *)
Theorem pools_pruned_originals_kept :
  (∀ word label s s',
     Exact.add_word_hint word label s = (s', Ok ()) →
     Exact.hints s' = Exact.hints s ++ [(word, label)] ∧
     Forall2 (λ it it' : string * (list str * list str),
                it'.1 = it.1 ∧ it'.2.1 = it.2.1 ∧
                it'.2.2 = filter (consistent (Exact.hints s')) it.2.2)
             (Exact.words s) (Exact.words s')) ∧
  (∀ hs s0 s,
     Exact.hints s0 = [] →
     Forall (λ it : string * (list str * list str), it.2.2 = it.2.1)
            (Exact.words s0) →
     exact_session hs s0 = (s, Ok ()) →
     Exact.hints s = hs ∧
     Exact.words s
     = (λ it : string * (list str * list str),
          (it.1, (it.2.1, filter (consistent hs) it.2.1)))
       <$> Exact.words s0 ∧
     ∀ argsort K searchtype anstype out,
       Exact.predict argsort s K searchtype anstype true = Ok out →
       ∃ orig pruned,
         Exact.words_getitem s searchtype = Ok (orig, pruned) ∧
         ∀ o, o ∈ out → o.1 ∈ orig ∧ consistent hs o.1).
Proof.
  split.
  - intros word label s s' Hrun.
    by destruct (add_word_hint_Ok _ _ _ _ Hrun) as (_ & ? & ?).
  - intros hs s0 s Hh0 Hw0 Hrun.
    destruct (exact_session_fresh hs s0 s (conj Hh0 Hw0) Hrun)
      as (_ & Hh & Hwords).
    split; [done|]. split; [done|].
    intros argsort K searchtype anstype out Hout.
    destruct (exact_predict_elem _ _ _ _ _ _ _ Hout)
      as ([orig pruned] & Hget & Hin).
    exists orig, pruned. split; [done|]. intros o Ho'.
    specialize (Hin o Ho'). simpl in Hin.
    apply words_getitem_elem in Hget. rewrite Hwords in Hget.
    apply list_elem_of_fmap in Hget as ([k [o0 p0]] & [= -> -> ->] & _).
    simpl in Hin. apply list_elem_of_filter in Hin as [Hc Hin]. done.
Qed.

Lemma pools_pruned_originals_kept_witness :
  (∃ s', Exact.add_word_hint (str_of "allay") (str_of "11202") exact_fixture
         = (s', Ok ()) ∧
         Exact.hints s'
         = Exact.hints exact_fixture ++ [(str_of "allay", str_of "11202")] ∧
         Forall2 (λ it it' : string * (list str * list str),
                    it'.1 = it.1 ∧ it'.2.1 = it.2.1 ∧
                    it'.2.2 = filter (consistent (Exact.hints s')) it.2.2)
                 (Exact.words exact_fixture) (Exact.words s')) ∧
  (∃ s, exact_session [(str_of "allay", str_of "11202")] exact_fixture
        = (s, Ok ()) ∧
        Exact.hints s = [(str_of "allay", str_of "11202")] ∧
        Exact.words s
        = (λ it : string * (list str * list str),
             (it.1, (it.2.1,
                     filter (consistent [(str_of "allay", str_of "11202")])
                            it.2.1)))
          <$> Exact.words exact_fixture ∧
        ∀ argsort K searchtype anstype out,
          Exact.predict argsort s K searchtype anstype true = Ok out →
          ∃ orig pruned,
            Exact.words_getitem s searchtype = Ok (orig, pruned) ∧
            ∀ o, o ∈ out →
                 o.1 ∈ orig ∧
                 consistent [(str_of "allay", str_of "11202")] o.1).
Proof.
  split.
  - eexists. split; [by vm_compute|].
    apply (proj1 pools_pruned_originals_kept). by vm_compute.
  - eexists. split; [by vm_compute|].
    apply (proj2 pools_pruned_originals_kept
             [(str_of "allay", str_of "11202")] exact_fixture).
    + reflexivity.
    + by repeat constructor.
    + by vm_compute.
Defined.

(** * Further properties *)

(** ** The encoder: outcome, alphabet and counts *)

Lemma present_marks_values (w xs : str) cc :
  Forall (λ x, x = "0"%char ∨ x = "2"%char) xs →
  Forall (λ x, x ∈ ["0"; "1"; "2"]%char) (present_marks w xs cc).
Proof.
  intros Hxs. revert w cc.
  induction Hxs as [|x xs Hx _ IH]; intros [|c w] cc; simpl;
    try by constructor.
  case_match; constructor; try apply IH.
  - set_solver.
  - destruct Hx as [-> | ->]; set_solver.
Qed.

Lemma unmarked_cons c d x (w xs : str) :
  unmarked c (d :: w) (x :: xs)
  = (if decide (d = c ∧ x = "0"%char) then 1 else 0) + unmarked c w xs.
Proof.
  unfold unmarked. cbn [zip zip_with]. rewrite filter_cons. simpl.
  case_decide; cbn [length]; lia.
Qed.

Lemma unmarked_nonneg c (w xs : str) : 0 ≤ unmarked c w xs.
Proof. unfold unmarked. lia. Qed.

(** Every position of the guess is counted once: CORRECT or PRESENT, or
    ABSENT. *)
Lemma marked_unmarked c (w label : str) :
  length label = length w →
  Forall (λ x, x ∈ ["0"; "1"; "2"]%char) label →
  marked c w label + unmarked c w label = occurrences c w.
Proof.
  revert label. induction w as [|d w IH]; intros [|x label] Hlen Hl;
    try (simpl in Hlen; lia).
  { unfold marked, unmarked, occurrences. simpl. lia. }
  apply Forall_cons in Hl as [Hx Hl]. simpl in Hlen.
  rewrite marked_cons, unmarked_cons, occurrences_cons.
  specialize (IH label ltac:(lia) Hl).
  destruct (decide (d = c)) as [->|Hne].
  - assert (Hcases : x = "0"%char ∨ x = "1"%char ∨ x = "2"%char)
      by set_solver.
    destruct Hcases as [-> | [-> | ->]].
    + rewrite decide_False by (intros [_ [?|?]]; done).
      rewrite decide_True by done. lia.
    + rewrite decide_True by eauto.
      rewrite decide_False by (intros [_ ?]; done). lia.
    + rewrite decide_True by eauto.
      rewrite decide_False by (intros [_ ?]; done). lia.
  - rewrite !decide_False by (intros [? _]; done). lia.
Qed.

Lemma marked_exact_unmarked c (w xs : str) :
  length xs = length w →
  Forall (λ x, x = "0"%char ∨ x = "2"%char) xs →
  marked_exact c w xs + unmarked c w xs = occurrences c w.
Proof.
  revert xs. induction w as [|d w IH]; intros [|x xs] Hlen Hxs;
    try (simpl in Hlen; lia).
  { unfold marked_exact, unmarked, occurrences. simpl. lia. }
  apply Forall_cons in Hxs as [Hx Hxs]. simpl in Hlen.
  rewrite marked_exact_cons, unmarked_cons, occurrences_cons.
  specialize (IH xs ltac:(lia) Hxs).
  destruct (decide (d = c)) as [->|Hne].
  - destruct Hx as [-> | ->].
    + rewrite decide_False by (intros [_ ?]; done).
      rewrite decide_True by done. lia.
    + rewrite decide_True by done.
      rewrite decide_False by (intros [_ ?]; done). lia.
  - rewrite !decide_False by (intros [? _]; done). lia.
Qed.

(** The second loop labels a letter PRESENT as often as it can: on every
    position left of that letter, until its count is used up. *)
Lemma present_marks_count (w xs : str) cc c :
  length xs = length w →
  Forall (λ x, x = "0"%char ∨ x = "2"%char) xs →
  marked c w (present_marks w xs cc)
  = marked_exact c w xs + Z.min (unmarked c w xs) (Z.max 0 (get0 cc c)).
Proof.
  revert xs cc.
  induction w as [|d w IH]; intros [|x xs] cc Hlen Hxs;
    try (simpl in Hlen; lia).
  { unfold marked, marked_exact, unmarked. simpl. lia. }
  simpl in Hlen. apply Forall_cons in Hxs as [Hx Hxs].
  cbn [present_marks]. rewrite marked_exact_cons, unmarked_cons.
  pose proof (unmarked_nonneg c w xs) as Hun.
  destruct (bool_decide (x ≠ "2"%char) && bool_decide (0 < get0 cc d)) eqn:Hc.
  - apply andb_true_iff in Hc
      as [Hx2%bool_decide_eq_true Hpos%bool_decide_eq_true].
    destruct Hx as [-> | ->]; [|done].
    rewrite marked_cons, (IH xs (<[d := get0 cc d - 1]> cc)) by (done || lia).
    rewrite (decide_False (P := d = c ∧ "0"%char = "2"%char))
      by (intros [_ ?]; done).
    destruct (decide (d = c)) as [->|Hne].
    + rewrite get0_insert_eq, !decide_True by eauto. lia.
    + rewrite get0_insert_ne by done.
      rewrite !decide_False by (intros [? _]; done). lia.
  - rewrite marked_cons, (IH xs cc) by (done || lia).
    destruct Hx as [-> | ->].
    + apply andb_false_iff in Hc as [Hc|Hc].
      { apply bool_decide_eq_false in Hc. by destruct Hc. }
      apply bool_decide_eq_false in Hc.
      rewrite (decide_False (P := d = c ∧ ("0"%char = "1"%char ∨ _)))
        by (intros [_ [?|?]]; done).
      rewrite (decide_False (P := d = c ∧ "0"%char = "2"%char))
        by (intros [_ ?]; done).
      destruct (decide (d = c)) as [->|Hne].
      * rewrite decide_True by done. lia.
      * rewrite decide_False by (intros [? _]; done). lia.
    + rewrite (decide_False (P := d = c ∧ "2"%char = "0"%char))
        by (intros [_ ?]; done).
      destruct (decide (d = c)) as [->|Hne].
      * rewrite !decide_True by eauto. lia.
      * rewrite !decide_False by (intros [? _]; done). lia.
Qed.

(** What [get_label] computes for a guess that fits the target: per
    letter, as many marks as the letter has occurrences in both words. *)
Lemma label_mark_count (w a : str) c :
  (length w ≤ length a)%nat →
  marked c w (present_marks w (exact_marks w a)
                (exact_counts w a (Counter a)))
  = Z.min (occurrences c w) (occurrences c a).
Proof.
  intros Hle.
  assert (Hm : length (exact_marks w a) = length w)
    by (by apply exact_marks_length).
  rewrite present_marks_count by (done || apply exact_marks_values).
  rewrite exact_counts_get0, Counter_get0.
  pose proof (marked_exact_unmarked c w _ Hm (exact_marks_values w a)).
  pose proof (marked_exact_le_occurrences w a c).
  pose proof (marked_exact_nonneg c w (exact_marks w a)).
  pose proof (unmarked_nonneg c w (exact_marks w a)). lia.
Qed.

Lemma get_label_Ok_inv (w a label : str) :
  Exact.get_label w a = Ok label →
  (length w ≤ length a)%nat ∧
  label = present_marks w (exact_marks w a) (exact_counts w a (Counter a)).
Proof.
  intros Hrun. destruct (decide (length w ≤ length a)%nat) as [Hle|Hgt].
  - rewrite get_label_run in Hrun by done. by injection Hrun as <-.
  - rewrite get_label_too_long in Hrun by lia. done.
Qed.

(** X1. [get_label] raises exactly when the guess is longer than the
    target, and then it is [IndexError]; otherwise it returns a label
    with one symbol of '0', '1', '2' per letter of the guess. *)
Theorem get_label_outcome (w a : str) :
  match Exact.get_label w a with
  | Ok label =>
      (length w ≤ length a)%nat ∧ length label = length w ∧
      Forall (λ x, x ∈ ["0"; "1"; "2"]%char) label
  | Raise e => e = IndexError ∧ (length a < length w)%nat
  end.
Proof.
  destruct (decide (length w ≤ length a)%nat) as [Hle|Hgt].
  - rewrite get_label_run by done. split; [done|]. split.
    + apply present_marks_length. by apply exact_marks_length.
    + apply present_marks_values, exact_marks_values.
  - rewrite get_label_too_long by lia. split; [done|lia].
Qed.

(** X2. In a label that [get_label] returns, the positions of the guess
    that hold a letter [c] and are labelled PRESENT or CORRECT are
    exactly as many as the lesser of the occurrences of [c] in the guess
    and in the target. *)
Theorem get_label_mark_count (w a label : str) (c : ascii) :
  Exact.get_label w a = Ok label →
  marked c w label = Z.min (occurrences c w) (occurrences c a).
Proof.
  intros [Hle ->]%get_label_Ok_inv. by apply label_mark_count.
Qed.

Lemma get_label_mark_count_witness :
  marked "l" (str_of "allay") (str_of "11202")
  = Z.min (occurrences "l"%char (str_of "allay"))
          (occurrences "l"%char (str_of "rally")).
Proof.
  apply (get_label_mark_count (str_of "allay") (str_of "rally")).
  by vm_compute.
Defined.

Lemma all_correct_eq (w a : str) :
  length w = length a →
  Exact.get_label w a = Ok (replicate (length w) "2"%char) → w = a.
Proof.
  intros Hlen [_ Hl]%get_label_Ok_inv.
  apply list_eq_same_length with (length w); [done|lia|].
  intros i x y Hi Hx Hy.
  assert (H2 : present_marks w (exact_marks w a)
                 (exact_counts w a (Counter a)) !! i = Some "2"%char).
  { rewrite <- Hl. by apply lookup_replicate_2. }
  rewrite present_marks_correct in H2 by (apply exact_marks_length; lia).
  apply exact_marks_correct in H2 as (c & Hc & Hc'). congruence.
Qed.

(** X3. For a guess as long as the target, the label is CORRECT
    everywhere exactly when the guess is the target. *)
Theorem get_label_all_correct_iff (w a : str) :
  length w = length a →
  Exact.get_label w a = Ok (replicate (length w) "2"%char) ↔ w = a.
Proof.
  intros Hlen. split; [by apply all_correct_eq|].
  intros <-. rewrite get_label_run by done.
  by rewrite exact_marks_diag, present_marks_all_correct.
Qed.

Lemma get_label_all_correct_iff_witness :
  Exact.get_label (str_of "rally") (str_of "rally")
  = Ok (replicate (length (str_of "rally")) "2"%char)
  ↔ str_of "rally" = str_of "rally".
Proof. by apply get_label_all_correct_iff. Defined.

Lemma unmarked_pos c (w label : str) i :
  w !! i = Some c → label !! i = Some "0"%char → 1 ≤ unmarked c w label.
Proof.
  revert label i. induction w as [|d w IH]; intros [|x label] i Hw Hl;
    try done.
  rewrite unmarked_cons. destruct i as [|i]; simpl in *.
  - simplify_eq. rewrite decide_True by done.
    pose proof (unmarked_nonneg c w label). lia.
  - specialize (IH label i Hw Hl). case_decide; lia.
Qed.

(** X4. A letter of the guess labelled ABSENT fixes the number of its
    occurrences in the target: it is the number of positions where the
    guess holds that letter labelled PRESENT or CORRECT (none, when the
    letter is not in the target at all). *)
Theorem get_label_absent_counts (w a label : str) (c : ascii) (i : nat) :
  Exact.get_label w a = Ok label →
  w !! i = Some c → label !! i = Some "0"%char →
  occurrences c a = marked c w label.
Proof.
  intros Hrun Hw Hl. apply get_label_Ok_inv in Hrun as [Hle Heq].
  assert (Hlen : length label = length w).
  { rewrite Heq. apply present_marks_length. by apply exact_marks_length. }
  assert (Hval : Forall (λ x, x ∈ ["0"; "1"; "2"]%char) label).
  { rewrite Heq. apply present_marks_values, exact_marks_values. }
  pose proof (label_mark_count w a c Hle) as Hmin. rewrite <- Heq in Hmin.
  pose proof (marked_unmarked c w label Hlen Hval).
  pose proof (unmarked_pos c w label i Hw Hl). lia.
Qed.

Lemma get_label_absent_counts_witness :
  occurrences "a"%char (str_of "rally")
  = marked "a" (str_of "allay") (str_of "11202").
Proof.
  apply (get_label_absent_counts (str_of "allay") (str_of "rally")
           (str_of "11202") "a" 3); by vm_compute.
Defined.

(** ** The exact session: what the hints keep *)

(** X5. Truthful hints never cost the answer: in a session that
    started with no hint recorded and every pruned copy equal to its
    original, if every recorded label is the one [get_label] gives for
    its guess against a word [a], then [a] is still in the pruned copy
    of every pool whose original copy holds it.  And after a hint
    labelled CORRECT everywhere, a pruned word as long as the guess can
    only be the guess. *)
Theorem exact_truthful_hints hs s0 s :
  exact_fresh s0 →
  exact_session hs s0 = (s, Ok ()) →
  (∀ key orig pruned a,
     (key, (orig, pruned)) ∈ Exact.words s → a ∈ orig →
     Forall (λ h : str * str, Exact.get_label h.1 a = Ok h.2) hs →
     a ∈ pruned) ∧
  (∀ key orig pruned g w,
     (key, (orig, pruned)) ∈ Exact.words s →
     (g, replicate (length g) "2"%char) ∈ hs →
     w ∈ pruned → length w = length g → w = g).
Proof.
  intros Hf Hrun.
  destruct (exact_session_Ok hs _ s Hrun (exact_fresh_inv s0 Hf))
    as (_ & Hh & _ & Hinv).
  destruct Hf as [Hh0 _]. rewrite Hh0 in Hh.
  simpl in Hh. unfold exact_inv in Hinv. rewrite Forall_forall, Hh in Hinv.
  split.
  - intros key orig pruned a Hit Ha Hc. specialize (Hinv _ Hit).
    simpl in Hinv. rewrite Hinv. by apply list_elem_of_filter.
  - intros key orig pruned g w Hit Hg Hw Hlen. specialize (Hinv _ Hit).
    simpl in Hinv. rewrite Hinv in Hw.
    apply list_elem_of_filter in Hw as [Hc _].
    unfold consistent in Hc. rewrite Forall_forall in Hc.
    specialize (Hc _ Hg). simpl in Hc. symmetry.
    by apply all_correct_eq.
Qed.

Lemma exact_truthful_hints_witness :
  (∀ key orig pruned a,
     (key, (orig, pruned))
     ∈ Exact.words (exact_session [(str_of "allay", str_of "11202")]
                      exact_fixture).1 →
     a ∈ orig →
     Forall (λ h : str * str, Exact.get_label h.1 a = Ok h.2)
            [(str_of "allay", str_of "11202")] →
     a ∈ pruned) ∧
  (∀ key orig pruned g w,
     (key, (orig, pruned))
     ∈ Exact.words (exact_session [(str_of "allay", str_of "11202")]
                      exact_fixture).1 →
     (g, replicate (length g) "2"%char)
     ∈ [(str_of "allay", str_of "11202")] →
     w ∈ pruned → length w = length g → w = g).
Proof.
  apply (exact_truthful_hints [(str_of "allay", str_of "11202")]
           exact_fixture).
  - by apply (bool_decide_unpack _).
  - by vm_compute.
Defined.

Lemma consistent_perm hs hs' w :
  hs ≡ₚ hs' → consistent hs w ↔ consistent hs' w.
Proof. unfold consistent. by intros ->. Qed.

(** X6. The order of the hints does not matter to the pools: two
    sessions from the same state before any hint, whose hints are the
    same up to their order, the words of the pools all of one length
    that no guess exceeds, both return and leave the same original and
    pruned lists. *)
Theorem exact_hint_order (n : nat) (hs hs' : list (str * str))
    (s0 : Exact.state) :
  exact_fresh s0 →
  Forall (λ it : string * (list str * list str),
            Forall (λ w, length w = n) it.2.1) (Exact.words s0) →
  Forall (λ h : str * str, (length h.1 ≤ n)%nat) hs →
  hs ≡ₚ hs' →
  ∃ s s',
    exact_session hs s0 = (s, Ok ()) ∧
    exact_session hs' s0 = (s', Ok ()) ∧
    Exact.words s = Exact.words s'.
Proof.
  intros Hf Hlen Hhs Hperm.
  destruct (exact_session_run n hs s0 Hf Hlen Hhs) as (s & Hs & _ & Hw).
  destruct (exact_session_run n hs' s0 Hf Hlen)
    as (s' & Hs' & _ & Hw'); [by rewrite <- Hperm|].
  exists s, s'. split; [done|]. split; [done|]. rewrite Hw, Hw'.
  apply list_fmap_ext. intros i [k [o p]] _. simpl. do 2 f_equal.
  apply list_filter_iff. intros w. by apply consistent_perm.
Qed.

Lemma exact_hint_order_witness :
  ∃ s s',
    exact_session [(str_of "allay", str_of "11202");
                   (str_of "hello", str_of "00210")] exact_fixture
    = (s, Ok ()) ∧
    exact_session [(str_of "hello", str_of "00210");
                   (str_of "allay", str_of "11202")] exact_fixture
    = (s', Ok ()) ∧
    Exact.words s = Exact.words s'.
Proof.
  apply (exact_hint_order 5%nat _ _ exact_fixture).
  - by apply (bool_decide_unpack _).
  - by repeat constructor.
  - by repeat constructor.
  - apply Permutation_swap.
Defined.


(** ** The exact session: errors *)

Lemma all_hints_too_long P bad rest w :
  consistent P w → (length w < length bad.1)%nat →
  Exact.all_hints (P ++ bad :: rest) w = Raise IndexError.
Proof.
  intros Hc Hlen. induction Hc as [|[hw hl] P Hh Hc IH]; simpl.
  - destruct bad as [bw bl]. simpl in *.
    by rewrite get_label_too_long.
  - simpl in Hh. rewrite Hh. simpl. by rewrite decide_True.
Qed.

Lemma prune_list_too_long P bad rest ws :
  Forall (λ w, consistent P w ∧ (length w < length bad.1)%nat) ws →
  Exact.prune_list (P ++ bad :: rest) ws
  = if decide (ws = []) then Ok [] else Raise IndexError.
Proof.
  intros Hws. destruct Hws as [|w ws [Hc Hlen] _]; [done|].
  simpl. by rewrite all_hints_too_long.
Qed.

Lemma poisoned_step t P bad rest w2 l2 :
  Exact.hints t ++ [(w2, l2)] = P ++ bad :: rest →
  Forall (λ it : string * (list str * list str),
            Forall (λ w, consistent P w ∧ (length w < length bad.1)%nat)
                   it.2.2) (Exact.words t) →
  Exists (λ it : string * (list str * list str), it.2.2 ≠ [])
         (Exact.words t) →
  Exact.add_word_hint w2 l2 t
  = (Exact.set_hints (λ hs, hs ++ [(w2, l2)]) t, Raise IndexError).
Proof.
  intros HH Hall Hne.
  destruct (add_word_hint_spec w2 l2 t) as (items' & Hst & Hkept & Hres).
  rewrite HH in Hkept, Hres.
  assert (Hitems : items' = Exact.words t).
  { clear Hres Hne Hst. induction Hkept as [|it it' its its' Hk _ IH]; [done|].
    apply Forall_cons in Hall as [Hit Hall]. rewrite IH by done. f_equal.
    destruct Hk as [->|(H1 & H2 & H3)]; [done|].
    rewrite prune_list_too_long in H3 by done.
    destruct it as [k [o p]], it' as [k' [o' p']]. simpl in *.
    case_decide; [|done]. by simplify_eq. }
  assert (Hr : (Exact.add_word_hint w2 l2 t).2 = Raise IndexError).
  { destruct ((Exact.add_word_hint w2 l2 t).2) as [[]|e].
    - exfalso. clear Hkept Hst. rewrite Hitems in Hres.
      apply Exists_exists in Hne as (it & Hit & Hne).
      rewrite Forall_forall in Hall. specialize (Hall _ Hit).
      apply Forall2_same_length_lookup in Hres as [_ Hres].
      apply list_elem_of_lookup in Hit as [i Hi].
      destruct (Hres i it it Hi Hi) as (_ & _ & H3).
      rewrite prune_list_too_long in H3 by done. by case_decide.
    - apply Exists_exists in Hres as (it & Hit & Hp).
      rewrite Forall_forall in Hall. specialize (Hall _ Hit).
      rewrite prune_list_too_long in Hp by done. case_decide; congruence. }
  destruct (Exact.add_word_hint w2 l2 t) as [t' r]. simpl in *.
  subst. by destruct t.
Qed.

(** X7. A guess longer than the candidates poisons the session: on a
    state whose pruned words agree with the recorded hints, are all
    shorter than the guess, and are not all gone, [add_word_hint] raises
    IndexError with the hint recorded and the pools as they were; and
    whatever was recorded after it, every later call raises IndexError
    again, the pools still unchanged. *)
Theorem exact_long_guess_poisons (s : Exact.state) (word label : str) :
  Forall (λ it : string * (list str * list str),
            Forall (λ w, consistent (Exact.hints s) w ∧
                         (length w < length word)%nat) it.2.2)
         (Exact.words s) →
  Exists (λ it : string * (list str * list str), it.2.2 ≠ [])
         (Exact.words s) →
  Exact.add_word_hint word label s
  = (Exact.mkState (Exact._len s) (Exact.hints s ++ [(word, label)])
                   (Exact.words s), Raise IndexError) ∧
  ∀ later word2 label2,
    Exact.add_word_hint word2 label2
      (Exact.mkState (Exact._len s)
                     (Exact.hints s ++ (word, label) :: later)
                     (Exact.words s))
    = (Exact.mkState (Exact._len s)
         (Exact.hints s ++ (word, label) :: later ++ [(word2, label2)])
         (Exact.words s), Raise IndexError).
Proof.
  intros Hall Hne. split.
  - by rewrite (poisoned_step s (Exact.hints s) (word, label) [] word label).
  - intros later word2 label2.
    rewrite (poisoned_step _ (Exact.hints s) (word, label)
               (later ++ [(word2, label2)]) word2 label2); simpl; try done.
    + unfold Exact.set_hints. simpl. by rewrite <- app_assoc.
    + by rewrite <- app_assoc.
Qed.

Lemma exact_long_guess_poisons_witness :
  Exact.add_word_hint (str_of "shallow") (str_of "0000000") exact_fixture
  = (Exact.mkState (Exact._len exact_fixture)
       (Exact.hints exact_fixture ++ [(str_of "shallow", str_of "0000000")])
       (Exact.words exact_fixture), Raise IndexError) ∧
  ∀ later word2 label2,
    Exact.add_word_hint word2 label2
      (Exact.mkState (Exact._len exact_fixture)
         (Exact.hints exact_fixture
          ++ (str_of "shallow", str_of "0000000") :: later)
         (Exact.words exact_fixture))
    = (Exact.mkState (Exact._len exact_fixture)
         (Exact.hints exact_fixture
          ++ (str_of "shallow", str_of "0000000")
             :: later ++ [(word2, label2)])
         (Exact.words exact_fixture), Raise IndexError).
Proof.
  apply (exact_long_guess_poisons exact_fixture).
  - apply (bool_decide_unpack _). by vm_compute.
  - apply (bool_decide_unpack _). by vm_compute.
Defined.

Lemma words_getitem_unknown s key :
  key ∉ (Exact.words s).*1 → Exact.words_getitem s key = Raise KeyError.
Proof.
  intros Hk. unfold Exact.words_getitem.
  destruct (list_find _ _) as [[i [k v]]|] eqn:Hf; [|done].
  apply list_find_Some in Hf as (Hi & Hkey & _). simpl in Hkey. subst k.
  destruct Hk. apply list_elem_of_fmap. exists (key, v).
  split; [done|]. by eapply list_elem_of_lookup_2.
Qed.

(** X8. A pool key the session does not hold: [get_score] raises
    KeyError for every word; [predict] raises KeyError when the key is
    the pool to search, and, when it is the pool of answers, exactly
    when there is a word to score: on an empty search list it prints
    nothing and the unknown key goes unnoticed. *)
Theorem exact_unknown_pool argsort (s : Exact.state) (key : string) :
  sorts_by Z.le argsort →
  key ∉ (Exact.words s).*1 →
  (∀ w, Exact.get_score s w key = Raise KeyError) ∧
  (∀ K anstype pruned,
     Exact.predict argsort s K key anstype pruned = Raise KeyError) ∧
  (∀ K searchtype pruned pool,
     Exact.words_getitem s searchtype = Ok pool →
     Exact.predict argsort s K searchtype key pruned
     = if decide ((if pruned then pool.2 else pool.1) = [])
       then Ok [] else Raise KeyError).
Proof.
  intros Hsort Hk. pose proof (words_getitem_unknown s key Hk) as Hget.
  assert (Hscore : ∀ w, Exact.get_score s w key = Raise KeyError).
  { intros w. unfold Exact.get_score. by rewrite Hget. }
  split; [done|]. split.
  - intros K anstype pruned. unfold Exact.predict. by rewrite Hget.
  - intros K searchtype pruned pool Hpool. unfold Exact.predict.
    rewrite Hpool. simpl.
    destruct (if pruned then pool.2 else pool.1) as [|w ws].
    + rewrite decide_True by done. simpl.
      destruct (Hsort []) as [Hperm _]. simpl in Hperm.
      apply Permutation_nil_r in Hperm. rewrite Hperm.
      unfold slice_to. by case_decide; rewrite take_nil.
    + rewrite decide_False by done. by rewrite mapM_cons, Hscore.
Qed.

Lemma exact_unknown_pool_witness :
  (∀ w, Exact.get_score exact_fixture w "answer" = Raise KeyError) ∧
  (∀ K anstype pruned,
     Exact.predict (argsort_stable Z.le) exact_fixture K "answer" anstype
                   pruned = Raise KeyError) ∧
  (∀ K searchtype pruned pool,
     Exact.words_getitem exact_fixture searchtype = Ok pool →
     Exact.predict (argsort_stable Z.le) exact_fixture K searchtype "answer"
                   pruned
     = if decide ((if pruned then pool.2 else pool.1) = [])
       then Ok [] else Raise KeyError).
Proof.
  apply (exact_unknown_pool (argsort_stable Z.le) exact_fixture "answer").
  - apply argsort_stable_sorts; apply _.
  - apply (bool_decide_unpack _). by vm_compute.
Defined.

(** ** The exact score: outcome, order of the candidates, worst case *)

Lemma occurrences_notin `{EqDecision A} (c : A) (l : list A) :
  c ∉ l → occurrences c l = 0.
Proof.
  intros Hc. unfold occurrences.
  induction l as [|x l IH]; [done|].
  apply not_elem_of_cons in Hc as [Hne Hc].
  rewrite filter_cons, decide_False by done. by apply IH.
Qed.

Lemma occurrences_step `{EqDecision A} (c d : A) (l : list A) :
  occurrences c (d :: l) = (if decide (d = c) then 1 else 0) + occurrences c l.
Proof.
  unfold occurrences. rewrite filter_cons. case_decide; cbn [length]; lia.
Qed.

Lemma occurrences_perm `{EqDecision A} (c : A) (l1 l2 : list A) :
  l1 ≡ₚ l2 → occurrences c l1 = occurrences c l2.
Proof. intros Hp. unfold occurrences. by rewrite Hp. Qed.

Lemma Counter_foldl_lookup `{Countable K} (l : list K) (d : gmap K Z) k :
  foldl (λ d x, <[x := get0 d x + 1]> d) d l !! k
  = if decide (k ∈ l) then Some (get0 d k + occurrences k l) else d !! k.
Proof.
  revert d. induction l as [|x l IH]; intros d.
  - rewrite decide_False; [done|]. apply not_elem_of_nil.
  - cbn [foldl]. rewrite IH. rewrite occurrences_step.
    destruct (decide (x = k)) as [->|Hne].
    + rewrite get0_insert_eq, (decide_True (P := k ∈ k :: l))
        by constructor.
      case_decide as Hk.
      * f_equal; lia.
      * rewrite lookup_insert_eq, occurrences_notin by done. f_equal; lia.
    + rewrite get0_insert_ne, lookup_insert_ne by done.
      rewrite Z.add_0_l. apply decide_ext. set_solver.
Qed.

Lemma Counter_lookup `{Countable K} (l : list K) k :
  Counter l !! k = if decide (k ∈ l) then Some (occurrences k l) else None.
Proof.
  unfold Counter. rewrite Counter_foldl_lookup.
  unfold get0. by rewrite lookup_empty.
Qed.

Lemma Counter_perm `{Countable K} (l1 l2 : list K) :
  l1 ≡ₚ l2 → Counter l1 = Counter l2.
Proof.
  intros Hp. apply map_eq. intros k. rewrite !Counter_lookup.
  rewrite (occurrences_perm k l1 l2 Hp).
  apply decide_ext. by rewrite Hp.
Qed.

Lemma mapM_get_label (w : str) (ws : list str) :
  mapM (Exact.get_label w) ws
  = if decide (Forall (λ a, (length w ≤ length a)%nat) ws)
    then Ok (encoded w <$> ws) else Raise IndexError.
Proof.
  induction ws as [|a ws IH]; [done|]. rewrite mapM_cons, IH.
  destruct (decide (length w ≤ length a)%nat) as [Hle|Hgt].
  - rewrite get_label_run by done. fold (encoded w a).
    case_decide as Hws.
    + by rewrite decide_True by (by constructor).
    + rewrite decide_False; [done|]. by intros [_ ?]%Forall_cons.
  - rewrite get_label_too_long by lia.
    rewrite decide_False; [done|]. by intros [? _]%Forall_cons.
Qed.

Lemma words_getitem_Raise s key e :
  Exact.words_getitem s key = Raise e →
  e = KeyError ∧ key ∉ (Exact.words s).*1.
Proof.
  unfold Exact.words_getitem.
  destruct (list_find _ _) as [[i [k v]]|] eqn:Hf; [done|].
  intros [= <-]. split; [done|].
  intros ([k v] & -> & Hin)%list_elem_of_fmap.
  apply list_find_None in Hf. rewrite Forall_forall in Hf.
  by apply (Hf _ Hin).
Qed.

Lemma get_score_run s (w : str) key pool :
  Exact.words_getitem s key = Ok pool →
  Exact.get_score s w key
  = if decide (Forall (λ a, (length w ≤ length a)%nat) pool.2)
    then Ok (np_sum (np_square (values (Counter (encoded w <$> pool.2)))))
    else Raise IndexError.
Proof.
  intros Hget. unfold Exact.get_score. rewrite Hget.
  cbn [mbind result_bind].
  change (mapM _ pool.2) with (mapM (Exact.get_label w) pool.2).
  rewrite (mapM_get_label w pool.2). by case_decide.
Qed.

(** X9. The outcome of [get_score]: it returns exactly when the pool of
    answers is known and no pruned word of it is shorter than the word
    scored; otherwise it raises KeyError when the session has no such
    pool, IndexError when a pruned word is too short, and nothing
    else. *)
Theorem get_score_outcome (s : Exact.state) (w : str) (key : string) :
  match Exact.get_score s w key with
  | Ok _ =>
      ∃ pool, Exact.words_getitem s key = Ok pool ∧
              Forall (λ a, (length w ≤ length a)%nat) pool.2
  | Raise e =>
      (e = KeyError ∧ key ∉ (Exact.words s).*1) ∨
      (e = IndexError ∧
       ∃ pool, Exact.words_getitem s key = Ok pool ∧
               Exists (λ a, (length a < length w)%nat) pool.2)
  end.
Proof.
  destruct (Exact.words_getitem s key) as [pool|e] eqn:Hget.
  - rewrite (get_score_run s w key pool Hget). case_decide as Hall.
    + by exists pool.
    + right. split; [done|]. exists pool. split; [done|].
      apply not_Forall_Exists in Hall; [|apply _].
      eapply Exists_impl; [exact Hall|]. simpl. lia.
  - unfold Exact.get_score. rewrite Hget. simpl. left.
    by apply words_getitem_Raise.
Qed.

(** X10. The score does not depend on the order of the candidates: two
    pools whose pruned lists hold the same words, in any order, give
    every word the same score, or the same exception. *)
Theorem get_score_perm (s1 s2 : Exact.state) (w : str) (k1 k2 : string)
    (p1 p2 : list str * list str) :
  Exact.words_getitem s1 k1 = Ok p1 →
  Exact.words_getitem s2 k2 = Ok p2 →
  p1.2 ≡ₚ p2.2 →
  Exact.get_score s1 w k1 = Exact.get_score s2 w k2.
Proof.
  intros H1 H2 Hp.
  rewrite (get_score_run s1 w k1 p1 H1), (get_score_run s2 w k2 p2 H2).
  rewrite (Counter_perm (encoded w <$> p1.2) (encoded w <$> p2.2))
    by (by rewrite Hp).
  apply decide_ext. by rewrite Hp.
Qed.

Lemma get_score_perm_witness :
  Exact.get_score
    (Exact.mkState 5 [] [("answers", ([], [str_of "rally"; str_of "hello"]))])
    (str_of "allay") "answers"
  = Exact.get_score
      (Exact.mkState 5 [] [("pool", ([], [str_of "hello"; str_of "rally"]))])
      (str_of "allay") "pool".
Proof.
  apply (get_score_perm _ _ _ _ _
           ([], [str_of "rally"; str_of "hello"])
           ([], [str_of "hello"; str_of "rally"])).
  - reflexivity.
  - reflexivity.
  - apply Permutation_swap.
Defined.

Lemma sum_squares_upper (vs : list Z) :
  Forall (λ v, 1 ≤ v) vs →
  sumZ ((λ v, v * v) <$> vs) = sumZ vs * sumZ vs ↔ (length vs ≤ 1)%nat.
Proof.
  intros Hpos. destruct Hpos as [|v vs Hv Hvs]; [simpl; lia|].
  destruct (sum_squares_bounds vs Hvs) as [[Hlo Hhi] _].
  rewrite fmap_cons, !sumZ_cons. cbn [length].
  destruct Hvs as [|v' vs Hv' Hvs]; [simpl; lia|].
  assert (1 ≤ sumZ (v' :: vs)).
  { assert (0 ≤ sumZ vs); [|rewrite sumZ_cons; lia].
    clear -Hvs. induction Hvs; [done|]. rewrite sumZ_cons. lia. }
  cbn [length]. split; [nia|lia].
Qed.

Lemma values_length_le_1 `{Countable K} {V} (d : gmap K V) :
  (length (values d) ≤ 1)%nat ↔
  ∀ k1 k2, is_Some (d !! k1) → is_Some (d !! k2) → k1 = k2.
Proof.
  unfold values. rewrite length_fmap.
  induction d as [|i x m Hi _] using map_ind.
  - rewrite map_to_list_empty. split; [|simpl; lia].
    intros _ k1 k2 [? Hk]. by rewrite lookup_empty in Hk.
  - rewrite map_to_list_insert by done. cbn [length]. split.
    + intros Hlen. assert (m = ∅) as ->.
      { apply map_to_list_empty_iff, nil_length_inv. lia. }
      intros k1 k2 [? H1] [? H2].
      apply lookup_insert_Some in H1 as [[<- _]|[_ H1]];
        [|by rewrite lookup_empty in H1].
      apply lookup_insert_Some in H2 as [[<- _]|[_ H2]];
        [done|by rewrite lookup_empty in H2].
    + intros Hone. assert (m = ∅) as ->; [|by rewrite map_to_list_empty].
      apply map_empty. intros k. destruct (m !! k) as [v|] eqn:Hk; [|done].
      assert (k = i) as ->; [|congruence].
      apply Hone.
      * rewrite lookup_insert_ne by congruence. eauto.
      * rewrite lookup_insert_eq. eauto.
Qed.

(** X11. The worst score: under the bound that keeps int64 exact, the
    score of a word is at most the square of the number of candidates,
    and it is that square exactly when the word does not split them:
    every candidate gives the same label. *)
Theorem get_score_upper (s : Exact.state) (word : str) (anstype : string)
    (orig cands : list str) :
  Exact.words_getitem s anstype = Ok (orig, cands) →
  Forall (λ w, (length word ≤ length w)%nat) cands →
  Z.of_nat (length cands) * Z.of_nat (length cands) < 2 ^ 63 →
  ∃ labels score,
    mapM (Exact.get_label word) cands = Ok labels ∧
    Exact.get_score s word anstype = Ok score ∧
    score ≤ Z.of_nat (length cands) * Z.of_nat (length cands) ∧
    (score = Z.of_nat (length cands) * Z.of_nat (length cands) ↔
     ∀ l1 l2, l1 ∈ labels → l2 ∈ labels → l1 = l2).
Proof.
  intros Hget Hlen Hbound.
  exists (encoded word <$> cands). eexists.
  rewrite mapM_get_label, (get_score_run _ _ _ _ Hget).
  simpl. rewrite !decide_True by done. split; [done|]. split; [done|].
  destruct (Counter_values (encoded word <$> cands)) as [Hpos Hsum].
  rewrite length_fmap in Hsum.
  destruct (sum_squares_bounds _ Hpos) as [[Hlo Hhi] _].
  pose proof (sum_squares_upper _ Hpos) as Heq.
  rewrite Hsum in Hlo, Hhi, Heq.
  rewrite np_sum_square_small by (done || lia).
  split; [done|]. rewrite Heq, values_length_le_1.
  split.
  - intros Hone l1 l2 H1 H2. apply Hone; rewrite Counter_lookup.
    + by rewrite decide_True.
    + by rewrite decide_True.
  - intros Hone k1 k2 [? H1] [? H2]. rewrite Counter_lookup in H1, H2.
    repeat case_decide; try done. by apply Hone.
Qed.

Lemma get_score_upper_witness :
  ∃ labels score,
    mapM (Exact.get_label (str_of "allay")) pool_answers = Ok labels ∧
    Exact.get_score exact_fixture (str_of "allay") "answers" = Ok score ∧
    score ≤ Z.of_nat (length pool_answers) * Z.of_nat (length pool_answers) ∧
    (score = Z.of_nat (length pool_answers) * Z.of_nat (length pool_answers) ↔
     ∀ l1 l2, l1 ∈ labels → l2 ∈ labels → l1 = l2).
Proof.
  apply (get_score_upper exact_fixture (str_of "allay") "answers"
           pool_answers pool_answers).
  - reflexivity.
  - apply (bool_decide_unpack _). by vm_compute.
  - by vm_compute.
Defined.

(** ** Ranking with a negative [K] *)

Lemma slice_to_neg {A} (K : Z) (l : list A) :
  K < 0 → slice_to K l = take (length l - Z.to_nat (- K)) l.
Proof. intros HK. unfold slice_to. rewrite decide_False; [done|lia]. Qed.

(** X12. A negative [K] counts from the end, as Python's slices do:
    where the scores are computed without an exception, [predict] with
    [K < 0] returns, and what it prints is the ranking of the pool less
    its last [-K] words: [predict(K=-1)] prints every word but the worst
    one.  It holds for both scripts, in ascending order of the exact
    score and in descending order of the heuristic one. *)
Theorem predict_negative_K :
  (∀ argsort s K searchtype anstype (pruned : bool) pool answers,
     sorts_by Z.le argsort →
     Exact.words_getitem s searchtype = Ok pool →
     Exact.words_getitem s anstype = Ok answers →
     Forall (λ w : str, Forall (λ a, (length w ≤ length a)%nat) answers.2)
            (if pruned then pool.2 else pool.1) →
     K < 0 →
     ∃ scores out,
       mapM (λ w, Exact.get_score s w anstype)
            (if pruned then pool.2 else pool.1) = Ok scores ∧
       Exact.predict argsort s K searchtype anstype pruned = Ok out ∧
       ranking Z.le (if pruned then pool.2 else pool.1) scores
               (length (if pruned then pool.2 else pool.1)
                - Z.to_nat (- K)) out) ∧
  (∀ argsort s K (can_ignore_hints : bool),
     sorts_by Rle argsort →
     heur_stats s →
     Forall (λ w : str, (length w ≤ Heur._len s)%nat)
            (elements (if can_ignore_hints then Heur.allowed_words s
                       else Heur.answer_words s)) →
     K < 0 →
     ∃ scores out,
       mapM (Heur.get_word_info_approx s)
            (elements (if can_ignore_hints then Heur.allowed_words s
                       else Heur.answer_words s)) = Ok scores ∧
       Heur.predict argsort s K can_ignore_hints = Ok out ∧
       ranking (flip Rle)
               (elements (if can_ignore_hints then Heur.allowed_words s
                          else Heur.answer_words s))
               scores
               (length (elements (if can_ignore_hints
                                  then Heur.allowed_words s
                                  else Heur.answer_words s))
                - Z.to_nat (- K)) out).
Proof.
  split.
  - intros argsort s K searchtype anstype pruned pool answers
           Hsort Hpool Hans Hlen HK.
    set (words := if pruned then pool.2 else pool.1) in *.
    destruct (mapM_exists (λ w, Exact.get_score s w anstype) words)
      as (scores & Hscores & Hls).
    { eapply Forall_impl; [exact Hlen|]. intros w Hw.
      by eapply get_score_returns. }
    destruct (Hsort scores) as [Hperm Hsorted].
    destruct (ranking_of_sorted Z.le words scores (argsort scores)
                (length words - Z.to_nat (- K)))
      as (out & Hrun & Hrank); [done..|].
    exists scores, out. split; [done|]. split; [|done].
    unfold Exact.predict. rewrite Hpool. cbn [mbind result_bind].
    fold words. rewrite Hscores. cbn [mbind result_bind].
    rewrite slice_to_neg by done.
    by rewrite (Permutation_length Hperm), length_seq, Hls.
  - intros argsort s K can_ignore_hints Hsort Hst Hlen HK.
    set (words := elements (if can_ignore_hints then Heur.allowed_words s
                            else Heur.answer_words s)) in *.
    destruct (mapM_exists (Heur.get_word_info_approx s) words)
      as (scores & Hscores & Hls).
    { eapply Forall_impl; [exact Hlen|]. intros w Hw.
      by apply word_info_returns. }
    destruct (Hsort scores) as [Hperm Hsorted].
    destruct (ranking_of_sorted (flip Rle) words scores
                (reverse (argsort scores)) (length words - Z.to_nat (- K)))
      as (out & Hrun & Hrank);
      [done|by rewrite reverse_Permutation|by apply sorted_idx_reverse|].
    exists scores, out. split; [done|]. split; [|done].
    unfold Heur.predict. fold words. rewrite Hscores.
    cbn [mbind result_bind]. rewrite slice_to_neg by done.
    unfold reversed.
    by rewrite length_reverse, (Permutation_length Hperm), length_seq, Hls.
Qed.

Lemma predict_negative_K_witness :
  (∃ scores out,
     mapM (λ w, Exact.get_score exact_fixture w "answers") pool_allowed
     = Ok scores ∧
     Exact.predict (argsort_stable Z.le) exact_fixture (-1) "allowed"
                   "answers" true = Ok out ∧
     ranking Z.le pool_allowed scores
             (length pool_allowed - Z.to_nat (- -1)) out) ∧
  (∃ scores out,
     mapM (Heur.get_word_info_approx heur_fixture)
          (elements (Heur.answer_words heur_fixture)) = Ok scores ∧
     Heur.predict (argsort_stable Rle) heur_fixture (-1) false = Ok out ∧
     ranking (flip Rle) (elements (Heur.answer_words heur_fixture)) scores
             (length (elements (Heur.answer_words heur_fixture))
              - Z.to_nat (- -1)) out).
Proof.
  split.
  - apply (proj1 predict_negative_K (argsort_stable Z.le) exact_fixture (-1)
             "allowed" "answers" true (pool_allowed, pool_allowed)
             (pool_answers, pool_answers)).
    + apply argsort_stable_sorts; apply _.
    + reflexivity.
    + reflexivity.
    + by apply (bool_decide_unpack _).
    + lia.
  - destruct heur_fixture_wf as (Hl & Hs & Hst).
    apply (proj2 predict_negative_K (argsort_stable Rle) heur_fixture (-1)
             false).
    + apply argsort_stable_sorts; apply _.
    + done.
    + apply Forall_forall. intros w Hw%elem_of_elements.
      by rewrite (Hs w Hw).
    + lia.
Defined.

(** ** The heuristic session: what the statistics count *)

Lemma filter_elements_size (P : str → Prop) `{!∀ w, Decision (P w)}
    (X : gset str) :
  length (filter P (elements X)) = size (filter P X).
Proof.
  unfold size, set_size. simpl. apply Permutation_length.
  apply NoDup_Permutation.
  - apply NoDup_filter, NoDup_elements.
  - apply NoDup_elements.
  - intros w. rewrite list_elem_of_filter, !elem_of_elements, elem_of_filter.
    done.
Qed.

Lemma count_word_run (w : str) s :
  (length w ≤ Heur._len s)%nat →
  (∀ c, c ∈ w → c ∈ Heur.chars s) →
  counts_keys s →
  ∃ d1 d2 d3,
    Heur.count_word w s = (with_counts d1 d2 d3 s, Ok ()) ∧
    (∀ k, d1 !! k = if decide (k ∈ w)
                    then (λ v, v + 1) <$> Heur.char_in_counts s !! k
                    else Heur.char_in_counts s !! k) ∧
    (∀ k, d2 !! k = if decide (k ∈ Heur.chars s ∧ k ∉ w)
                    then (λ v, v + 1) <$> Heur.char_notin_counts s !! k
                    else Heur.char_notin_counts s !! k) ∧
    (∀ c p, look2 d3 c p
            = if decide (w !! p = Some c)
              then (λ v, v + 1) <$> look2 (Heur.char_pos_counts s) c p
              else look2 (Heur.char_pos_counts s) c p).
Proof.
  intros Hlen Hw Hkeys.
  destruct (count_in_run (list_to_set w) s) as (d1 & H1 & Hd1).
  { intros c Hc%elem_of_list_to_set. by apply Hkeys, Hw. }
  set (s1 := Heur.set_char_in_counts d1 s) in *.
  destruct (count_notin_run (list_to_set w) s1) as (d2 & H2 & Hd2).
  { intros c Hc. by apply Hkeys. }
  set (s2 := Heur.set_char_notin_counts d2 s1) in *.
  destruct (count_pos_run w s2) as (d3 & H3 & Hd3).
  { intros j c Hj. apply Hkeys; [by eapply Hw, list_elem_of_lookup_2|].
    apply lookup_lt_Some in Hj. lia. }
  exists d1, d2, d3. split.
  { unfold Heur.count_word. unfold mbind, py_bind. by rewrite H1, H2, H3. }
  split; [|split; [|done]].
  - intros k. rewrite Hd1. apply decide_ext, elem_of_list_to_set.
  - intros k. rewrite Hd2. simpl. apply decide_ext. set_solver.
Qed.

Lemma fmap_add_0 (o : option Z) : (λ v, v + 0) <$> o = o.
Proof. destruct o; simpl; f_equal; lia. Qed.

Lemma fmap_add_add (o : option Z) a b :
  (λ v, v + b) <$> ((λ v, v + a) <$> o) = (λ v, v + (a + b)) <$> o.
Proof. destruct o; simpl; f_equal; lia. Qed.

Lemma with_counts_twice d1 d2 d3 e1 e2 e3 s :
  with_counts e1 e2 e3 (with_counts d1 d2 d3 s) = with_counts e1 e2 e3 s.
Proof. by destruct s. Qed.

Lemma with_counts_id s :
  with_counts (Heur.char_in_counts s) (Heur.char_notin_counts s)
              (Heur.char_pos_counts s) s = s.
Proof. by destruct s. Qed.

Lemma count_words_run (l : list str) s :
  Forall (λ w : str, (length w ≤ Heur._len s)%nat ∧
                     ∀ c, c ∈ w → c ∈ Heur.chars s) l →
  counts_keys s →
  ∃ d1 d2 d3,
    for_ l Heur.count_word s = (with_counts d1 d2 d3 s, Ok ()) ∧
    (∀ k, d1 !! k
          = (λ v, v + Z.of_nat (length (filter (λ w : str, k ∈ w) l)))
            <$> Heur.char_in_counts s !! k) ∧
    (∀ k, d2 !! k
          = (λ v, v + if decide (k ∈ Heur.chars s)
                      then Z.of_nat (length (filter (λ w : str, k ∉ w) l))
                      else 0)
            <$> Heur.char_notin_counts s !! k) ∧
    (∀ c p, look2 d3 c p
            = (λ v, v + Z.of_nat
                          (length (filter (λ w : str, w !! p = Some c) l)))
              <$> look2 (Heur.char_pos_counts s) c p).
Proof.
  intros Hl. revert s Hl.
  induction l as [|w l IH]; intros s Hl Hkeys.
  - exists (Heur.char_in_counts s), (Heur.char_notin_counts s),
           (Heur.char_pos_counts s).
    rewrite for_nil, with_counts_id. split; [done|].
    split; [|split]; intros; simpl; try case_decide;
      by rewrite fmap_add_0.
  - apply Forall_cons in Hl as [[Hlen Hw] Hl].
    destruct (count_word_run w s Hlen Hw Hkeys)
      as (d1 & d2 & d3 & Hrun & Hd1 & Hd2 & Hd3).
    set (s1 := with_counts d1 d2 d3 s) in *.
    destruct (IH s1) as (e1 & e2 & e3 & Hrun' & He1 & He2 & He3).
    { done. }
    { intros c Hc. destruct (Hkeys c Hc) as (Hi & Hn & Hp).
      unfold keyed. simpl. rewrite Hd1, Hd2. repeat split.
      - case_decide; [by apply fmap_is_Some|done].
      - case_decide; [by apply fmap_is_Some|done].
      - intros p Hlt. rewrite Hd3.
        case_decide; [apply fmap_is_Some|]; eauto. }
    exists e1, e2, e3. split.
    { rewrite for_cons, Hrun, Hrun'. unfold s1.
      by rewrite with_counts_twice. }
    simpl in He1, He2, He3. split; [|split].
    + intros k. rewrite He1, Hd1, filter_cons.
      destruct (decide (k ∈ w)); cbn [length].
      * rewrite fmap_add_add. destruct (_ !! k); simpl; f_equal; lia.
      * done.
    + intros k. rewrite He2, Hd2, filter_cons.
      destruct (decide (k ∈ Heur.chars s)) as [Hk|Hk].
      * destruct (decide (k ∉ w)) as [Hkw|Hkw].
        -- rewrite decide_True by done. cbn [length].
           rewrite fmap_add_add. destruct (_ !! k); simpl; f_equal; lia.
        -- by rewrite decide_False by (by intros [_ ?]).
      * by rewrite decide_False by (by intros [? _]).
    + intros c p. rewrite He3, Hd3, filter_cons.
      destruct (decide (w !! p = Some c)); cbn [length].
      * rewrite fmap_add_add. destruct (look2 _ c p); simpl; f_equal; lia.
      * done.
Qed.

Lemma reset_loop_lookup l s c :
  Heur.char_in_counts (foldl (λ s x, reset_state x s) s l) !! c
  = (if decide (c ∈ l) then Some 0 else Heur.char_in_counts s !! c) ∧
  Heur.char_notin_counts (foldl (λ s x, reset_state x s) s l) !! c
  = (if decide (c ∈ l) then Some 0 else Heur.char_notin_counts s !! c) ∧
  ∀ p, look2 (Heur.char_pos_counts (foldl (λ s x, reset_state x s) s l)) c p
       = if decide (c ∈ l)
         then (if decide (p < Heur._len s)%nat then Some 0 else None)
         else look2 (Heur.char_pos_counts s) c p.
Proof.
  revert s. induction l as [|x l IH]; intros s.
  - cbn [foldl].
    repeat rewrite (decide_False (P := c ∈ [])) by apply not_elem_of_nil.
    split; [done|]. split; [done|]. intros p.
    by rewrite decide_False by apply not_elem_of_nil.
  - cbn [foldl]. destruct (IH (reset_state x s)) as (Hi & Hn & Hp).
    rewrite Hi, Hn. simpl in *.
    destruct (decide (c ∈ l)) as [Hc|Hc].
    + assert (Hin : c ∈ x :: l) by (by right).
      repeat rewrite (decide_True _ _ Hin).
      split; [done|]. split; [done|].
      intros p. by rewrite Hp, (decide_True _ _ Hin).
    + destruct (decide (x = c)) as [->|Hne].
      * assert (Hin : c ∈ c :: l) by (by left).
        repeat rewrite (decide_True _ _ Hin). rewrite !lookup_insert_eq.
        split; [done|]. split; [done|].
        intros p. rewrite Hp, (decide_True _ _ Hin).
        rewrite look2_insert, decide_True by done.
        rewrite zeros_lookup, lookup_empty. apply decide_ext.
        rewrite elem_of_seq. lia.
      * assert (Hin : c ∉ x :: l) by (by intros [?|?]%elem_of_cons).
        repeat rewrite (decide_False _ _ Hin).
        rewrite !lookup_insert_ne by done.
        split; [done|]. split; [done|].
        intros p. rewrite Hp, (decide_False _ _ Hin).
        by rewrite look2_insert, decide_False.
Qed.

Lemma reset_loop_with_counts l d1 d2 d3 s :
  with_counts d1 d2 d3 (foldl (λ s x, reset_state x s) s l)
  = with_counts d1 d2 d3 s.
Proof.
  revert s. induction l as [|x l IH]; intros s; [done|].
  cbn [foldl]. rewrite IH. by destruct s.
Qed.

(** With every word no longer than [_len] and every letter of the words
    in [chars], [update_counts] returns, changes the three dicts only,
    and leaves in them the counts of the candidate set. *)
Lemma update_counts_run s :
  (∀ w, w ∈ Heur.answer_words s → (length w ≤ Heur._len s)%nat) →
  (∀ w c, w ∈ Heur.answer_words s → c ∈ w → c ∈ Heur.chars s) →
  ∃ d1 d2 d3,
    Heur.update_counts s = (with_counts d1 d2 d3 s, Ok ()) ∧
    ∀ c,
      d1 !! c = (if decide (c ∈ Heur.chars s)
                 then Some (tally (λ w, c ∈ w) (Heur.answer_words s))
                 else None) ∧
      d2 !! c = (if decide (c ∈ Heur.chars s)
                 then Some (tally (λ w, c ∉ w) (Heur.answer_words s))
                 else None) ∧
      ∀ p, look2 d3 c p
           = if decide (c ∈ Heur.chars s ∧ (p < Heur._len s)%nat)
             then Some (tally (λ w, w !! p = Some c) (Heur.answer_words s))
             else None.
Proof.
  intros Hlen Hchars.
  set (s0 := Heur.set_char_notin_counts ∅ (Heur.set_char_in_counts ∅
               (Heur.set_char_pos_counts ∅ s))).
  set (s1 := foldl (λ s x, reset_state x s) s0 (elements (Heur.chars s))).
  destruct (reset_loop_frame (elements (Heur.chars s)) s0) as (Hl1 & Hc1 & Ha1).
  fold s1 in Hl1, Hc1, Ha1. simpl in Hl1, Hc1, Ha1.
  assert (Hrun : Heur.update_counts s
                 = for_ (elements (Heur.answer_words s)) Heur.count_word s1).
  { unfold Heur.update_counts. unfold mbind, py_bind, modify, gets.
    fold s0. change (Heur.chars s0) with (Heur.chars s).
    rewrite (for_pure reset_state _ _ _ reset_char_run). fold s1.
    by rewrite Ha1. }
  destruct (count_words_run (elements (Heur.answer_words s)) s1)
    as (d1 & d2 & d3 & Hcount & Hd1 & Hd2 & Hd3).
  { apply Forall_forall. intros w Hw%elem_of_elements. rewrite Hl1, Hc1.
    split; [by apply Hlen|]. intros c. by apply Hchars. }
  { intros c Hc. apply reset_loop_keyed. left. apply elem_of_elements.
    by rewrite <- Hc1. }
  exists d1, d2, d3. split.
  { rewrite Hrun, Hcount. unfold s1. rewrite reset_loop_with_counts.
    by destruct s. }
  intros c.
  destruct (reset_loop_lookup (elements (Heur.chars s)) s0 c)
    as (Hi & Hn & Hp).
  fold s1 in Hi, Hn, Hp. simpl in Hi, Hn, Hp.
  rewrite Hd1, Hd2, Hi, Hn, Hc1. unfold tally.
  rewrite <- !filter_elements_size.
  destruct (decide (c ∈ Heur.chars s)) as [Hc|Hc].
  - rewrite !decide_True by (by apply elem_of_elements). simpl.
    split; [done|]. split; [done|].
    intros p. rewrite Hd3, Hp, decide_True by (by apply elem_of_elements).
    rewrite <- filter_elements_size.
    destruct (decide (p < Heur._len s)%nat).
    + by rewrite decide_True.
    + by rewrite decide_False by (by intros [_ ?]).
  - rewrite !decide_False by (by rewrite elem_of_elements). simpl.
    rewrite !lookup_empty. split; [done|]. split; [done|].
    intros p. rewrite Hd3, Hp, decide_False by (by rewrite elem_of_elements).
    rewrite decide_False by (by intros [? _]).
    unfold look2. by rewrite lookup_empty.
Qed.

(** Rebuilding the statistics of a session whose words fit its length
    leaves the statistics of the candidate set. *)
Lemma update_stats_exact s :
  (∀ w, w ∈ Heur.answer_words s → (length w ≤ Heur._len s)%nat) →
  Heur.num_answer_words s = Z.of_nat (size (Heur.answer_words s)) →
  stats_exact ((Heur.update_chars;; Heur.update_counts) s).1.
Proof.
  intros Hlen Hnum. unfold mbind, py_bind. rewrite update_chars_run.
  set (s1 := Heur.set_chars (letters (Heur.answer_words s)) s).
  destruct (update_counts_run s1) as (d1 & d2 & d3 & Hrun & Hd).
  - done.
  - intros w c Hw Hc. simpl. apply elem_of_letters. eauto.
  - rewrite Hrun. unfold stats_exact. simpl. split; [done|].
    split; [intros c; apply elem_of_letters|]. simpl in Hd. apply Hd.
Qed.

Lemma add_char_hint_exact c l p s :
  (p < Heur._len s)%nat → heur_sized s →
  stats_exact (Heur.add_char_hint c l p s).1.
Proof.
  intros Hp Hs. rewrite add_char_hint_run.
  rewrite keep_loop_total, filter_elements_set.
  2:{ apply Forall_forall. intros w Hw%elem_of_elements.
      by rewrite (Hs w Hw). }
  apply update_stats_exact; [|done].
  intros w [_ Hw]%elem_of_filter. simpl. by rewrite (Hs w Hw).
Qed.

Lemma char_hints_exact its s :
  Forall (λ it : nat * (ascii * ascii), (it.1 < Heur._len s)%nat) its →
  heur_sized s → stats_exact s → stats_exact (char_hints its s).1.
Proof.
  revert s. induction its as [|[pos [char label]] its IH]; intros s Hits Hs He.
  - done.
  - apply Forall_cons in Hits as [Hp Hits]. simpl in Hp.
    pose proof (add_char_hint_exact char label pos s Hp Hs) as He1.
    destruct (add_char_hint_sized char label pos s Hp Hs)
      as (s1 & H1 & Ha1 & Hl1 & Hs1 & Hst1).
    rewrite char_hints_cons, H1. rewrite H1 in He1.
    apply IH; [by rewrite Hl1|done|done].
Qed.

Lemma heur_add_word_hint_exact word label s :
  valid_hint word label → (length word ≤ Heur._len s)%nat →
  heur_sized s → stats_exact s →
  stats_exact (Heur.add_word_hint word label s).1.
Proof.
  intros Hv Hlen Hs He. rewrite heur_add_word_hint_valid by done.
  apply char_hints_exact; [|done|done].
  eapply Forall_impl; [apply enumerate_lt|]. intros it Hit. simpl in *.
  rewrite length_zip in Hit. lia.
Qed.

Lemma heur_session_exact hs s :
  Forall (λ h : str * str,
            valid_hint h.1 h.2 ∧ (length h.1 ≤ Heur._len s)%nat) hs →
  heur_sized s → heur_stats s → stats_exact s →
  stats_exact (heur_session hs s).1.
Proof.
  revert s. induction hs as [|[w l] hs IH]; intros s Hhs Hs Hst He; [done|].
  apply Forall_cons in Hhs as [[Hv Hlen] Hhs]. simpl in Hv, Hlen.
  pose proof (heur_add_word_hint_exact w l s Hv Hlen Hs He) as He1.
  destruct (heur_add_word_hint_sized w l s Hv Hlen Hs Hst)
    as (s1 & H1 & Ha1 & Hl1 & Hs1 & Hst1).
  unfold heur_session in *. rewrite for_cons. simpl. rewrite H1.
  rewrite H1 in He1. apply IH; try done.
  eapply Forall_impl; [exact Hhs|]. intros h. by rewrite Hl1.
Qed.

Lemma heur_init_exact (len : nat) (allowed answers : gset str) :
  (∀ w, w ∈ answers → length w = len) →
  stats_exact (Heur.init len allowed answers).1.
Proof.
  intros Hlen. unfold Heur.init. apply update_stats_exact; [|done].
  intros w Hw. simpl in *. by rewrite (Hlen w Hw).
Qed.

(** X13. The statistics are those of the candidates.  After [__init__]
    on words of the session's length and any number of hints that pass
    the assertions, with guesses no longer than the words:
    [num_answer_words] is the number of candidates, [chars] holds
    exactly their letters, the three dicts have a key for each letter of
    [chars] and no other, and for such a letter [char_in_counts] is the
    number of candidates that hold it, [char_notin_counts] the number
    that do not, and [char_pos_counts] at a position below [_len] the
    number that hold it there. *)
Theorem heur_statistics_exact (len : nat) (allowed answers : gset str)
    (hs : list (str * str)) :
  (∀ w, w ∈ answers → length w = len) →
  Forall (λ h : str * str,
            valid_hint h.1 h.2 ∧ (length h.1 ≤ len)%nat) hs →
  ∃ s0 s,
    Heur.init len allowed answers = (s0, Ok ()) ∧
    heur_session hs s0 = (s, Ok ()) ∧
    stats_exact s.
Proof.
  intros Hlen Hhs.
  destruct (heur_init_run len allowed answers Hlen)
    as (s0 & Hinit & Ha0 & Hl0 & Hs0 & Hst0).
  assert (He0 : stats_exact s0).
  { replace s0 with (Heur.init len allowed answers).1 by (by rewrite Hinit).
    by apply heur_init_exact. }
  assert (Hhs' : Forall (λ h : str * str,
             valid_hint h.1 h.2 ∧ (length h.1 ≤ Heur._len s0)%nat) hs).
  { by rewrite Hl0. }
  destruct (heur_session_sized hs s0 Hhs' Hs0 Hst0) as (s & Hrun & _).
  exists s0, s. split; [done|]. split; [done|].
  replace s with (heur_session hs s0).1 by (by rewrite Hrun).
  by apply heur_session_exact.
Qed.

Lemma heur_statistics_exact_witness :
  ∃ s0 s,
    Heur.init 5 (list_to_set pool_allowed) (list_to_set pool_answers)
    = (s0, Ok ()) ∧
    heur_session [(str_of "allay", str_of "11202")] s0 = (s, Ok ()) ∧
    stats_exact s.
Proof.
  apply (heur_statistics_exact 5 (list_to_set pool_allowed)
           (list_to_set pool_answers) [(str_of "allay", str_of "11202")]).
  - intros w Hw. apply elem_of_list_to_set in Hw.
    repeat (apply elem_of_cons in Hw as [->|Hw]; [done|]).
    by apply elem_of_nil in Hw.
  - repeat constructor.
Defined.

(** ** The information of a distribution: bounds and invariance *)

Lemma sumR_cons x l : sumR (x :: l) = (x + sumR l)%R.
Proof. done. Qed.

Lemma sumR_perm l1 l2 : l1 ≡ₚ l2 → sumR l1 = sumR l2.
Proof.
  induction 1 as [|x l1 l2 _ IH|x y l|l1 l2 l3 _ IH1 _ IH2];
    rewrite ?sumR_cons; [done|lra|lra|congruence].
Qed.

Lemma sumR_div total ec :
  sumR ((λ x, x / total)%R <$> ec) = (sumR ec / total)%R.
Proof.
  induction ec as [|x ec IH]; [simpl; lra|].
  rewrite fmap_cons, !sumR_cons, IH. lra.
Qed.

Lemma sumR_pos ec : Forall (λ x, (0 < x)%R) ec → ec ≠ [] → (0 < sumR ec)%R.
Proof.
  intros Hpos Hne. destruct ec as [|x ec]; [done|].
  apply Forall_cons in Hpos as [Hx Hpos].
  destruct (sumR_bounds ec Hpos) as [H0 _]. rewrite sumR_cons. lra.
Qed.

Lemma sumR_strict ec :
  Forall (λ x, (0 < x)%R) ec → (2 ≤ length ec)%nat →
  Forall (λ x, (0 < x < sumR ec)%R) ec.
Proof.
  intros Hpos Hlen. apply Forall_forall. intros x Hx.
  apply elem_of_Permutation in Hx as [k Hk].
  rewrite (sumR_perm _ _ Hk), sumR_cons. rewrite Hk in Hpos, Hlen.
  apply Forall_cons in Hpos as [Hx Hk'].
  assert (0 < sumR k)%R; [|lra].
  apply sumR_pos; [done|]. destruct k; simpl in *; [lia|done].
Qed.

Lemma info_terms_cons total x ec :
  info_terms total (x :: ec)
  = (x / total * ln (x / total) + info_terms total ec)%R.
Proof. done. Qed.

Lemma info_terms_neg total ec :
  (0 < total)%R → ec ≠ [] → Forall (λ x, (0 < x < total)%R) ec →
  (info_terms total ec < 0)%R.
Proof.
  intros HT Hne Hall. destruct ec as [|x ec']; [done|].
  apply Forall_cons in Hall as [[Hx Hlt] Hall].
  rewrite info_terms_cons.
  assert (info_terms total ec' <= 0)%R.
  { apply info_terms_nonpos; [done|].
    eapply Forall_impl; [exact Hall|]. simpl. intros y ?. lra. }
  assert (Hp : (0 < x / total < 1)%R).
  { split; [by apply Rdiv_lt_0_compat|].
    apply Rmult_lt_reg_r with total; [done|]. unfold Rdiv.
    rewrite Rmult_assoc, Rinv_l by lra. lra. }
  assert (ln (x / total) < 0)%R.
  { rewrite <- ln_1. apply ln_increasing; lra. }
  nra.
Qed.

Lemma positive_counts (l : list Z) :
  Forall (λ x, (0 < x)%R) (IZR <$> filter (λ z, 0 < z) l).
Proof.
  apply Forall_fmap, Forall_forall. intros x [Hx _]%list_elem_of_filter.
  simpl. by apply IZR_lt.
Qed.

Lemma ln_le_sub1 y : (0 < y)%R → (ln y <= y - 1)%R.
Proof.
  intros Hy. pose proof (exp_ineq1_le (ln y)) as H.
  rewrite exp_ln in H by done. lra.
Qed.

Lemma gibbs_step p n :
  (0 < p)%R → (0 < n)%R → (- (p * ln p) <= p * ln n + / n - p)%R.
Proof.
  intros Hp Hn.
  assert (Hnp : (0 < n * p)%R) by nra.
  pose proof (ln_le_sub1 (/ (n * p)) (Rinv_0_lt_compat _ Hnp)) as H.
  rewrite ln_Rinv, ln_mult in H by done.
  assert (Hinv : (p * / (n * p) = / n)%R) by (field; lra).
  nra.
Qed.

Lemma gibbs total n ec :
  (0 < total)%R → (0 < n)%R → Forall (λ x, (0 < x)%R) ec →
  (- info_terms total ec
   <= sumR ((λ x, x / total)%R <$> ec) * ln n + INR (length ec) * / n
      - sumR ((λ x, x / total)%R <$> ec))%R.
Proof.
  intros HT Hn. induction 1 as [|x ec Hx _ IH].
  - unfold info_terms. simpl. lra.
  - rewrite info_terms_cons, fmap_cons, sumR_cons.
    cbn [length]. rewrite S_INR.
    pose proof (gibbs_step (x / total) n (Rdiv_lt_0_compat _ _ Hx HT) Hn).
    nra.
Qed.

Lemma get_information_upper (l : list Z) :
  (Heur.get_information l
   <= ln (INR (1 `max` length (filter (λ z, (0 < z)%Z) l))))%R.
Proof.
  rewrite get_information_unfold.
  pose proof (positive_counts l) as Hpos.
  destruct (filter (λ z, 0 < z) l) as [|z pos].
  - simpl. rewrite ln_1. lra.
  - set (ec := IZR <$> z :: pos) in *.
    assert (HT : (0 < sumR ec)%R) by (by apply sumR_pos).
    assert (Hn : (0 < INR (length ec))%R).
    { unfold ec. rewrite length_fmap. cbn [length]. apply lt_0_INR. lia. }
    pose proof (gibbs (sumR ec) (INR (length ec)) ec HT Hn Hpos) as Hg.
    rewrite sumR_div in Hg.
    replace (sumR ec / sumR ec)%R with 1%R in Hg by (field; lra).
    rewrite Rinv_r in Hg by lra.
    rewrite Nat.max_r by (cbn [length]; lia).
    unfold ec in Hg. rewrite length_fmap in Hg. fold ec in Hg.
    cbv zeta. fold ec. lra.
Qed.

Lemma get_information_zero_iff (l : list Z) :
  Heur.get_information l = 0%R ↔
  (length (filter (λ z, (0 < z)%Z) l) ≤ 1)%nat.
Proof.
  rewrite get_information_unfold.
  pose proof (positive_counts l) as Hpos.
  destruct (filter (λ z, 0 < z) l) as [|z pos].
  - simpl. split; [lia|done].
  - destruct pos as [|z' pos].
    + simpl. split; [lia|]. intros _.
      apply Forall_cons in Hpos as [Hz _].
      unfold info_terms. simpl.
      replace (IZR z / (IZR z + 0))%R with 1%R by (field; lra).
      rewrite ln_1. lra.
    + cbn [length]. cbv zeta. split; [|lia]. intros H0. exfalso.
      set (ec := IZR <$> z :: z' :: pos) in *.
      assert (HT : (0 < sumR ec)%R) by (by apply sumR_pos).
      pose proof (info_terms_neg (sumR ec) ec HT) as Hneg.
      assert (info_terms (sumR ec) ec < 0)%R; [|lra].
      apply Hneg; [done|]. apply sumR_strict; [done|].
      unfold ec. rewrite length_fmap. cbn [length]. lia.
Qed.

(** X14. The bounds of [get_information]: it lies between 0 and the
    logarithm of the number of positive counts, and it is 0 exactly when
    at most one count is positive, that is when the outcome is
    certain. *)
Theorem get_information_bounds (l : list Z) :
  (0 <= Heur.get_information l
   <= ln (INR (1 `max` length (filter (λ z, (0 < z)%Z) l))))%R ∧
  (Heur.get_information l = 0%R ↔
   (length (filter (λ z, (0 < z)%Z) l) ≤ 1)%nat).
Proof.
  split; [split|].
  - apply get_information_nonneg.
  - apply get_information_upper.
  - apply get_information_zero_iff.
Qed.






(** ** The heuristic session: every outcome of a hint *)

Lemma char_hint_keeps_raises c l p (w : str) :
  l = "1"%char ∨ l = "2"%char → c ∈ w → (length w ≤ p)%nat →
  Heur.char_hint_keeps c l p w = Raise IndexError.
Proof.
  intros Hl Hc Hp. unfold Heur.char_hint_keeps, index.
  rewrite (bool_decide_eq_true_2 _ Hc), (lookup_ge_None_2 w p) by done.
  by destruct Hl as [-> | ->].
Qed.

Lemma char_hint_keeps_returns c l p (w : str) :
  ¬ ((l = "1"%char ∨ l = "2"%char) ∧ c ∈ w) →
  ∃ b, Heur.char_hint_keeps c l p w = Ok b.
Proof.
  intros Hno. unfold Heur.char_hint_keeps.
  destruct (decide (c ∈ w)) as [Hc|Hc];
    [rewrite (bool_decide_eq_true_2 _ Hc)
    |rewrite (bool_decide_eq_false_2 _ Hc)].
  - assert (H1 : l ≠ "1"%char) by (intros ->; apply Hno; eauto).
    assert (H2 : l ≠ "2"%char) by (intros ->; apply Hno; eauto).
    rewrite (bool_decide_eq_false_2 _ H1), (bool_decide_eq_false_2 _ H2).
    case_bool_decide; simpl; eauto.
  - simpl. rewrite andb_false_r.
    repeat (case_bool_decide; simpl; eauto).
Qed.

Lemma char_hint_keeps_run c l p (w : str) :
  Heur.char_hint_keeps c l p w
  = if decide ((l = "1"%char ∨ l = "2"%char) ∧ c ∈ w ∧ (length w ≤ p)%nat)
    then Raise IndexError
    else Ok (bool_decide (char_rule c l p w)).
Proof.
  case_decide as Hd.
  - destruct Hd as (Hl & Hc & Hp). by apply char_hint_keeps_raises.
  - destruct (decide (p < length w)%nat) as [Hp|Hp];
      [by apply char_hint_keeps_total|].
    destruct (char_hint_keeps_returns c l p w) as [b Hb].
    { intros [Hl Hc]. apply Hd. split; [done|]. split; [done|lia]. }
    rewrite Hb. apply char_hint_keeps_Ok in Hb. f_equal.
    destruct b; symmetry.
    + apply bool_decide_eq_true. by apply Hb.
    + apply bool_decide_eq_false. intros Hr. by apply Hb in Hr.
Qed.

Lemma keep_loop_outcome c l p (todo : list str) acc :
  keep_loop c l p acc todo
  = if decide (Exists (λ w : str, (l = "1"%char ∨ l = "2"%char) ∧ c ∈ w ∧
                                  (length w ≤ p)%nat) todo)
    then Raise IndexError
    else Ok (acc ∪ list_to_set (filter (char_rule c l p) todo)).
Proof.
  unfold keep_loop. revert acc.
  induction todo as [|w todo IH]; intros acc; cbn [foldM].
  - rewrite decide_False by (by intros ?%Exists_nil).
    unfold mret, result_ret. f_equal. set_solver.
  - rewrite char_hint_keeps_run.
    destruct (decide ((l = "1"%char ∨ l = "2"%char) ∧ c ∈ w ∧
                      (length w ≤ p)%nat)) as [Hw|Hw].
    + rewrite decide_True by (apply Exists_cons; by left). reflexivity.
    + cbn [mbind result_bind]. rewrite IH. rewrite filter_cons.
      destruct (decide (Exists (λ w : str, (l = "1"%char ∨ l = "2"%char) ∧
                          c ∈ w ∧ (length w ≤ p)%nat) todo)) as [Hex|Hex].
      * rewrite decide_True by (apply Exists_cons; by right). reflexivity.
      * rewrite decide_False by (by intros [?|?]%Exists_cons).
        f_equal. case_bool_decide.
        -- rewrite decide_True by done. set_solver.
        -- by rewrite decide_False by done.
Qed.

Lemma add_char_hint_len c l p : preserves Heur._len (Heur.add_char_hint c l p).
Proof.
  unfold Heur.add_char_hint, Heur.update_chars. frame_counts.
Qed.

Lemma add_char_hint_cases (c l : ascii) (p : nat) (s : Heur.state) :
  heur_sized s →
  match Heur.add_char_hint c l p s with
  | (s', Ok _) =>
      Heur.answer_words s' = filter (char_rule c l p) (Heur.answer_words s) ∧
      ¬ ((l = "1"%char ∨ l = "2"%char) ∧ (Heur._len s ≤ p)%nat ∧
         ∃ w, w ∈ Heur.answer_words s ∧ c ∈ w)
  | (s', Raise e) =>
      e = IndexError ∧ s' = s ∧
      (l = "1"%char ∨ l = "2"%char) ∧ (Heur._len s ≤ p)%nat ∧
      ∃ w, w ∈ Heur.answer_words s ∧ c ∈ w
  end.
Proof.
  intros Hs. rewrite add_char_hint_run, keep_loop_outcome.
  case_decide as Hex.
  - apply Exists_exists in Hex as (w & Hw%elem_of_elements & Hl & Hc & Hp).
    rewrite (Hs w Hw) in Hp. eauto 10.
  - rewrite filter_elements_set.
    set (ws := filter (char_rule c l p) (Heur.answer_words s)).
    destruct (update_stats_run
                (Heur.set_num_answer_words (Z.of_nat (size ws))
                   (Heur.set_answer_words ws s)))
      as (s' & Hrun & Ha & _).
    { intros w [_ Hw]%elem_of_filter. simpl. by rewrite (Hs w Hw). }
    rewrite Hrun. split; [done|].
    intros (Hl & Hp & w & Hw & Hc). apply Hex, Exists_exists.
    exists w. rewrite elem_of_elements, (Hs w Hw). done.
Qed.



Lemma filter_chars_rule_nil (X : gset str) : filter (chars_rule []) X = X.
Proof.
  apply set_eq. intros w. rewrite elem_of_filter. unfold chars_rule.
  split; [by intros [_ ?]|]. intros ?. split; [constructor|done].
Qed.

Lemma filter_chars_rule_snoc (its : list (nat * (ascii * ascii)))
    (it : nat * (ascii * ascii)) (X : gset str) :
  filter (char_rule it.2.1 it.2.2 it.1) (filter (chars_rule its) X)
  = filter (chars_rule (its ++ [it])) X.
Proof.
  apply set_eq. intros w. rewrite !elem_of_filter. unfold chars_rule.
  rewrite Forall_app, Forall_singleton. tauto.
Qed.

Lemma char_hints_outcome (its done_ : list (nat * (ascii * ascii)))
    (s0 s : Heur.state) :
  heur_sized s → Heur._len s = Heur._len s0 →
  Heur.answer_words s = filter (chars_rule done_) (Heur.answer_words s0) →
  match char_hints its s with
  | (s', Ok _) =>
      Heur.answer_words s'
      = filter (chars_rule (done_ ++ its)) (Heur.answer_words s0)
  | (s', Raise e) =>
      e = IndexError ∧
      ∃ k it, its !! k = Some it ∧ (Heur._len s0 ≤ it.1)%nat ∧
              (it.2.2 = "1"%char ∨ it.2.2 = "2"%char) ∧
              Heur.answer_words s'
              = filter (chars_rule (done_ ++ take k its))
                       (Heur.answer_words s0)
  end.
Proof.
  revert done_ s. induction its as [|[pos [char label]] its IH];
    intros done_ s Hs Hl Ha.
  - unfold char_hints. rewrite for_nil. by rewrite app_nil_r.
  - rewrite char_hints_cons.
    pose proof (add_char_hint_cases char label pos s Hs) as Hout.
    pose proof (add_char_hint_len char label pos s) as Hlen.
    destruct (Heur.add_char_hint char label pos s) as [s1 [[]|e]].
    + destruct Hout as [Ha1 _]. simpl in Hlen.
      specialize (IH (done_ ++ [(pos, (char, label))]) s1).
      rewrite <- !app_assoc in IH. simpl in IH.
      destruct (char_hints its s1) as [s' [[]|e]].
      * apply IH; [|congruence|].
        -- intros w Hw. rewrite Ha1 in Hw.
           apply elem_of_filter in Hw as [_ Hw]. rewrite Hlen. by apply Hs.
        -- rewrite Ha1, Ha.
           apply (filter_chars_rule_snoc done_ (pos, (char, label))).
      * destruct IH as (-> & k & it & Hk & Hit & Hlab & Hans);
          [|congruence| |].
        -- intros w Hw. rewrite Ha1 in Hw.
           apply elem_of_filter in Hw as [_ Hw]. rewrite Hlen. by apply Hs.
        -- rewrite Ha1, Ha.
           apply (filter_chars_rule_snoc done_ (pos, (char, label))).
        -- rewrite <- app_assoc in Hans. split; [done|].
           by exists (S k), it.
    + destruct Hout as (-> & -> & Hlab & Hp & _). split; [done|].
      exists 0%nat, (pos, (char, label)). simpl.
      rewrite app_nil_r, <- Hl. done.
Qed.

(** X17. Every outcome of [add_word_hint] in [wordle.py], on a session
    whose candidates have the session's length.  A hint that fails an
    assertion raises AssertionError and leaves the state as it was.  A
    hint that passes them returns with the candidates that obey all its
    characters, unless the guess is longer than the words: then it may
    raise IndexError at a character beyond them, labelled '1' or '2',
    and the candidates stay filtered by the characters before that one:
    the call is not undone.  It raises nothing else. *)
Theorem heur_add_word_hint_outcome (word label : str) (s : Heur.state) :
  heur_sized s →
  match Heur.add_word_hint word label s with
  | (s', Ok _) =>
      valid_hint word label ∧
      Heur.answer_words s'
      = filter (chars_rule (enumerate (zip word label)))
               (Heur.answer_words s)
  | (s', Raise (AssertionError _)) => ¬ valid_hint word label ∧ s' = s
  | (s', Raise IndexError) =>
      valid_hint word label ∧
      ∃ k, (Heur._len s ≤ k < length word)%nat ∧
           (label !! k = Some "1"%char ∨ label !! k = Some "2"%char) ∧
           Heur.answer_words s'
           = filter (chars_rule (take k (enumerate (zip word label))))
                    (Heur.answer_words s)
  | (s', Raise KeyError) | (s', Raise NameError) => False
  end.
Proof.
  intros Hs. destruct (decide (valid_hint word label)) as [Hv|Hv].
  - rewrite heur_add_word_hint_valid by done.
    pose proof (char_hints_outcome (enumerate (zip word label)) [] s s Hs
                  eq_refl) as Hout.
    rewrite filter_chars_rule_nil in Hout. specialize (Hout eq_refl).
    simpl in Hout.
    destruct (char_hints (enumerate (zip word label)) s) as [s' [[]|e]];
      [done|].
    destruct Hout as (-> & k & [i [c l]] & Hk & Hlen & Hlab & Hans).
    split; [done|]. exists k.
    unfold enumerate in Hk. apply lookup_zip_with_Some in Hk
      as (i' & cl & [= <- <-] & Hi & Hcl).
    apply lookup_seq in Hi as [-> Hi]. simpl in *.
    apply lookup_zip_with_Some in Hcl as (c' & l' & [= <- <-] & Hc & Hl').
    apply lookup_lt_Some in Hc. split; [lia|]. split; [|done].
    rewrite Hl'. destruct Hlab as [-> | ->]; eauto.
  - destruct (heur_add_word_hint_atomic word label s Hv) as [Hst [msg Hr]].
    destruct (Heur.add_word_hint word label s) as [s' r]. simpl in *.
    by subst.
Qed.

Lemma heur_add_word_hint_outcome_witness :
  match Heur.add_word_hint (str_of "shallow") (str_of "0000011")
                           heur_fixture with
  | (s', Ok _) =>
      valid_hint (str_of "shallow") (str_of "0000011") ∧
      Heur.answer_words s'
      = filter (chars_rule (enumerate (zip (str_of "shallow")
                                           (str_of "0000011"))))
               (Heur.answer_words heur_fixture)
  | (s', Raise (AssertionError _)) =>
      ¬ valid_hint (str_of "shallow") (str_of "0000011") ∧ s' = heur_fixture
  | (s', Raise IndexError) =>
      valid_hint (str_of "shallow") (str_of "0000011") ∧
      ∃ k, (Heur._len heur_fixture ≤ k < length (str_of "shallow"))%nat ∧
           (str_of "0000011" !! k = Some "1"%char ∨
            str_of "0000011" !! k = Some "2"%char) ∧
           Heur.answer_words s'
           = filter (chars_rule (take k (enumerate
                                   (zip (str_of "shallow")
                                        (str_of "0000011")))))
                    (Heur.answer_words heur_fixture)
  | (s', Raise KeyError) | (s', Raise NameError) => False
  end.
Proof.
  apply (heur_add_word_hint_outcome (str_of "shallow") (str_of "0000011")
           heur_fixture).
  apply heur_fixture_wf.
Defined.

Lemma heur_add_word_hint_frame word label :
  preserves Heur.allowed_words (Heur.add_word_hint word label) ∧
  preserves Heur.num_allowed_words (Heur.add_word_hint word label) ∧
  preserves Heur._len (Heur.add_word_hint word label).
Proof.
  unfold Heur.add_word_hint, Heur.add_char_hint, Heur.update_chars.
  split; [|split]; frame_counts.
Qed.

(** X18. The hints never touch the list of allowed words: whatever the
    hints, and whether the session returns or ends on an exception,
    [allowed_words], [num_allowed_words] and [_len] are what [__init__]
    left, so [predict(can_ignore_hints=True)] always ranks the whole
    allowed list. *)
Theorem heur_session_keeps_allowed (hs : list (str * str)) (s : Heur.state) :
  Heur.allowed_words (heur_session hs s).1 = Heur.allowed_words s ∧
  Heur.num_allowed_words (heur_session hs s).1 = Heur.num_allowed_words s ∧
  Heur._len (heur_session hs s).1 = Heur._len s.
Proof.
  unfold heur_session.
  split; [|split]; apply preserves_for; intros h; apply heur_add_word_hint_frame.
Qed.

(** ** The heuristic score: which letters inform *)

Lemma tally_pos (P : str → Prop) `{!∀ w, Decision (P w)} (X : gset str) :
  0 < tally P X ↔ ∃ w, w ∈ X ∧ P w.
Proof.
  unfold tally. split.
  - intros Hpos.
    destruct (set_choose_or_empty (filter P X)) as [[w Hw]|Hemp].
    + apply elem_of_filter in Hw as [? ?]. eauto.
    + apply size_empty_iff in Hemp. lia.
  - intros (w & Hw & HP).
    assert (size (filter P X) ≠ 0%nat); [|lia].
    rewrite size_empty_iff. intros Hemp.
    apply (not_elem_of_empty (C := gset str) w), Hemp, elem_of_filter. done.
Qed.

Lemma tally_none (P : str → Prop) `{!∀ w, Decision (P w)} (X : gset str) :
  (∀ w, w ∈ X → ¬ P w) → tally P X = 0.
Proof.
  intros Hno. destruct (decide (0 < tally P X)) as [Hpos|Hpos].
  - apply tally_pos in Hpos as (w & Hw & HP). by destruct (Hno w Hw).
  - unfold tally in *. lia.
Qed.

Lemma tally_all (P : str → Prop) `{!∀ w, Decision (P w)} (X : gset str) :
  (∀ w, w ∈ X → P w) → tally P X = Z.of_nat (size X).
Proof.
  intros Hall. unfold tally. do 2 f_equal. apply set_eq. intros w.
  rewrite elem_of_filter. naive_solver.
Qed.

Lemma get_information_one (a b c : Z) :
  (a ≤ 0 ∧ b ≤ 0) ∨ (a ≤ 0 ∧ c ≤ 0) ∨ (b ≤ 0 ∧ c ≤ 0) →
  Heur.get_information [a; b; c] = 0%R.
Proof.
  intros H. apply get_information_zero_iff.
  rewrite !filter_cons, filter_nil. repeat case_decide; simpl; lia.
Qed.

(** X19. The presence information of a letter, in a session whose
    statistics are those of the candidates: [get_char_info] returns,
    and what it returns is positive exactly when the letter splits the
    candidates, some holding it and some not. *)
Theorem heur_char_info_splits (s : Heur.state) (c : ascii) :
  stats_exact s →
  ∃ y, Heur.get_char_info s c = Ok y ∧
       ((0 < y)%R ↔
        (∃ w, w ∈ Heur.answer_words s ∧ c ∈ w) ∧
        (∃ w, w ∈ Heur.answer_words s ∧ c ∉ w)).
Proof.
  intros (_ & Hchars & Hd). destruct (Hd c) as (Hi & Hn & _).
  unfold Heur.get_char_info.
  destruct (decide (c ∉ Heur.chars s)) as [Hc|Hc].
  - exists 0%R. split; [done|]. split; [lra|].
    intros [Hin _]. by apply Hchars in Hin.
  - apply dec_stable in Hc. rewrite decide_True in Hi, Hn by done.
    unfold getitem. rewrite Hi, Hn. cbn [mbind result_bind].
    eexists. split; [done|].
    rewrite <- !tally_pos.
    pose proof (get_information_nonneg
      [tally (λ w : str, c ∈ w) (Heur.answer_words s);
       tally (λ w : str, c ∉ w) (Heur.answer_words s)]) as H0.
    pose proof (get_information_zero_iff
      [tally (λ w : str, c ∈ w) (Heur.answer_words s);
       tally (λ w : str, c ∉ w) (Heur.answer_words s)]) as Hz.
    rewrite !filter_cons, filter_nil in Hz.
    split.
    + intros Hy. repeat case_decide; try done; simpl in Hz;
        exfalso; assert (Heur.get_information
          [tally (λ w : str, c ∈ w) (Heur.answer_words s);
           tally (λ w : str, c ∉ w) (Heur.answer_words s)] = 0%R)
          by (apply Hz; lia); lra.
    + intros [Ha Hb]. rewrite !decide_True in Hz by done. simpl in Hz.
      destruct (Req_dec (Heur.get_information
          [tally (λ w : str, c ∈ w) (Heur.answer_words s);
           tally (λ w : str, c ∉ w) (Heur.answer_words s)]) 0) as [He|He];
        [apply Hz in He; lia|lra].
Qed.

Lemma heur_init_fields (len : nat) (allowed answers : gset str) :
  (∀ w, w ∈ answers → length w = len) →
  Heur._len (Heur.init len allowed answers).1 = len ∧
  Heur.answer_words (Heur.init len allowed answers).1 = answers.
Proof.
  intros Hlen.
  destruct (heur_init_run len allowed answers Hlen)
    as (s & -> & Ha & Hl & _).
  done.
Qed.

Lemma heur_char_info_splits_witness :
  ∃ y, Heur.get_char_info
         (Heur.init 5 (list_to_set pool_allowed)
                    (list_to_set pool_answers)).1 "r" = Ok y ∧
       ((0 < y)%R ↔
        (∃ w, w ∈ Heur.answer_words
                    (Heur.init 5 (list_to_set pool_allowed)
                               (list_to_set pool_answers)).1 ∧
              "r"%char ∈ w) ∧
        (∃ w, w ∈ Heur.answer_words
                    (Heur.init 5 (list_to_set pool_allowed)
                               (list_to_set pool_answers)).1 ∧
              "r"%char ∉ w)).
Proof.
  apply (heur_char_info_splits
           (Heur.init 5 (list_to_set pool_allowed)
                      (list_to_set pool_answers)).1 "r").
  apply heur_init_exact.
  intros w Hw. apply elem_of_list_to_set in Hw.
  repeat (apply elem_of_cons in Hw as [->|Hw]; [done|]).
  by apply elem_of_nil in Hw.
Defined.

Lemma char_infos_agree (s : Heur.state) (c : ascii) (p : nat) :
  stats_exact s → (p < Heur._len s)%nat →
  (∀ w1 w2, w1 ∈ Heur.answer_words s → w2 ∈ Heur.answer_words s →
            (c ∈ w1 ↔ c ∈ w2) ∧ (w1 !! p = Some c ↔ w2 !! p = Some c)) →
  Heur.get_char_pos_info_approx s c p = Ok 0%R ∧
  Heur.get_char_info s c = Ok 0%R.
Proof.
  intros (_ & Hchars & Hd) Hp Hagree. destruct (Hd c) as (Hi & Hn & Hpos).
  specialize (Hpos p).
  destruct (decide (c ∉ Heur.chars s)) as [Hc|Hc];
    [by apply char_infos_absent|].
  apply dec_stable in Hc.
  rewrite decide_True in Hi, Hn by done.
  rewrite decide_True in Hpos by (by split).
  apply Hchars in Hc as Hw0. destruct Hw0 as (w0 & Hw0 & Hcw0).
  assert (Hnotin : tally (λ w : str, c ∉ w) (Heur.answer_words s) = 0).
  { apply tally_none. intros w Hw Hcw. by apply Hcw, (Hagree w0 w). }
  rewrite Hnotin in Hn.
  unfold look2 in Hpos.
  destruct (Heur.char_pos_counts s !! c) as [d|] eqn:Hdc; [|done].
  simpl in Hpos.
  unfold Heur.get_char_pos_info_approx, Heur.get_char_info.
  rewrite !decide_False by (by intros Hno; apply Hno).
  unfold getitem. rewrite Hi, Hn, Hdc. cbn [mbind result_bind].
  rewrite Hpos. cbn [mbind result_bind]. split; f_equal.
  - apply get_information_one.
    destruct (decide (w0 !! p = Some c)) as [Hp0|Hp0].
    + right. right. split; [|done].
      rewrite (tally_all (λ w : str, c ∈ w))
        by (intros w Hw; by apply (Hagree w0 w)).
      rewrite (tally_all (λ w : str, w !! p = Some c))
        by (intros w Hw; by apply (Hagree w0 w)).
      lia.
    + right. left. split; [|done]. rewrite tally_none; [done|].
      intros w Hw Hwp. by apply Hp0, (Hagree w0 w).
  - apply get_information_zero_iff.
    rewrite !filter_cons, filter_nil. repeat case_decide; simpl; lia.
Qed.

Lemma word_info_loop_zero s (rest : str) (i : nat) (info : R)
    (wc : gset ascii) :
  (∀ j c, rest !! j = Some c →
          Heur.get_char_pos_info_approx s c (i + j) = Ok 0%R ∧
          Heur.get_char_info s c = Ok 0%R) →
  ∃ wc', foldM (M := result) (Heur.word_info_step s) (info, wc)
               (zip (seq i (length rest)) rest) = Ok (info, wc').
Proof.
  revert i info wc.
  induction rest as [|c rest IH]; intros i info wc Hz.
  { by exists wc. }
  cbn [length seq zip zip_with foldM].
  destruct (Hz 0%nat c eq_refl) as [Hx Hy]. rewrite Nat.add_0_r in Hx.
  unfold Heur.word_info_step at 2. rewrite Hx. cbn [mbind result_bind].
  assert (Hrest : ∀ j c', rest !! j = Some c' →
            Heur.get_char_pos_info_approx s c' (S i + j) = Ok 0%R ∧
            Heur.get_char_info s c' = Ok 0%R).
  { intros j c' Hj. specialize (Hz (S j) c' Hj).
    by replace (S i + j)%nat with (i + S j)%nat by lia. }
  destruct (decide (c ∈ wc)).
  - rewrite Hy. cbn [mbind result_bind].
    replace (info + 0 - 0)%R with info by lra. by apply IH.
  - cbn [mbind result_bind]. replace (info + 0)%R with info by lra.
    by apply IH.
Qed.

(** X20. A guess that cannot tell the candidates apart scores 0.  In a
    session whose statistics are those of the candidates, if at every
    position of the word, no longer than the session's length, the
    candidates all agree on whether they hold its letter and on whether
    they hold it there, then [get_word_info_approx] returns 0.  So with
    a single candidate left every word scores 0, the candidate
    included. *)
Theorem heur_no_information (s : Heur.state) (word : str) :
  stats_exact s → (length word ≤ Heur._len s)%nat →
  (∀ i c w1 w2,
     word !! i = Some c →
     w1 ∈ Heur.answer_words s → w2 ∈ Heur.answer_words s →
     (c ∈ w1 ↔ c ∈ w2) ∧ (w1 !! i = Some c ↔ w2 !! i = Some c)) →
  Heur.get_word_info_approx s word = Ok 0%R.
Proof.
  intros He Hlen Hagree. unfold Heur.get_word_info_approx, enumerate.
  destruct (word_info_loop_zero s word 0 0%R ∅) as [wc ->]; [|done].
  intros j c Hj. apply char_infos_agree; [done| |].
  - apply lookup_lt_Some in Hj. lia.
  - intros w1 w2 H1 H2. by apply (Hagree j c).
Qed.

Lemma heur_fixture_exact :
  stats_exact heur_fixture ∧
  Heur.answer_words heur_fixture = list_to_set pool_answers.
Proof.
  assert (Hlen : ∀ w : str, w ∈ (list_to_set pool_answers : gset str) →
                            length w = 5%nat).
  { intros w Hw. apply elem_of_list_to_set in Hw.
    repeat (apply elem_of_cons in Hw as [->|Hw]; [done|]).
    by apply elem_of_nil in Hw. }
  split; [by apply heur_init_exact|].
  by destruct (heur_init_fields 5 (list_to_set pool_allowed)
                 (list_to_set pool_answers) Hlen).
Qed.

(** The candidates "rally" and "hello" agree on every letter of "bulls":
    neither holds 'b', 'u' or 's', both hold 'l' at the third and fourth
    positions. *)
Lemma bulls_undistinguished (i : nat) (c : ascii) (w1 w2 : str) :
  str_of "bulls" !! i = Some c →
  w1 ∈ Heur.answer_words heur_fixture →
  w2 ∈ Heur.answer_words heur_fixture →
  (c ∈ w1 ↔ c ∈ w2) ∧ (w1 !! i = Some c ↔ w2 !! i = Some c).
Proof.
  destruct heur_fixture_exact as [_ Ha]. rewrite Ha. clear Ha.
  intros Hi H1 H2. apply elem_of_list_to_set in H1, H2.
  apply elem_of_cons in H1 as [->|H1];
    [|apply elem_of_cons in H1 as [->|H1]; [|by apply elem_of_nil in H1]].
  all: (apply elem_of_cons in H2 as [->|H2];
    [|apply elem_of_cons in H2 as [->|H2]; [|by apply elem_of_nil in H2]]).
  all: do 5 (destruct i as [|i];
             [injection Hi as <-; apply (bool_decide_unpack _);
              by vm_compute|]).
  all: done.
Qed.

Lemma heur_no_information_witness :
  Heur.get_word_info_approx heur_fixture (str_of "bulls") = Ok 0%R.
Proof.
  apply (heur_no_information heur_fixture (str_of "bulls")).
  - apply heur_fixture_exact.
  - rewrite (proj1 heur_fixture_wf). apply (bool_decide_unpack _).
    by vm_compute.
  - apply bulls_undistinguished.
Defined.

(** ** The constructor of the exact session *)

(** X21. The constructor of [wordle_exact.py] fails on every dict of
    files that is not empty: [read_initial_words] calls the loader by
    the bare name [read_words], which the module does not bind, so the
    first item raises NameError, before any pool is stored.  With no
    file it returns, and the session has no pool. *)
Theorem exact_init_outcome (read_words : string → list str) (len : nat)
    (files : list (string * string)) :
  Exact.init read_words len files
  = (Exact.mkState len [] [],
     if decide (files = []) then Ok () else Raise NameError).
Proof.
  unfold Exact.init, Exact.read_initial_words.
  unfold mbind at 1, py_bind, modify at 1. simpl.
  destruct files as [|[word_type fname] files]; [done|].
  rewrite for_cons. rewrite decide_False by done.
  unfold mbind, py_bind, lift, Exact.lookup_global.
  by rewrite decide_False by (apply (bool_decide_unpack _); by vm_compute).
Qed.

(** ** The candidates after the hints *)

(** X22. The candidates of the exact session.  From a state before any
    hint, the words of the pools all of one length that no guess
    exceeds, every call of [add_word_hint] returns, the hints are
    recorded in order, and every pool holds its original copy and, as
    its pruned copy, the words of the original for which [get_label]
    gives, for every hinted guess, the hinted label. *)
Theorem exact_candidates_after_hints (n : nat) (hs : list (str * str))
    (s0 : Exact.state) :
  exact_fresh s0 →
  Forall (λ it : string * (list str * list str),
            Forall (λ w, length w = n) it.2.1) (Exact.words s0) →
  Forall (λ h : str * str, (length h.1 ≤ n)%nat) hs →
  ∃ s, exact_session hs s0 = (s, Ok ()) ∧
       Exact.hints s = hs ∧
       Exact.words s
       = (λ it : string * (list str * list str),
            (it.1, (it.2.1, filter (consistent hs) it.2.1)))
         <$> Exact.words s0.
Proof. apply exact_session_run. Qed.

Lemma exact_candidates_after_hints_witness :
  ∃ s, exact_session [(str_of "allay", str_of "11202")] exact_fixture
       = (s, Ok ()) ∧
       Exact.hints s = [(str_of "allay", str_of "11202")] ∧
       Exact.words s
       = (λ it : string * (list str * list str),
            (it.1, (it.2.1,
                    filter (consistent [(str_of "allay", str_of "11202")])
                           it.2.1)))
         <$> Exact.words exact_fixture.
Proof.
  apply (exact_candidates_after_hints 5%nat
           [(str_of "allay", str_of "11202")] exact_fixture).
  - by apply (bool_decide_unpack _).
  - by repeat constructor.
  - by repeat constructor.
Defined.

(** X23. The candidates of the heuristic session.  After [__init__] on
    answer words of the session's length and any number of hints that
    pass the assertions, with guesses no longer than the words, every
    call has returned and the candidate set is the answer words that
    obey, for every character of every hint, the rule of that character
    alone: '0' the letter is nowhere in the word, '1' it is in the word
    but not at this position, '2' it is at this position. *)
Theorem heur_candidates_after_hints (len : nat) (allowed answers : gset str)
    (hs : list (str * str)) :
  (∀ w, w ∈ answers → length w = len) →
  Forall (λ h : str * str,
            valid_hint h.1 h.2 ∧ (length h.1 ≤ len)%nat) hs →
  ∃ s0 s', Heur.init len allowed answers = (s0, Ok ()) ∧
           heur_session hs s0 = (s', Ok ()) ∧
           Heur.answer_words s' = filter (heur_consistent hs) answers.
Proof.
  intros Hlen Hhs.
  destruct (heur_init_run len allowed answers Hlen)
    as (s0 & Hinit & Ha0 & Hl0 & Hs0 & Hst0).
  destruct (heur_session_sized hs s0) as (s' & Hrun & Ha & _); try done.
  { by rewrite Hl0. }
  exists s0, s'. by rewrite Ha, Ha0.
Qed.

Lemma heur_candidates_after_hints_witness :
  ∃ s0 s',
    Heur.init 5 (list_to_set pool_allowed) (list_to_set pool_answers)
    = (s0, Ok ()) ∧
    heur_session [(str_of "hxllo", str_of "20222")] s0 = (s', Ok ()) ∧
    Heur.answer_words s'
    = filter (heur_consistent [(str_of "hxllo", str_of "20222")])
             (list_to_set pool_answers).
Proof.
  apply (heur_candidates_after_hints 5%nat).
  - intros w Hw. apply elem_of_list_to_set in Hw. revert w Hw.
    apply Forall_forall. by repeat constructor.
  - by apply (bool_decide_unpack _).
Defined.

(** ** Where the two scripts agree *)

Lemma marked_notin c (w label : str) : c ∉ w → marked c w label = 0.
Proof.
  revert label. induction w as [|d w IH]; intros [|x label] Hc; try done.
  apply not_elem_of_cons in Hc as [Hne Hc].
  rewrite marked_cons, IH by done.
  rewrite decide_False; [done|]. by intros [-> _].
Qed.

(** In a guess without a repeated letter, the marks of a letter are
    those of its one position. *)
Lemma marked_nodup c (w label : str) i x :
  NoDup w → w !! i = Some c → label !! i = Some x →
  marked c w label
  = if decide (x = "1"%char ∨ x = "2"%char) then 1 else 0.
Proof.
  intros Hnd. revert i label.
  induction Hnd as [|d w Hd Hnd IH]; intros i [|y label] Hw Hl; try done.
  rewrite marked_cons. destruct i as [|i]; simpl in Hw, Hl.
  - injection Hw as ->. injection Hl as ->.
    rewrite marked_notin by done.
    destruct (decide (x = "1"%char ∨ x = "2"%char)).
    + by rewrite decide_True.
    + by rewrite decide_False by (by intros [_ ?]).
  - rewrite decide_False.
    + by rewrite (IH i label).
    + intros [-> _]. apply Hd. by eapply list_elem_of_lookup_2.
Qed.

Lemma occurrences_pos `{EqDecision A} (c : A) (l : list A) :
  0 < occurrences c l ↔ c ∈ l.
Proof.
  split.
  - intros Hpos. destruct (decide (c ∈ l)) as [|Hc]; [done|].
    rewrite occurrences_notin in Hpos by done. lia.
  - intros Hc. unfold occurrences.
    assert (Hin : c ∈ filter (λ x, x = c) l)
      by (by apply list_elem_of_filter).
    destruct (filter (λ x, x = c) l); [by apply elem_of_nil in Hin|].
    simpl. lia.
Qed.

Lemma occurrences_nodup `{EqDecision A} (c : A) (l : list A) :
  NoDup l → c ∈ l → occurrences c l = 1.
Proof.
  intros Hnd. induction Hnd as [|d l Hd Hnd IH]; intros Hc.
  - by apply elem_of_nil in Hc.
  - rewrite occurrences_step. apply elem_of_cons in Hc as [->|Hc].
    + rewrite decide_True, occurrences_notin by done. lia.
    + rewrite decide_False, IH by (done || by intros ->). lia.
Qed.

(** The label of a guess without a repeated letter, position by
    position. *)
Lemma encoded_nodup (w a : str) i c x :
  NoDup w → length w = length a →
  w !! i = Some c → encoded w a !! i = Some x →
  x ∈ ["0"; "1"; "2"]%char ∧
  (x = "2"%char ↔ a !! i = Some c) ∧
  (x = "0"%char ↔ c ∉ a).
Proof.
  intros Hnd Hlen Hw Hx. unfold encoded in *.
  assert (Hlm : length (exact_marks w a) = length w)
    by (apply exact_marks_length; lia).
  pose proof (present_marks_values w (exact_marks w a)
                (exact_counts w a (Counter a)) (exact_marks_values w a))
    as Hval.
  rewrite Forall_forall in Hval.
  assert (Hx3 : x ∈ ["0"; "1"; "2"]%char)
    by (by eapply Hval, list_elem_of_lookup_2).
  split; [done|]. split.
  - split.
    + intros ->. apply present_marks_correct in Hx; [|done].
      apply exact_marks_correct in Hx as (c' & Hc' & Ha). congruence.
    + intros Ha.
      assert (H2 : present_marks w (exact_marks w a)
                     (exact_counts w a (Counter a)) !! i = Some "2"%char).
      { apply present_marks_correct; [done|].
        apply exact_marks_correct. eauto. }
      congruence.
  - pose proof (label_mark_count w a c ltac:(lia)) as Hmark.
    rewrite (marked_nodup c w _ i x Hnd Hw Hx) in Hmark.
    rewrite (occurrences_nodup c w Hnd) in Hmark
      by (by eapply list_elem_of_lookup_2).
    pose proof (occurrences_pos c a) as Hpos.
    assert (0 ≤ occurrences c a) by (unfold occurrences; lia).
    split.
    + intros ->. rewrite decide_False in Hmark by (by intros [|]).
      intros Hc. apply Hpos in Hc. lia.
    + intros Hc. destruct (decide (x = "1"%char ∨ x = "2"%char)) as [Hx12|Hx12].
      * exfalso. apply Hc, Hpos. lia.
      * repeat (apply elem_of_cons in Hx3 as [->|Hx3]); try done.
        -- destruct Hx12. by left.
        -- destruct Hx12. by right.
        -- by apply elem_of_nil in Hx3.
Qed.

Lemma chars_rule_lookup (w label a : str) :
  chars_rule (enumerate (zip w label)) a ↔
  ∀ i c x, w !! i = Some c → label !! i = Some x → char_rule c x i a.
Proof.
  unfold chars_rule. rewrite Forall_forall. split.
  - intros Hall i c x Hw Hl. apply (Hall (i, (c, x))).
    unfold enumerate. apply elem_of_lookup_zip_with. exists i, i, (c, x).
    split; [done|]. split.
    + apply lookup_seq. split; [done|]. rewrite length_zip.
      apply lookup_lt_Some in Hw, Hl. lia.
    + apply lookup_zip_with_Some. eauto.
  - intros Hall [i [c x]] Hin. simpl.
    apply enumerate_lookup in Hin.
    apply lookup_zip_with_Some in Hin as (c' & x' & [= <- <-] & Hw & Hl).
    by apply Hall.
Qed.

(** X24. Where the two scripts agree.  For a guess without a repeated
    letter, a target of the same length and a label that passes the
    assertions of [wordle.py], the target obeys the rule of every
    character of the hint, which is what [wordle.py] keeps, exactly when
    [get_label] gives the label for the guess against the target, which
    is what [wordle_exact.py] keeps.  The scripts can differ only on
    guesses that repeat a letter. *)
Theorem scripts_agree_without_repeats (w label a : str) :
  NoDup w → length w = length a → valid_hint w label →
  chars_rule (enumerate (zip w label)) a ↔ Exact.get_label w a = Ok label.
Proof.
  intros Hnd Hlen [Hval Hll].
  rewrite get_label_run by lia. fold (encoded w a).
  assert (Hle : length (encoded w a) = length w).
  { unfold encoded. apply present_marks_length, exact_marks_length. lia. }
  rewrite chars_rule_lookup. split.
  - intros Hrule. f_equal. symmetry.
    apply list_eq_same_length with (length w); [done|lia|].
    intros i y x Hi Hy Hx.
    destruct (lookup_lt_is_Some_2 w i Hi) as [c Hc].
    destruct (encoded_nodup w a i c x Hnd Hlen Hc Hx) as (Hx3 & Hx2 & Hx0).
    destruct (Hrule i c y Hc Hy) as (Hy0 & Hy1 & Hy2).
    rewrite Forall_forall in Hval.
    assert (Hy3 : y ∈ ["0"; "1"; "2"]%char)
      by (by eapply Hval, list_elem_of_lookup_2).
    repeat (apply elem_of_cons in Hy3 as [->|Hy3]);
      [| | |by apply elem_of_nil in Hy3].
    + symmetry. apply Hx0. by apply Hy0.
    + destruct (Hy1 eq_refl) as (Hca & _ & Hne).
      repeat (apply elem_of_cons in Hx3 as [->|Hx3]);
        [| | |by apply elem_of_nil in Hx3]; [|done|].
      * exfalso. by apply Hx0.
      * exfalso. by apply Hne, Hx2.
    + symmetry. apply Hx2. by apply Hy2.
  - intros [= <-]. intros i c x Hc Hx.
    destruct (encoded_nodup w a i c x Hnd Hlen Hc Hx) as (Hx3 & Hx2 & Hx0).
    unfold char_rule. split; [|split].
    + intros ->. by apply Hx0.
    + intros ->. split; [|split].
      * apply dec_stable. intros Hc'. by apply Hx0 in Hc'.
      * apply lookup_lt_Some in Hc. lia.
      * intros Ha. by apply Hx2 in Ha.
    + intros ->. by apply Hx2.
Qed.

Lemma scripts_agree_without_repeats_witness :
  chars_rule (enumerate (zip (str_of "route") (str_of "20000")))
             (str_of "rally")
  ↔ Exact.get_label (str_of "route") (str_of "rally") = Ok (str_of "20000").
Proof.
  apply (scripts_agree_without_repeats (str_of "route") (str_of "20000")
           (str_of "rally")).
  - apply (bool_decide_unpack _). by vm_compute.
  - reflexivity.
  - apply (bool_decide_unpack _). by vm_compute.
Defined.

Lemma heur_consistent_perm hs hs' w :
  hs ≡ₚ hs' → heur_consistent hs w ↔ heur_consistent hs' w.
Proof. unfold heur_consistent. by intros ->. Qed.

(** X25. The order of the hints does not matter to the candidates of
    the heuristic session: from a well-formed state, two sequences of
    hints that pass the assertions, the same up to their order, both
    return and leave the same candidates and the same letters. *)
Theorem heur_hint_order (hs hs' : list (str * str)) (s : Heur.state) :
  Forall (λ h : str * str,
            valid_hint h.1 h.2 ∧ (length h.1 ≤ Heur._len s)%nat) hs →
  hs ≡ₚ hs' → heur_sized s → heur_stats s →
  ∃ s1 s2,
    heur_session hs s = (s1, Ok ()) ∧
    heur_session hs' s = (s2, Ok ()) ∧
    Heur.answer_words s1 = Heur.answer_words s2 ∧
    Heur.chars s1 = Heur.chars s2.
Proof.
  intros Hhs Hperm Hs Hst.
  destruct (heur_session_sized hs s Hhs Hs Hst)
    as (s1 & H1 & Ha1 & _ & _ & Hc1 & _).
  destruct (heur_session_sized hs' s) as (s2 & H2 & Ha2 & _ & _ & Hc2 & _);
    [by rewrite <- Hperm|done|done|].
  exists s1, s2. split; [done|]. split; [done|].
  assert (Ha : Heur.answer_words s1 = Heur.answer_words s2).
  { rewrite Ha1, Ha2. apply filter_iff_set. intros w.
    by apply heur_consistent_perm. }
  split; [done|]. by rewrite Hc1, Hc2, Ha.
Qed.

Lemma heur_hint_order_witness :
  ∃ s1 s2,
    heur_session [(str_of "route", str_of "20000");
                  (str_of "hxllo", str_of "00220")] heur_fixture
    = (s1, Ok ()) ∧
    heur_session [(str_of "hxllo", str_of "00220");
                  (str_of "route", str_of "20000")] heur_fixture
    = (s2, Ok ()) ∧
    Heur.answer_words s1 = Heur.answer_words s2 ∧
    Heur.chars s1 = Heur.chars s2.
Proof.
  destruct heur_fixture_wf as (Hl & Hs & Hst).
  apply (heur_hint_order _ _ heur_fixture).
  - rewrite Hl. by apply (bool_decide_unpack _).
  - apply Permutation_swap.
  - exact Hs.
  - exact Hst.
Defined.

(** ** Loading the words *)

Lemma read_words_foldl (strip : str → str) (isalpha : str → bool)
    (lines : list str) (onlyalpha : bool) (len : nat)
    (acc : gset str) (w : str) :
  w ∈ foldl (λ (words : gset str) line,
               let word := strip line in
               if decide (length word ≠ len) then words
               else if onlyalpha && negb (isalpha word) then words
               else {[word]} ∪ words) acc lines
  ↔ w ∈ acc ∨
    ∃ line, line ∈ lines ∧ strip line = w ∧ length w = len ∧
            (onlyalpha = true → isalpha w = true).
Proof.
  revert acc. induction lines as [|line lines IH]; intros acc.
  - simpl. split; [by left|]. intros [?|(line & Hin & _)]; [done|].
    by apply elem_of_nil in Hin.
  - cbn [foldl]. rewrite IH. cbv zeta. clear IH.
    set (word := strip line).
    assert (Hstep : ∀ v : str,
      v ∈ (if decide (length word ≠ len) then acc
           else if onlyalpha && negb (isalpha word) then acc
                else {[word]} ∪ acc)
      ↔ v ∈ acc ∨ (word = v ∧ length v = len ∧
                   (onlyalpha = true → isalpha v = true))).
    { intros v. destruct (decide (length word ≠ len)) as [Hne|Heq].
      - split; [by left|]. intros [?|(<- & ? & _)]; done.
      - apply dec_stable in Heq.
        destruct onlyalpha, (isalpha word) eqn:Hal; simpl;
          rewrite ?elem_of_union, ?elem_of_singleton.
        + split; [intros [->|?]; [right|left]; done|].
          intros [?|(<- & _)]; [by right|by left].
        + split; [by left|]. intros [?|(<- & _ & Ha)]; [done|].
          specialize (Ha eq_refl). congruence.
        + split; [intros [->|?]; [right|left]; done|].
          intros [?|(<- & _)]; [by right|by left].
        + split; [intros [->|?]; [right|left]; done|].
          intros [?|(<- & _)]; [by right|by left]. }
    rewrite Hstep. split.
    + intros [[?|(Hw & Hl & Ha)]|(l & Hl & ?)].
      * by left.
      * right. exists line. split; [by left|done].
      * right. exists l. split; [by right|done].
    + intros [?|(l & Hl & Hs & Hlen & Ha)]; [by left; left|].
      apply elem_of_cons in Hl as [->|Hl].
      * left. right. done.
      * right. by exists l.
Qed.

Lemma update_stats_allowed :
  preserves Heur.allowed_words (Heur.update_chars;; Heur.update_counts).
Proof. unfold Heur.update_chars. frame_counts. Qed.

(** X26. The constructor of [wordle.py] on any two files.  [read_words]
    keeps exactly the stripped lines of the session's length, purely
    alphabetic when [onlyalpha] is set, each once; and [__init__] on the
    two sets it reads returns, whatever the files hold, with those sets
    as allowed words and candidates, every candidate of the session's
    length and the statistics those of the candidates. *)
Theorem heur_constructor_total (strip : str → str) (isalpha : str → bool)
    (allowed_lines answers_lines : list str) (onlyalpha : bool) (len : nat) :
  (∀ lines w,
     w ∈ Heur.read_words strip isalpha lines onlyalpha len ↔
     ∃ line, line ∈ lines ∧ strip line = w ∧ length w = len ∧
             (onlyalpha = true → isalpha w = true)) ∧
  ∃ s,
    Heur.init len
      (Heur.read_words strip isalpha allowed_lines onlyalpha len)
      (Heur.read_words strip isalpha answers_lines onlyalpha len)
    = (s, Ok ()) ∧
    Heur.allowed_words s
    = Heur.read_words strip isalpha allowed_lines onlyalpha len ∧
    Heur.answer_words s
    = Heur.read_words strip isalpha answers_lines onlyalpha len ∧
    Heur._len s = len ∧ heur_sized s ∧ stats_exact s.
Proof.
  assert (Hspec : ∀ lines w,
     w ∈ Heur.read_words strip isalpha lines onlyalpha len ↔
     ∃ line, line ∈ lines ∧ strip line = w ∧ length w = len ∧
             (onlyalpha = true → isalpha w = true)).
  { intros lines w. unfold Heur.read_words. rewrite read_words_foldl.
    split; [|by right]. intros [Hw|?]; [|done]. by apply elem_of_empty in Hw. }
  split; [done|].
  set (allowed := Heur.read_words strip isalpha allowed_lines onlyalpha len).
  set (answers := Heur.read_words strip isalpha answers_lines onlyalpha len).
  assert (Hlen : ∀ w, w ∈ answers → length w = len).
  { intros w Hw. apply Hspec in Hw as (line & _ & _ & Hl & _). done. }
  pose proof (heur_init_exact len allowed answers Hlen) as He.
  pose proof (update_stats_allowed
                (Heur.mkState len allowed answers (Z.of_nat (size allowed))
                   (Z.of_nat (size answers)) ∅ ∅ ∅ ∅)) as Hal.
  fold (Heur.init len allowed answers) in Hal.
  destruct (heur_init_run len allowed answers Hlen)
    as (s & Hinit & Ha & Hl & Hs & _).
  rewrite Hinit in He, Hal. exists s. simpl in *. done.
Qed.

(** ** Fixtures of the encoder *)

Example get_label_allay_rally :
  Exact.get_label (str_of "allay") (str_of "rally") = Ok (str_of "11202").
Proof. vm_compute. reflexivity. Qed.

Example get_label_edcba_abcde :
  Exact.get_label (str_of "edcba") (str_of "abcde") = Ok (str_of "11211").
Proof. vm_compute. reflexivity. Qed.

Example get_label_guess_too_long :
  Exact.get_label (str_of "allays") (str_of "rally") = Raise IndexError.
Proof. vm_compute. reflexivity. Qed.
